(** * Indexed min/max reduction and the softmax kernel family

    A shallow embedding of
    - [csrc/gpu/aten/operators/ReduceDimIndex.cpp]: the comparators
      [LessOrNan] / [GreaterOrNan], the accumulator operations of
      [MinMaxReductionOps] and the entry points [_min_out] / [_max_out];
    - the softmax translation unit: launch-parameter selection
      ([get_wgroup_size]), the forward and backward dispatchers, the kernel
      functors of the three tiers, the masked variants and the fused
      add+softmax entry points.

    Integers of the host code ([int], [int64_t], [uint64_t]) are [Z]; every
    quantity that is multiplied or added below is a tensor extent or a device
    property, far from the 32/64-bit limits, so no wrap-around occurs.
    Positions inside one reduced row are natural numbers. *)

From Stdlib Require Import ZArith List Bool Lia Arith Permutation String FinFun.
From Stdlib Require Import Floats.SpecFloat.
Import ListNotations.

Local Open Scope Z_scope.

(* ===================================================================== *)
(** * Part I: ReduceDimIndex.cpp                                          *)
(* ===================================================================== *)

(** ** The [Numerics<scalar_t>] trait

    [comm/Numerics.h] is not among the sources.  The operations that
    ReduceDimIndex.cpp uses from it (and the built-in comparisons on
    [scalar_t]) are taken as an interface. *)

Class Numerics (scalar_t : Type) : Type := {
  isnan : scalar_t -> bool;                 (* Numerics<scalar_t>::isnan *)
  num_eq : scalar_t -> scalar_t -> bool;    (* a == b *)
  num_lt : scalar_t -> scalar_t -> bool;    (* a < b  *)
  num_gt : scalar_t -> scalar_t -> bool;    (* a > b  *)
  upper_bound : scalar_t;                   (* Numerics<scalar_t>::upper_bound() *)
  lower_bound : scalar_t                    (* Numerics<scalar_t>::lower_bound() *)
}.

(** What the comparisons of an arithmetic type guarantee: NaN compares false
    with everything, the other values are totally ordered up to [==], and the
    two bounds are the largest and the smallest value. *)
Class NumericsLaws (scalar_t : Type) `{Numerics scalar_t} : Prop := {
  gt_is_flipped_lt : forall a b, num_gt a b = num_lt b a;
  nan_eq_l : forall a b, isnan a = true -> num_eq a b = false;
  nan_eq_r : forall a b, isnan b = true -> num_eq a b = false;
  nan_lt_l : forall a b, isnan a = true -> num_lt a b = false;
  nan_lt_r : forall a b, isnan b = true -> num_lt a b = false;
  eq_sym : forall a b, num_eq a b = num_eq b a;
  lt_total : forall a b, isnan a = false -> isnan b = false ->
      num_eq a b = true \/ num_lt a b = true \/ num_lt b a = true;
  lt_trans : forall a b c, num_lt a b = true -> num_lt b c = true -> num_lt a c = true;
  lt_asym : forall a b, num_lt a b = true -> num_lt b a = false;
  lt_eq_r : forall a b c, num_lt a b = true -> num_eq b c = true -> num_lt a c = true;
  lt_eq_l : forall a b c, num_eq a b = true -> num_lt a c = true -> num_lt b c = true;
  eq_not_lt : forall a b, num_eq a b = true -> num_lt a b = false;
  upper_not_nan : isnan upper_bound = false;
  lower_not_nan : isnan lower_bound = false;
  upper_is_top : forall a, num_lt upper_bound a = false;
  lower_is_bottom : forall a, num_lt a lower_bound = false
}.

(** *** Instance: a signed integer type (no NaN). *)

Definition INT64_MAX : Z := 9223372036854775807.
Definition INT64_MIN : Z := -9223372036854775808.

(** [int64_t] values are the integers of the interval below; the comparisons
    are those of [Z]. *)
Definition int64_t : Type := { z : Z | (INT64_MIN <=? z) && (z <=? INT64_MAX) = true }.

Definition int64_val (x : int64_t) : Z := proj1_sig x.

Definition int64_of (z : Z) (H : (INT64_MIN <=? z) && (z <=? INT64_MAX) = true) : int64_t :=
  exist _ z H.

#[export] Instance Numerics_int64 : Numerics int64_t := {
  isnan := fun _ => false;
  num_eq := fun a b => int64_val a =? int64_val b;
  num_lt := fun a b => int64_val a <? int64_val b;
  num_gt := fun a b => int64_val a >? int64_val b;
  upper_bound := int64_of INT64_MAX eq_refl;
  lower_bound := int64_of INT64_MIN eq_refl
}.

(** *** Instance: IEEE-754 binary floating point (no NaN payload). *)

Definition SF_isnan (x : spec_float) : bool :=
  match x with S754_nan => true | _ => false end.

#[export] Instance Numerics_float : Numerics spec_float := {
  isnan := SF_isnan;
  num_eq := SFeqb;
  num_lt := SFltb;
  num_gt := fun a b => SFltb b a;
  upper_bound := S754_infinity false;
  lower_bound := S754_infinity true
}.

(** ** Comparators and accumulator operations *)

Definition index_t : Type := Z.

Section Comparators.
Context {scalar_t : Type} `{Numerics scalar_t}.

(** [LessOrNan::operator()]: if (a == b) choose the lower index, else
    min(a, b); a NaN wins over everything that is not a NaN. *)
Definition LessOrNan (a b : scalar_t) (idx_a idx_b : index_t) : bool :=
  if isnan a then
    if isnan b then idx_a <? idx_b
    else true
  else if num_eq a b then idx_a <? idx_b else num_lt a b.

(** [GreaterOrNan::operator()]. *)
Definition GreaterOrNan (a b : scalar_t) (idx_a idx_b : index_t) : bool :=
  if isnan a then
    if isnan b then idx_a <? idx_b
    else true
  else if num_eq a b then idx_a <? idx_b else num_gt a b.

(** [MinMaxReductionOps<comp_t>::arg_t]. *)
Record arg_t : Type := mk_arg { first : scalar_t; second : index_t }.

Definition comp_t : Type := scalar_t -> scalar_t -> index_t -> index_t -> bool.
End Comparators.

Arguments arg_t scalar_t : clear implicits.
Arguments comp_t scalar_t : clear implicits.

Module MinMaxReductionOps.
Section Ops.
Context {scalar_t : Type} (comp : comp_t scalar_t).

Definition project (arg : arg_t scalar_t) : arg_t scalar_t := arg.

Definition reduce (arg : arg_t scalar_t) (val : scalar_t) (idx : index_t)
  : arg_t scalar_t :=
  let ret := mk_arg val idx in
  if comp (first arg) val (second arg) idx then arg else ret.

Definition combine (a b : arg_t scalar_t) : arg_t scalar_t :=
  if comp (first a) (first b) (second a) (second b) then a else b.

Definition translate_idx (a : arg_t scalar_t) (base_idx : index_t)
  : arg_t scalar_t :=
  mk_arg (first a) (second a + base_idx).
End Ops.
End MinMaxReductionOps.

(** [MinOps] and [MaxOps] are [MinMaxReductionOps] at the two comparators. *)
Module MinOps.
Section Ops.
Context {scalar_t : Type} `{Numerics scalar_t}.
Definition reduce := MinMaxReductionOps.reduce (@LessOrNan scalar_t _).
Definition combine := MinMaxReductionOps.combine (@LessOrNan scalar_t _).
Definition translate_idx := @MinMaxReductionOps.translate_idx scalar_t.
Definition project := @MinMaxReductionOps.project scalar_t.
(** The seed passed by [_min_out]:
    [MinOps<scalar_t>::arg_t{Numerics<scalar_t>::upper_bound(), 0}]. *)
Definition ident : arg_t scalar_t := mk_arg upper_bound 0.
End Ops.
End MinOps.

Module MaxOps.
Section Ops.
Context {scalar_t : Type} `{Numerics scalar_t}.
Definition reduce := MinMaxReductionOps.reduce (@GreaterOrNan scalar_t _).
Definition combine := MinMaxReductionOps.combine (@GreaterOrNan scalar_t _).
Definition translate_idx := @MinMaxReductionOps.translate_idx scalar_t.
Definition project := @MinMaxReductionOps.project scalar_t.
(** The seed passed by [_max_out]. *)
Definition ident : arg_t scalar_t := mk_arg lower_bound 0.
End Ops.
End MaxOps.

(** ** The reduction driver

    Modelled from the spec: [dpcpp_reduce_kernel] (Reduce.h) is not among the
    sources.  The spec describes it as a comparator-parameterised fold: the
    accumulator starts from the seed, [reduce] is applied to every element of
    the slice with its position along the reduced axis, partial accumulators
    of disjoint chunks are merged with [combine], and the output pair is
    [project] of the final accumulator. *)
Section Driver.
Context {scalar_t : Type} (comp : comp_t scalar_t).

Fixpoint reduce_from (acc : arg_t scalar_t) (idx : index_t)
         (slice : list scalar_t) : arg_t scalar_t :=
  match slice with
  | [] => acc
  | val :: rest =>
      reduce_from (MinMaxReductionOps.reduce comp acc val idx) (idx + 1) rest
  end.

Definition reduce_slice (ident : arg_t scalar_t) (slice : list scalar_t)
  : arg_t scalar_t :=
  MinMaxReductionOps.project (reduce_from ident 0 slice).

(** The fold over the elements alone: the first element is the initial
    accumulator. *)
Definition reduce_unseeded (slice : list scalar_t) : option (arg_t scalar_t) :=
  match slice with
  | [] => None
  | val :: rest => Some (reduce_from (mk_arg val 0) 1 rest)
  end.

(** Two-chunk reduction: each chunk is folded from the seed with positions
    local to the chunk, the second partial is moved to its base offset with
    [translate_idx], and the partials are merged with [combine]. *)
Definition reduce_two_chunks (ident : arg_t scalar_t)
           (chunk0 chunk1 : list scalar_t) : arg_t scalar_t :=
  MinMaxReductionOps.project
    (MinMaxReductionOps.combine comp
       (reduce_from ident 0 chunk0)
       (MinMaxReductionOps.translate_idx
          (reduce_from ident 0 chunk1) (Z.of_nat (List.length chunk0)))).
End Driver.

(** Modelled from the spec: the reduction input is conceptually a 3D view
    (outer_size, dim_size, inner_size) of a dense buffer; the slice of the
    output position (outer index [o], inner index [i]) holds the elements at
    [(o * dim_size + k) * inner_size + i] for [k] along the reduced axis. *)
Definition axis_slice {scalar_t : Type} (data : nat -> scalar_t)
           (dim_size inner_size o i : nat) : list scalar_t :=
  map (fun k => data ((o * dim_size + k) * inner_size + i)%nat) (seq 0 dim_size).

(** The values/indices pair of the two operators for one slice. *)
Definition min_slice {scalar_t} `{Numerics scalar_t} (slice : list scalar_t)
  : arg_t scalar_t :=
  reduce_slice (@LessOrNan scalar_t _) MinOps.ident slice.

Definition max_slice {scalar_t} `{Numerics scalar_t} (slice : list scalar_t)
  : arg_t scalar_t :=
  reduce_slice (@GreaterOrNan scalar_t _) MaxOps.ident slice.

(** The entries of the (values, indices) outputs of indexed-min and
    indexed-max at the output position ([o], [i]). *)
Definition min_along_axis {scalar_t} `{Numerics scalar_t}
           (data : nat -> scalar_t) (dim_size inner_size o i : nat)
  : arg_t scalar_t :=
  min_slice (axis_slice data dim_size inner_size o i).

Definition max_along_axis {scalar_t} `{Numerics scalar_t}
           (data : nat -> scalar_t) (dim_size inner_size o i : nat)
  : arg_t scalar_t :=
  max_slice (axis_slice data dim_size inner_size o i).

(** ** Host side: tensors and the entry points [_min_out] / [_max_out] *)

(** [c10::ScalarType]. *)
Inductive ScalarType : Type :=
| kByte | kChar | kShort | kInt | kLong
| kHalf | kFloat | kDouble
| kComplexHalf | kComplexFloat | kComplexDouble
| kBool | kBFloat16.

Definition ScalarType_eqb (a b : ScalarType) : bool :=
  match a, b with
  | kByte, kByte | kChar, kChar | kShort, kShort | kInt, kInt | kLong, kLong
  | kHalf, kHalf | kFloat, kFloat | kDouble, kDouble
  | kComplexHalf, kComplexHalf | kComplexFloat, kComplexFloat
  | kComplexDouble, kComplexDouble | kBool, kBool | kBFloat16, kBFloat16 => true
  | _, _ => false
  end.

Definition isComplexType (t : ScalarType) : bool :=
  match t with
  | kComplexHalf | kComplexFloat | kComplexDouble => true
  | _ => false
  end.

(** What the host code reads of a tensor: its sizes and its element type. *)
Record Tensor : Type := mkTensor {
  sizes : list Z;
  scalar_type : ScalarType
}.

Definition dim (t : Tensor) : Z := Z.of_nat (List.length (sizes t)).
Definition numel (t : Tensor) : Z := fold_right Z.mul 1 (sizes t).
Definition size (t : Tensor) (d : Z) : Z := nth (Z.to_nat d) (sizes t) 0.
Definition is_complex (t : Tensor) : bool := isComplexType (scalar_type t).

Fixpoint sizes_eqb (a b : list Z) : bool :=
  match a, b with
  | [], [] => true
  | x :: a', y :: b' => (x =? y) && sizes_eqb a' b'
  | _, _ => false
  end.

(** [t.dim() == 0 ? t.view(1) : t]. *)
Definition view1_if_scalar (t : Tensor) : Tensor :=
  if dim t =? 0 then mkTensor [1] (scalar_type t) else t.

(** Modelled from the spec: [maybe_wrap_dim] belongs to the host framework
    (axis normalisation: a negative axis is wrapped into the valid range, an
    axis outside [-n, n-1] is an error; a 0-dim tensor is treated as having
    one dimension). *)
Definition maybe_wrap_dim (d dim_post_expr : Z) : option Z :=
  let n := if dim_post_expr <=? 0 then 1 else dim_post_expr in
  if (d <? - n) || (n - 1 <? d) then None
  else Some (if d <? 0 then d + n else d).

(** Modelled from the spec: [at::native::_dimreduce_return_trivial_no_ident]
    belongs to the host framework.  The spec (single-element input, trivial
    shortcut) and the comment in [_max_out] (case where self.numel() == 1)
    describe when it answers true; it then copies the single element into the
    value output. *)
Definition _dimreduce_return_trivial_no_ident (self : Tensor) : bool :=
  numel self =? 1.

(** Modelled from the spec: [IPEX_DISPATCH_ALL_TYPES_AND3(kBFloat16, kHalf,
    kBool, ...)] (comm/ATDispatch.h) runs its body for the integral and
    floating types and the three extra ones, and fails for any other type. *)
Definition dispatch_all_types_and3 (t : ScalarType) : bool :=
  match t with
  | kByte | kChar | kShort | kInt | kLong | kFloat | kDouble
  | kBFloat16 | kHalf | kBool => true
  | _ => false
  end.

(** Modelled from the spec: [IPEX_DISPATCH_FLOATING_TYPES_AND2(BFloat16,
    Half, ...)]. *)
Definition dispatch_floating_types_and2 (t : ScalarType) : bool :=
  match t with
  | kFloat | kDouble | kBFloat16 | kHalf => true
  | _ => false
  end.

Inductive ReduceSeed : Type :=
| seed_upper_bound_0   (* arg_t{Numerics<scalar_t>::upper_bound(), 0} *)
| seed_lower_bound_0.  (* arg_t{Numerics<scalar_t>::lower_bound(), 0} *)

(** What one call of [_min_out] / [_max_out] does. *)
Inductive MinMaxOutcome : Type :=
| wrap_dim_failed
    (* maybe_wrap_dim raised *)
| zero_numel_tensor_resize (wrapped_dim : Z) (keepdim : bool) (fn_name : string)
    (* outputs resized by the framework helper, then return *)
| check_failed (msg : string)
    (* the single element was copied to the value output, then TORCH_CHECK raised *)
| trivial_result (index_fill : Z)
    (* value copied; min_indices.resize_({}).fill_(index_fill) *)
| dispatch_failed
    (* make_reduction ran, the dispatch macro rejected the element type *)
| dpcpp_reduce_kernel (seed : ReduceSeed).
    (* make_reduction ran, the reduction kernel was launched *)

Definition launches_reduce_kernel (o : MinMaxOutcome) : bool :=
  match o with dpcpp_reduce_kernel _ => true | _ => false end.

Definition raises_error (o : MinMaxOutcome) : bool :=
  match o with
  | wrap_dim_failed | check_failed _ | dispatch_failed => true
  | _ => false
  end.

Definition _min_out (self : Tensor) (dim_ : Z) (keepdim : bool) : MinMaxOutcome :=
  match maybe_wrap_dim dim_ (dim self) with
  | None => wrap_dim_failed
  | Some d =>
      if numel self =? 0 then
        zero_numel_tensor_resize d keepdim "min()"
      else if _dimreduce_return_trivial_no_ident self then
        if negb (is_complex self) then trivial_result 0
        else check_failed "min does not support complex inputs."
      else
        if dispatch_all_types_and3 (scalar_type self)
        then dpcpp_reduce_kernel seed_upper_bound_0
        else dispatch_failed
  end.

Definition _max_out (self : Tensor) (dim_ : Z) (keepdim : bool) : MinMaxOutcome :=
  match maybe_wrap_dim dim_ (dim self) with
  | None => wrap_dim_failed
  | Some d =>
      if numel self =? 0 then
        zero_numel_tensor_resize d keepdim "max()"
      else if _dimreduce_return_trivial_no_ident self then
        if negb (is_complex self) then trivial_result 0
        else check_failed "max does not support complex inputs."
      else
        if dispatch_all_types_and3 (scalar_type self)
        then dpcpp_reduce_kernel seed_lower_bound_0
        else dispatch_failed
  end.

(* ===================================================================== *)
(** * Part II: the softmax translation unit, host side                    *)
(* ===================================================================== *)

Definition SIMD16 : Z := 16.
Definition SIMD32 : Z := 32.
Definition MIN_WG_NUM : Z := 32768.

(** The device properties the host code queries. *)
Record Device : Type := mkDevice {
  dpcppMaxWorkGroupSize : Z;      (* dpcppMaxWorkGroupSize(dev_id) *)
  subgroup_sizes_1 : Z;           (* dev_prop->subgroup_sizes[1] *)
  dpcppMaxWorkItemsPerTile : Z    (* dpcppMaxWorkItemsPerTile(dev_id) *)
}.

(** The element types the softmax entry points dispatch on. *)
Inductive FloatingType : Type := Double | Float | Half | BFloat16.

Definition sizeof (t : FloatingType) : Z :=
  match t with Double => 8 | Float => 4 | Half => 2 | BFloat16 => 2 end.

(** [constexpr int float4_size = sizeof(float) * 4;] *)
Definition float4_size : Z := 4 * 4.
(** [constexpr int max_vec_size = float4_size / sizeof(scalar_t);] *)
Definition max_vec_size (t : FloatingType) : Z := Z.quot float4_size (sizeof t).

(** ** [get_wgroup_size<SIMD, vec_size, NUM>] *)

(** The five [int&] outputs.  [range], [global_size_row] and
    [local_size_row] are not written on every path; [None] is a variable the
    call left untouched. *)
Record wgroup : Type := mk_wgroup {
  sub_group_num : Z;
  range : option Z;
  global_size_row : Z;
  local_size_row : Z;
  local_size_col : Z
}.

(** [while ((global_size_row >> 1) > MIN_WG_NUM &&
           (local_size_row << 1) * local_size_col <= maxWGSize &&
           !(global_size_row % 2)) { ... }]
    The fuel is the number of iterations still allowed; [None] when it is
    used up before the loop condition fails. *)
Fixpoint wgroup_row_loop (fuel : nat) (maxWGSize local_size_col : Z)
         (global_size_row local_size_row : Z) : option (Z * Z) :=
  if (Z.shiftr global_size_row 1 >? MIN_WG_NUM)
     && (Z.shiftl local_size_row 1 * local_size_col <=? maxWGSize)
     && (Z.rem global_size_row 2 =? 0)
  then
    match fuel with
    | O => None
    | S fuel' =>
        wgroup_row_loop fuel' maxWGSize local_size_col
                        (Z.shiftr global_size_row 1) (Z.shiftl local_size_row 1)
    end
  else Some (global_size_row, local_size_row).

(** [range = SIMD; while (sub_group_num <= (range >> 1)) range = range >> 1;] *)
Fixpoint wgroup_range_loop (fuel : nat) (sub_group_num range : Z) : option Z :=
  if sub_group_num <=? Z.shiftr range 1
  then
    match fuel with
    | O => None
    | S fuel' => wgroup_range_loop fuel' sub_group_num (Z.shiftr range 1)
    end
  else Some range.

(** Both loops halve an [int]: 32 iterations are more than the loops can
    make on values of that type (see [wgroup_row_loop_terminates] and
    [wgroup_range_loop_terminates]). *)
Definition int_bits : nat := 32%nat.

Definition get_wgroup_size (SIMD vec_size NUM : Z) (maxWGSize : Z)
           (dim_size outer_size : Z) : option wgroup :=
  let local_size := Z.quot (dim_size + NUM * vec_size - 1) (NUM * vec_size) in
  let local_size := Z.min local_size maxWGSize in
  (* select the local_size_col to cover the dim_size *)
  let sub_group_num := Z.quot (local_size + SIMD - 1) SIMD in
  let local_size_col := sub_group_num * SIMD in
  (* if one workitem [NUM][vec_size] can cover the dim_size number of
     elements local_size_col will be 1 *)
  if dim_size <=? vec_size * NUM then
    let local_size_col := 1 in
    let local_size_row := SIMD in
    let global_size_row := Z.quot (outer_size + local_size_row - 1) local_size_row in
    Some (mk_wgroup sub_group_num None global_size_row local_size_row local_size_col)
  else
    (* if outer_size is too large and local_size_col is small, then use one
       workgroup to handle multi rows (dim_size) *)
    match wgroup_row_loop int_bits maxWGSize local_size_col outer_size 1 with
    | None => None
    | Some (global_size_row, local_size_row) =>
        (* compute the reduce range *)
        match wgroup_range_loop int_bits sub_group_num SIMD with
        | None => None
        | Some range =>
            Some (mk_wgroup sub_group_num (Some range)
                            global_size_row local_size_row local_size_col)
        end
    end.

(** ** [get_wgroup_size_spatial<vec_size>] *)

(** [while (bs * GroupRow * local_group_num * GroupSize <
            total_resource * vec_size) {
       GroupRow = GroupRow << 1;
       if (GroupRow * SIMD32 == maxWGSize) break; }] *)
Fixpoint wgroup_spatial_loop (fuel : nat) (bs local_group_num GroupSize : Z)
         (total_resource vec_size maxWGSize : Z) (GroupRow : Z) : option Z :=
  if bs * GroupRow * local_group_num * GroupSize <? total_resource * vec_size
  then
    match fuel with
    | O => None
    | S fuel' =>
        let GroupRow := Z.shiftl GroupRow 1 in
        if GroupRow * SIMD32 =? maxWGSize then Some GroupRow
        else wgroup_spatial_loop fuel' bs local_group_num GroupSize
                                 total_resource vec_size maxWGSize GroupRow
    end
  else Some GroupRow.

Definition get_wgroup_size_spatial (vec_size : Z) (dev : Device)
           (bs dim_size inner_size : Z) : option (Z * Z) :=
  let maxWGSize := dpcppMaxWorkGroupSize dev in
  let total_resource := dpcppMaxWorkItemsPerTile dev in
  let GroupSize := Z.quot (inner_size + vec_size - 1) vec_size in
  let GroupSize := Z.min GroupSize SIMD32 in
  let local_group_num := Z.quot (inner_size + GroupSize - 1) GroupSize in
  match wgroup_spatial_loop int_bits bs local_group_num GroupSize
                            total_resource vec_size maxWGSize 1 with
  | None => None
  | Some GroupRow => Some (GroupSize, Z.min GroupRow dim_size)
  end.

(** ** The forward dispatcher [SpatialSoftMaxForward] *)

Inductive IndexType : Type := uint32_t | uint64_t.

(** The kernel launchers with their template arguments. *)
Inductive ForwardLaunch : Type :=
| dispatch_softmax_forward_kernel (INNER_LOOP vec_size SIMD outer_loop : Z)
| softmax_forward_kernel (vec_size : Z) (index : IndexType)
| spatial_softmax_forward (vec_size : Z) (index : IndexType).

(** What the dispatchers derive from the tensors before choosing a kernel:
    [inner_size = input.stride(dim)], [dim_size = input.size(dim)],
    [outer_size = numel / (inner_size * dim_size)], the misalignment of the
    data pointers in elements, and [canUse32BitIndexMath]. *)
Record SoftmaxArgs : Type := mkSoftmaxArgs {
  inner_size : Z;
  dim_size : Z;
  outer_size : Z;
  input_start : Z;
  output_start : Z;
  can_use_32bit_index : bool
}.

(** [int SIMD = sub_group_size[1];
     if (SIMD == SIMD32) { if (dim_size < SIMD16 * width) SIMD = SIMD16; }] *)
Definition decide_SIMD (dev : Device) (dim_size width : Z) : Z :=
  let SIMD := subgroup_sizes_1 dev in
  if SIMD =? SIMD32 then
    if dim_size <? SIMD16 * width then SIMD16 else SIMD
  else SIMD.

(** The selection of [vec_size], [SIMD] and [outer_loop] inside the
    register-resident branch; shared verbatim by [SpatialSoftMaxForward],
    [MaskedSoftMaxForward] and [add_view_softmax_impl]. *)
Definition forward_fast_path (t : FloatingType) (SIMD : Z) (a : SoftmaxArgs)
  : Z * Z * Z (* vec_size, SIMD, outer_loop *) :=
  let max_vec_size := max_vec_size t in
  let INNER_LOOP := max_vec_size * 2 in
  let aligned := (input_start a =? 0) && (output_start a =? 0)
                 && (Z.rem (dim_size a) max_vec_size =? 0) in
  if SIMD =? SIMD32 then
    (* Ensure input/output tensor are aligned with max_vec_size *)
    if aligned then (max_vec_size, SIMD32, Z.quot INNER_LOOP max_vec_size)
    else (1, SIMD32, INNER_LOOP)
  else
    if aligned then
      if (max_vec_size >=? 4) && (dim_size a <=? 4 * SIMD) then
        (* take smaller vec_size and 1 outer_loop *)
        (4, SIMD16, 1)
      else if dim_size a <=? max_vec_size * SIMD then
        (max_vec_size, SIMD16, 1)
      else
        (* if the SIMD = SIMD16, then outer_loop will be enlarged 2x *)
        (max_vec_size, SIMD16, Z.quot INNER_LOOP max_vec_size * 2)
    else (1, SIMD16, INNER_LOOP * 2).

Definition SpatialSoftMaxForward (t : FloatingType) (dev : Device)
           (a : SoftmaxArgs) : ForwardLaunch :=
  let max_vec_size := max_vec_size t in
  let INNER_LOOP := max_vec_size * 2 in
  let SIMD := decide_SIMD dev (dim_size a) INNER_LOOP in
  if inner_size a =? 1 then
    let max_group_size := dpcppMaxWorkGroupSize dev in
    if can_use_32bit_index a && (max_group_size * INNER_LOOP >=? dim_size a) then
      let '(vec_size, SIMD, outer_loop) := forward_fast_path t SIMD a in
      dispatch_softmax_forward_kernel INNER_LOOP vec_size SIMD outer_loop
    else
      if can_use_32bit_index a then
        if input_start a =? output_start a
        then softmax_forward_kernel max_vec_size uint32_t
        else softmax_forward_kernel 1 uint32_t
      else
        if input_start a =? output_start a
        then softmax_forward_kernel max_vec_size uint64_t
        else softmax_forward_kernel 1 uint64_t
  else
    if can_use_32bit_index a then
      if (input_start a =? output_start a)
         && (Z.rem (inner_size a) max_vec_size =? 0)
      then spatial_softmax_forward max_vec_size uint32_t
      else spatial_softmax_forward 1 uint32_t
    else
      if (input_start a =? output_start a)
         && (Z.rem (inner_size a) max_vec_size =? 0)
      then spatial_softmax_forward max_vec_size uint64_t
      else spatial_softmax_forward 1 uint64_t.

(** The three strategies of the forward dispatcher. *)
Inductive Strategy : Type := register_resident | streaming | spatial.

Definition strategy_of (l : ForwardLaunch) : Strategy :=
  match l with
  | dispatch_softmax_forward_kernel _ _ _ _ => register_resident
  | softmax_forward_kernel _ _ => streaming
  | spatial_softmax_forward _ _ => spatial
  end.

(** The launch parameters of the register-resident kernel:
    [dispatch_softmax_forward_kernel] calls
    [get_wgroup_size<SIMD, vec_size, outer_loop>(dim_size, outer_size, ...)]. *)
Definition forward_launch_wgroup (dev : Device) (a : SoftmaxArgs)
           (l : ForwardLaunch) : option wgroup :=
  match l with
  | dispatch_softmax_forward_kernel _ vec_size SIMD outer_loop =>
      get_wgroup_size SIMD vec_size outer_loop (dpcppMaxWorkGroupSize dev)
                      (dim_size a) (outer_size a)
  | _ => None
  end.

(** ** The backward dispatcher [SpatialSoftMaxBackward] *)

Inductive BackwardLaunch : Type :=
| dispatch_softmax_backward_kernel (INNER_LOOP vec_size SIMD : Z)
| softmax_backward_kernel (vec_size : Z)
| spatial_softmax_backward_kernel (vec_size : Z).

Record SoftmaxBackwardArgs : Type := mkSoftmaxBackwardArgs {
  bw_inner_size : Z;
  bw_dim_size : Z;
  bw_outer_size : Z;
  gradin_start : Z;
  bw_output_start : Z;
  gradoutput_start : Z;
  bw_can_use_32bit_index : bool
}.

(** [constexpr int NUM = INNER_LOOP / vec_size * (SIMD32 / SIMD);] in
    [dispatch_softmax_backward_kernel]. *)
Definition backward_NUM (INNER_LOOP vec_size SIMD : Z) : Z :=
  Z.quot INNER_LOOP vec_size * Z.quot SIMD32 SIMD.

Definition backward_fast_path (t : FloatingType) (SIMD : Z)
           (a : SoftmaxBackwardArgs) : Z * Z (* vec_size, SIMD *) :=
  let max_vec_size := max_vec_size t in
  let aligned := (gradin_start a =? 0) && (bw_output_start a =? 0)
                 && (gradoutput_start a =? 0)
                 && (Z.rem (bw_dim_size a) max_vec_size =? 0) in
  if SIMD =? SIMD32 then
    if aligned then (max_vec_size, SIMD32) else (1, SIMD32)
  else
    if aligned then (max_vec_size, SIMD16) else (1, SIMD16).

Definition SpatialSoftMaxBackward (t : FloatingType) (dev : Device)
           (a : SoftmaxBackwardArgs) : BackwardLaunch :=
  let max_vec_size := max_vec_size t in
  let INNER_LOOP := max_vec_size in
  let SIMD := decide_SIMD dev (bw_dim_size a) max_vec_size in
  let same_start := (gradin_start a =? bw_output_start a)
                    && (gradin_start a =? gradoutput_start a) in
  if bw_inner_size a =? 1 then
    let max_group_size := dpcppMaxWorkGroupSize dev in
    if bw_can_use_32bit_index a
       && (max_group_size * INNER_LOOP >=? bw_dim_size a) then
      let '(vec_size, SIMD) := backward_fast_path t SIMD a in
      dispatch_softmax_backward_kernel INNER_LOOP vec_size SIMD
    else
      if same_start then softmax_backward_kernel max_vec_size
      else softmax_backward_kernel 1
  else
    if same_start && (Z.rem (bw_inner_size a) max_vec_size =? 0)
    then spatial_softmax_backward_kernel max_vec_size
    else spatial_softmax_backward_kernel 1.

(** ** Fused add + softmax *)

(** The loop of [shape_use_fused_path]:
    [for (int i = 1; i <= b_dim; i++)
       if (input_size[a_dim - i] % other_size[b_dim - i] != 0) return false;]
    [n] counts the iterations left.  The integer remainder by zero is
    undefined in C++: the model answers [None] there. *)
Fixpoint fused_shape_loop (n : nat) (i : Z) (input_size other_size : list Z)
         (a_dim b_dim : Z) : option bool :=
  match n with
  | O => Some true
  | S n' =>
      let divisor := nth (Z.to_nat (b_dim - i)) other_size 0 in
      if divisor =? 0 then None
      else if negb (Z.rem (nth (Z.to_nat (a_dim - i)) input_size 0) divisor =? 0)
      then Some false
      else fused_shape_loop n' (i + 1) input_size other_size a_dim b_dim
  end.

Definition shape_use_fused_path (input other : Tensor) : option bool :=
  if sizes_eqb (sizes input) (sizes other) then Some true
  else
    let a_dim := dim input in
    let b_dim := dim other in
    if b_dim >? a_dim then Some false
    else
      (* loop for the smaller shape from end *)
      fused_shape_loop (Z.to_nat b_dim) 1 (sizes input) (sizes other) a_dim b_dim.


Inductive AddSoftmaxOutcome : Type :=
| unfused_softmax_of_add
    (* return at::softmax(at::add(input, other, alpha), dim, dtype); *)
| add_softmax_dispatch_failed
    (* IPEX_DISPATCH_FLOATING_TYPES_AND2 rejected the element type *)
| dispatch_softmax_forward_add_kernel (INNER_LOOP vec_size SIMD outer_loop : Z)
    (* the fused kernel *)
| add_then_softmax_out.
    (* Tensor add_out = at::add(input, other, alpha).view(sizes);
       return at::softmax_out(output, add_out, dim); *)


Definition add_view_softmax_impl (t : FloatingType) (dev : Device)
           (a : SoftmaxArgs) : AddSoftmaxOutcome :=
  let max_vec_size := max_vec_size t in
  let INNER_LOOP := max_vec_size * 2 in
  let max_group_size := dpcppMaxWorkGroupSize dev in
  let fuse_pattern :=
    (inner_size a =? 1) && can_use_32bit_index a
    && (max_group_size * INNER_LOOP >=? dim_size a) in
  if fuse_pattern then
    let SIMD := decide_SIMD dev (dim_size a) INNER_LOOP in
    let '(vec_size, SIMD, outer_loop) := forward_fast_path t SIMD a in
    dispatch_softmax_forward_add_kernel INNER_LOOP vec_size SIMD outer_loop
  else add_then_softmax_out.


(** ** Masked softmax entry points *)

Inductive MaskedForwardOutcome : Type :=
| masked_forward_check_failed (msg : string)
| masked_forward_dispatch_failed
| MaskedSoftMaxForward (input_sizes mask_sizes : list Z) (dim : Z).
    (* impl::MaskedSoftMaxForward<scalar_t, accscalar_t, false>(output, input,
       dim, mask) with the sizes of [input] and of the mask view passed *)

Definition _masked_softmax (input_ mask_ : Tensor) (dim_ mask_type_ : option Z)
  : MaskedForwardOutcome :=
  if negb (ScalarType_eqb (scalar_type mask_) kBool) then
    masked_forward_check_failed "Mask should be a boolean tensor"
  else
    match mask_type_ with
    | None => masked_forward_check_failed "Mask Type should be defined"
    | Some mask_type =>
        if negb ((mask_type =? 0) || (mask_type =? 1) || (mask_type =? 2)) then
          masked_forward_check_failed
            "Mask Type should be 0 (src_mask), 1 (src_key_padding_mask), or 2 (default_mask)"
        else
          (* If input is [B, H, T, T] and mask is [B, T] we have special fast
             kernel; mask_type == 1 => mask_ is a src_key_padding_mask *)
          let is_BxT_mask :=
            (mask_type =? 1)
            && ((dim input_ =? 4) && (dim mask_ =? 2)
                && (size input_ 0 =? size mask_ 0)
                && (size input_ 2 =? size mask_ 1)
                && (size input_ 3 =? size mask_ 1)) in
          (* If input is [B, H, T, T] and mask is [T, T]; mask_type == 0 =>
             mask_ is a src_mask *)
          let is_TxT_mask :=
            (mask_type =? 0) && (dim input_ =? 4) && (dim mask_ =? 2)
            && (size input_ 3 =? size mask_ 1)
            && (size input_ 2 =? size mask_ 0)
            && (size mask_ 0 =? size mask_ 1) in
          if negb (sizes_eqb (sizes mask_) (sizes input_)
                   || is_BxT_mask || is_TxT_mask) then
            masked_forward_check_failed "Mask shape should match input. mask: "
          else
            let input := view1_if_scalar input_ in
            let mask := view1_if_scalar mask_ in
            let dim :=
              match dim_ with Some d => d | None => dim input - 1 end in
            let mask :=
              if is_BxT_mask
              then mkTensor [size mask_ 0; 1; 1; size mask_ 1] (scalar_type mask)
              else mask in
            if dispatch_floating_types_and2 (scalar_type input)
            then MaskedSoftMaxForward (sizes input) (sizes mask) dim
            else masked_forward_dispatch_failed
    end.

Inductive MaskedBackwardOutcome : Type :=
| return_grad_input_untouched
    (* if (grad_.numel() == 0) return grad_input; *)
| masked_backward_wrap_dim_failed
| masked_backward_check_failed (msg : string)
| masked_backward_dispatch_failed
| MaskedSoftMaxBackward (grad_sizes mask_sizes : list Z) (dim : Z).
    (* impl::MaskedSoftMaxBackward<scalar_t, accscalar_t, false>(grad_input,
       output, grad, mask, dim) *)

Definition _masked_softmax_backward (grad_ output_ mask_ : Tensor)
           (dim_ : option Z) : MaskedBackwardOutcome :=
  if numel grad_ =? 0 then return_grad_input_untouched
  else
    let wrapped :=
      match dim_ with
      | Some d => maybe_wrap_dim d (dim output_)
      | None => Some (dim output_ - 1)
      end in
    match wrapped with
    | None => masked_backward_wrap_dim_failed
    | Some dim_v =>
        let grad := view1_if_scalar grad_ in
        let mask := view1_if_scalar mask_ in
        if negb ((dim_v >=? 0) && (dim_v <? dim grad)) then
          masked_backward_check_failed
            "dim must be non-negative and less than input dimensions"
        else if negb (sizes_eqb (sizes grad) (sizes mask)) then
          masked_backward_check_failed "Mask shape should match grad shape"
        else if negb (ScalarType_eqb (scalar_type mask) kBool) then
          masked_backward_check_failed "Mask should be a boolean tensor"
        else if dispatch_floating_types_and2 (scalar_type grad_)
        then MaskedSoftMaxBackward (sizes grad) (sizes mask) dim_v
        else masked_backward_dispatch_failed
    end.

(** The bodies of [impl::MaskedSoftMaxForward] and
    [impl::MaskedSoftMaxBackward]: the register-resident masked kernel under
    the fast-path condition, otherwise a masked fill followed by the plain
    operator. *)
Inductive MaskedLaunch : Type :=
| masked_dispatch_softmax_forward_kernel (INNER_LOOP vec_size SIMD outer_loop : Z)
| masked_fill_then_softmax_out
    (* at::softmax_out(output, input.masked_fill(mask_expand, -inf), dim) *)
| masked_dispatch_softmax_backward_kernel (INNER_LOOP vec_size SIMD : Z)
| masked_fill_then_softmax_backward_data_out.
    (* at::_softmax_backward_data_out(gradInput, gradOutput,
       output.masked_fill(mask, 0), dim, gradOutput.scalar_type()) *)

Definition MaskedSoftMaxForward_launch (t : FloatingType) (dev : Device)
           (a : SoftmaxArgs) : MaskedLaunch :=
  let max_vec_size := max_vec_size t in
  let INNER_LOOP := max_vec_size * 2 in
  let SIMD := decide_SIMD dev (dim_size a) INNER_LOOP in
  let max_group_size := dpcppMaxWorkGroupSize dev in
  if (inner_size a =? 1) && can_use_32bit_index a
     && (max_group_size * INNER_LOOP >=? dim_size a) then
    let '(vec_size, SIMD, outer_loop) := forward_fast_path t SIMD a in
    masked_dispatch_softmax_forward_kernel INNER_LOOP vec_size SIMD outer_loop
  else masked_fill_then_softmax_out.

Definition MaskedSoftMaxBackward_launch (t : FloatingType) (dev : Device)
           (a : SoftmaxBackwardArgs) : MaskedLaunch :=
  let max_vec_size := max_vec_size t in
  let INNER_LOOP := max_vec_size in
  let SIMD := decide_SIMD dev (bw_dim_size a) max_vec_size in
  let max_group_size := dpcppMaxWorkGroupSize dev in
  if (bw_inner_size a =? 1) && bw_can_use_32bit_index a
     && (max_group_size * INNER_LOOP >=? bw_dim_size a) then
    let '(vec_size, SIMD) := backward_fast_path t SIMD a in
    masked_dispatch_softmax_backward_kernel INNER_LOOP vec_size SIMD
  else masked_fill_then_softmax_backward_data_out.

Definition masked_backward_accepts (o : MaskedBackwardOutcome) : bool :=
  match o with MaskedSoftMaxBackward _ _ _ => true | _ => false end.

Definition masked_backward_raises (o : MaskedBackwardOutcome) : bool :=
  match o with
  | masked_backward_wrap_dim_failed | masked_backward_check_failed _
  | masked_backward_dispatch_failed => true
  | _ => false
  end.

Definition masked_forward_accepts (o : MaskedForwardOutcome) : bool :=
  match o with MaskedSoftMaxForward _ _ _ => true | _ => false end.

(* ===================================================================== *)
(** * Part III: the softmax kernels                                       *)
(* ===================================================================== *)

Local Open Scope nat_scope.

(** ** Arithmetic of the kernels

    The kernels are templates over the storage type [scalar_t] and the
    accumulation type [accscalar_t = acc_type<scalar_t>].  The C++ operators
    on them and the members of [Numerics<accscalar_t>] (comm/Numerics.h, not
    among the sources) are taken as an interface. *)
Class SoftmaxNumerics (scalar_t accscalar_t : Type) : Type := {
  to_acc : scalar_t -> accscalar_t;          (* accscalar_t(x), and the promotion
                                                in mixed expressions *)
  to_scalar : accscalar_t -> scalar_t;       (* static_cast<scalar_t>(x) *)
  acc_add : accscalar_t -> accscalar_t -> accscalar_t;
  acc_sub : accscalar_t -> accscalar_t -> accscalar_t;
  acc_mul : accscalar_t -> accscalar_t -> accscalar_t;
  acc_div : accscalar_t -> accscalar_t -> accscalar_t;
  sc_mul : scalar_t -> scalar_t -> scalar_t; (* product of two stored values *)
  acc_exp : accscalar_t -> accscalar_t;      (* Numerics<accscalar_t>::exp *)
  acc_log : accscalar_t -> accscalar_t;      (* Numerics<accscalar_t>::log *)
  acc_max : accscalar_t -> accscalar_t -> accscalar_t;
                                             (* Numerics<accscalar_t>::max *)
  sycl_maximum : accscalar_t -> accscalar_t -> accscalar_t;
                                             (* sycl::maximum<accscalar_t>() *)
  acc_zero : accscalar_t;                    (* accscalar_t(0) *)
  acc_one : accscalar_t;                     (* accscalar_t(1) *)
  acc_lowest : accscalar_t;                  (* numeric_limits<accscalar_t>::lowest() *)
  acc_eq_zero : accscalar_t -> bool;         (* x == 0 *)
  sc_zero : scalar_t;                        (* scalar_t(0) *)
  sc_neginf : scalar_t;                      (* -numeric_limits<scalar_t>::infinity() *)
  sc_nan : scalar_t                          (* numeric_limits<accscalar_t>::quiet_NaN()
                                                stored as scalar_t *)
}.

(** ** Cooperative reductions *)

(** Modelled from the spec: [group_reduce] combines the values of the work
    items of one row with sub-group shuffles and a shared-memory pass; the
    shuffles and barriers are SYCL primitives outside this embedding.  The
    spec gives its contract: a pure combine of the per-work-item values with
    the binary operator and its identity value, broadcast to all of them. *)
Definition group_reduce {A : Type} (bin_op : A -> A -> A) (init : A)
           (vals : list A) : A :=
  fold_left bin_op vals init.

(** Modelled from the spec: [sycl::reduce_over_group], the hardware
    cooperative reduce of the streaming kernels, over the values of the work
    items of the group (at least one). *)
Definition reduce_over_group {A : Type} (bin_op : A -> A -> A)
           (val0 : A) (others : list A) : A :=
  fold_left bin_op others val0.

(** [group_reduce_spatial] for one inner offset and one vector lane: [data]
    holds the values of the [block_row] row workers.  One pass of the loop
    body, executed by all row workers between two barriers: *)
Definition group_reduce_spatial_step {A : Type} (bin_op : A -> A -> A)
           (default : A) (block_row k : nat) (data : list A) : list A :=
  map (fun local_row_id =>
         if (local_row_id mod (2 * k) =? 0) && (local_row_id + k <? block_row)
         then bin_op (nth local_row_id data default)
                     (nth (local_row_id + k) data default)
         else nth local_row_id data default)
      (seq 0 block_row).

(** [int k = 1; while (k < block_row) { ...; k *= 2; barrier; }] *)
Fixpoint group_reduce_spatial_loop {A : Type} (fuel : nat)
         (bin_op : A -> A -> A) (default : A) (block_row k : nat)
         (data : list A) : list A :=
  match fuel with
  | O => data
  | S fuel' =>
      if k <? block_row then
        group_reduce_spatial_loop
          fuel' bin_op default block_row (2 * k)
          (group_reduce_spatial_step bin_op default block_row k data)
      else data
  end.

(** The callers read [local_data[0][local_col_id][j]] afterwards.  [k]
    doubles from 1, so [block_row] iterations are never used up (see
    [group_reduce_spatial_loop_fuel]). *)
Definition group_reduce_spatial {A : Type} (bin_op : A -> A -> A)
           (default : A) (block_row : nat) (input : list A) : A :=
  nth 0 (group_reduce_spatial_loop block_row bin_op default block_row 1 input)
      default.

(** ** Loop shapes *)

(** [for (i = first; i < stop; i += step)]: the values [i] takes. *)
Definition strided (first step stop : nat) : list nat :=
  map (fun t => first + t * step)
      (seq 0 ((stop - first + step - 1) / step)).

(** [for (i = 0; i < n; ++i) { index = f(i); if (index >= dim_size) break; ... }]:
    the values [index] takes. *)
Fixpoint until_break (dim_size : nat) (indices : list nat) : list nat :=
  match indices with
  | [] => []
  | index :: rest =>
      if dim_size <=? index then [] else index :: until_break dim_size rest
  end.

(** [for (j = 0; j < vec_size; ++j)] over the lanes of the vector loaded at
    [index]. *)
Definition vector_lanes (vec_size index : nat) : list nat :=
  map (fun j => index + j) (seq 0 vec_size).

(** The memory after a kernel wrote [writes] (position, value) into it. *)
Definition apply_writes {A : Type} (writes : list (nat * A)) (old : nat -> A)
  : nat -> A :=
  fun p =>
    match find (fun w => fst w =? p) writes with
    | Some w => snd w
    | None => old p
    end.

(** ** Tier 1: the register-resident kernels

    One row of [dim_size] elements is handled by the [local_size] work items
    [lid_col = 0 .. local_size - 1] of one row of the work group.  [in_data],
    [output], [gradOutput] are the row viewed from [group_offset]; [mask_data]
    is the mask as the offset calculator presents it at the positions of the
    row. *)
Section DispatchSoftmaxForwardKernelFunctor.
Context {scalar_t accscalar_t : Type} `{SoftmaxNumerics scalar_t accscalar_t}.
Variables (vec_size outer_loop : nat) (LogSoftMax is_masked : bool).
Variables (dim_size local_size : nat).
Variables (in_data : nat -> scalar_t) (mask_data : nat -> bool).

(** [auto index = i * local_stride + lid_offset;] with
    [lid_offset = lid_col * vec_size], [local_stride = local_size * vec_size]. *)
Definition fwd_vector_index (lid_col i : nat) : nat :=
  i * (local_size * vec_size) + lid_col * vec_size.

(** The positions a work item loads into [reg_in], in loop order. *)
Definition fwd_positions (lid_col : nat) : list nat :=
  flat_map (vector_lanes vec_size)
           (until_break dim_size
              (map (fwd_vector_index lid_col) (seq 0 outer_loop))).

(** [reg_in[i][j]] after the load and the masking. *)
Definition fwd_reg_in (p : nat) : scalar_t :=
  if is_masked && mask_data p then sc_neginf else in_data p.

(** load data and get max value *)
Definition fwd_thread_max (lid_col : nat) : accscalar_t :=
  fold_left (fun max_value p => acc_max max_value (to_acc (fwd_reg_in p)))
            (fwd_positions lid_col) acc_lowest.

Definition fwd_max_value : accscalar_t :=
  if 1 <? local_size then
    group_reduce acc_max acc_lowest (map fwd_thread_max (seq 0 local_size))
  else fwd_thread_max 0.

(** get sum value *)
Definition fwd_thread_sum (lid_col : nat) : accscalar_t :=
  fold_left (fun sum_value p =>
               acc_add sum_value
                       (acc_exp (acc_sub (to_acc (fwd_reg_in p)) fwd_max_value)))
            (fwd_positions lid_col) acc_zero.

(** The sum of exponentials of the row, after the group reduction. *)
Definition fwd_sum_reduced : accscalar_t :=
  if 1 <? local_size then
    group_reduce acc_add acc_zero (map fwd_thread_sum (seq 0 local_size))
  else fwd_thread_sum 0.

(** [if constexpr (LogSoftMax) sum_value = log(sum_value);
     else if (sum_value != 0) sum_value = accscalar_t(1) / sum_value;] *)
Definition fwd_sum_value : accscalar_t :=
  if LogSoftMax then acc_log fwd_sum_reduced
  else if negb (acc_eq_zero fwd_sum_reduced)
       then acc_div acc_one fwd_sum_reduced
       else fwd_sum_reduced.

(** update result *)
Definition fwd_update (x : scalar_t) : scalar_t :=
  if LogSoftMax then
    to_scalar (acc_sub (acc_sub (to_acc x) fwd_max_value) fwd_sum_value)
  else if acc_eq_zero fwd_sum_value then sc_nan
  else to_scalar (acc_mul (acc_exp (acc_sub (to_acc x) fwd_max_value))
                          fwd_sum_value).

Definition fwd_thread_writes (lid_col : nat) : list (nat * scalar_t) :=
  map (fun p => (p, fwd_update (fwd_reg_in p))) (fwd_positions lid_col).

(** Everything the work items of the row store to [out_data]. *)
Definition DispatchSoftmaxForwardKernelFunctor : list (nat * scalar_t) :=
  flat_map fwd_thread_writes (seq 0 local_size).
End DispatchSoftmaxForwardKernelFunctor.

Section DispatchSoftmaxBackwardKernelFunctor.
Context {scalar_t accscalar_t : Type} `{SoftmaxNumerics scalar_t accscalar_t}.
Variables (vec_size NUM : nat) (LogSoftMax is_masked : bool).
Variables (dim_size local_size : nat).
Variables (output gradOutput : nat -> scalar_t) (mask_data : nat -> bool).

(** [auto index = (lid_col + i * local_size) * vec_size;] *)
Definition bwd_vector_index (lid_col i : nat) : nat :=
  (lid_col + i * local_size) * vec_size.

Definition bwd_positions (lid_col : nat) : list nat :=
  flat_map (vector_lanes vec_size)
           (until_break dim_size
              (map (bwd_vector_index lid_col) (seq 0 NUM))).

(** [reg_out[i][j]]: the stored output, zeroed where the mask is set. *)
Definition bwd_reg_out (p : nat) : scalar_t :=
  if is_masked && mask_data p then sc_zero else output p.

(** The term a position adds to [sum_value]. *)
Definition bwd_term (p : nat) : accscalar_t :=
  if LogSoftMax then to_acc (gradOutput p)
  else to_acc (sc_mul (bwd_reg_out p) (gradOutput p)).

Definition bwd_thread_sum (lid_col : nat) : accscalar_t :=
  fold_left (fun sum_value p => acc_add sum_value (bwd_term p))
            (bwd_positions lid_col) acc_zero.

Definition bwd_sum_value : accscalar_t :=
  if 1 <? local_size then
    group_reduce acc_add acc_zero (map bwd_thread_sum (seq 0 local_size))
  else bwd_thread_sum 0.

(** update result *)
Definition bwd_update (sum_value : accscalar_t) (out grad : scalar_t)
  : scalar_t :=
  if LogSoftMax then
    to_scalar (acc_sub (to_acc grad) (acc_mul (acc_exp (to_acc out)) sum_value))
  else
    to_scalar (acc_mul (to_acc out) (acc_sub (to_acc grad) sum_value)).

Definition bwd_thread_writes (lid_col : nat) : list (nat * scalar_t) :=
  map (fun p => (p, bwd_update bwd_sum_value (bwd_reg_out p) (gradOutput p)))
      (bwd_positions lid_col).

(** Everything the work items of the row store to [gradInput]. *)
Definition DispatchSoftmaxBackwardKernelFunctor : list (nat * scalar_t) :=
  flat_map bwd_thread_writes (seq 0 local_size).
End DispatchSoftmaxBackwardKernelFunctor.

(** ** Tier 2: the streaming kernels

    One work group of [local_size] work items per row.  [start] is the
    misalignment of the row in elements; vector [i] holds the positions
    [i * vec_size + j - start] of the row, of which those in
    [0, dim_size) are used. *)
Section StreamingKernels.
Context {scalar_t accscalar_t : Type} `{SoftmaxNumerics scalar_t accscalar_t}.
Variables (vec_size start local_size dim_size : nat) (LogSoftMax : bool).

(** [loops_end = (dim_size + start + vec_size - 1) / vec_size] *)
Definition loops_end : nat := (dim_size + start + vec_size - 1) / vec_size.

(** [linear_idx = i * vec_size + j - start;
     if (linear_idx >= 0 && linear_idx < dim_size)] *)
Definition lane_in_row (i j : nat) : bool :=
  (start <=? i * vec_size + j) && (i * vec_size + j - start <? dim_size).

(** The positions of vector [i] that pass the guard, in lane order. *)
Definition guarded_lanes (i : nat) : list nat :=
  flat_map (fun j => if lane_in_row i j then [i * vec_size + j - start] else [])
           (seq 0 vec_size).

(** The positions a work item visits in each of its three passes. *)
Definition stream_positions (local_id : nat) : list nat :=
  flat_map guarded_lanes (strided local_id local_size loops_end).

(** The head and tail test of the update pass:
    [(start > 0 && i == 0) || (remaining < vec_size)] with
    [remaining = dim_size + start - i * vec_size]. *)
Definition head_or_tail (i : nat) : bool :=
  ((0 <? start) && (i =? 0)) || (dim_size + start - i * vec_size <? vec_size).

(** The positions vector [i] writes: guarded lane by lane at the head and the
    tail, the whole vector otherwise. *)
Definition update_lanes (i : nat) : list nat :=
  if head_or_tail i then guarded_lanes i
  else map (fun j => i * vec_size + j - start) (seq 0 vec_size).

Definition stream_update_positions (local_id : nat) : list nat :=
  flat_map update_lanes (strided local_id local_size loops_end).

Section SoftmaxForwardKernelFunctor.
Variable in_data : nat -> scalar_t.

(** get max value *)
Definition stream_thread_max (local_id : nat) : accscalar_t :=
  fold_left (fun max_value p => acc_max (to_acc (in_data p)) max_value)
            (stream_positions local_id) acc_lowest.

Definition stream_max_value : accscalar_t :=
  reduce_over_group sycl_maximum (stream_thread_max 0)
                    (map stream_thread_max (seq 1 (local_size - 1))).

(** get sum value *)
Definition stream_thread_sum (local_id : nat) : accscalar_t :=
  fold_left (fun sum_value p =>
               acc_add sum_value
                       (acc_exp (acc_sub (to_acc (in_data p)) stream_max_value)))
            (stream_positions local_id) acc_zero.

Definition stream_sum_reduced : accscalar_t :=
  reduce_over_group acc_add (stream_thread_sum 0)
                    (map stream_thread_sum (seq 1 (local_size - 1))).

(** [if (LogSoftMax) sum_value = log(sum_value);
     else sum_value = accscalar_t(1) / sum_value;] *)
Definition stream_sum_value : accscalar_t :=
  if LogSoftMax then acc_log stream_sum_reduced
  else acc_div acc_one stream_sum_reduced.

(** update result: the same expression in the guarded and in the vector
    branch. *)
Definition stream_update (x : scalar_t) : scalar_t :=
  if LogSoftMax then
    to_scalar (acc_sub (acc_sub (to_acc x) stream_max_value) stream_sum_value)
  else
    to_scalar (acc_mul (acc_exp (acc_sub (to_acc x) stream_max_value))
                       stream_sum_value).

Definition stream_thread_writes (local_id : nat) : list (nat * scalar_t) :=
  map (fun p => (p, stream_update (in_data p)))
      (stream_update_positions local_id).

Definition SoftmaxForwardKernelFunctor : list (nat * scalar_t) :=
  flat_map stream_thread_writes (seq 0 local_size).
End SoftmaxForwardKernelFunctor.

Section SoftmaxBackwardKernelFunctor.
Variables output gradOutput : nat -> scalar_t.

Definition stream_bwd_term (p : nat) : accscalar_t :=
  if LogSoftMax then to_acc (gradOutput p)
  else to_acc (sc_mul (output p) (gradOutput p)).

(** get sum value *)
Definition stream_bwd_thread_sum (local_id : nat) : accscalar_t :=
  fold_left (fun sum_value p => acc_add sum_value (stream_bwd_term p))
            (stream_positions local_id) acc_zero.

Definition stream_bwd_sum_value : accscalar_t :=
  reduce_over_group acc_add (stream_bwd_thread_sum 0)
                    (map stream_bwd_thread_sum (seq 1 (local_size - 1))).

(** update result *)
Definition stream_bwd_update (out grad : scalar_t) : scalar_t :=
  if LogSoftMax then
    to_scalar (acc_sub (to_acc grad)
                       (acc_mul (acc_exp (to_acc out)) stream_bwd_sum_value))
  else
    to_scalar (acc_mul (to_acc out)
                       (acc_sub (to_acc grad) stream_bwd_sum_value)).

Definition stream_bwd_thread_writes (local_id : nat) : list (nat * scalar_t) :=
  map (fun p => (p, stream_bwd_update (output p) (gradOutput p)))
      (stream_update_positions local_id).

Definition SoftmaxBackwardKernelFunctor : list (nat * scalar_t) :=
  flat_map stream_bwd_thread_writes (seq 0 local_size).
End SoftmaxBackwardKernelFunctor.
End StreamingKernels.

(** ** Tier 3: the spatial kernels

    One batch entry is a slab of [dim_size * inner_size] elements; the
    element of row [i] and inner offset [c] is at [i * inner_size + c].  The
    work item [(local_row_id, global_col)] handles the [vec_size] inner
    offsets [global_col * vec_size + j] and the rows
    [local_row_id, local_row_id + block_row, ...]; [global_cols] is the
    extent [group_num * local_size] of the third dimension of the range. *)
Section SpatialKernels.
Context {scalar_t accscalar_t : Type} `{SoftmaxNumerics scalar_t accscalar_t}.
Variables (vec_size dim_size inner_size block_row global_cols : nat).
Variable LogSoftMax : bool.

(** [offset = i * inner_size + global_col * vec_size], lane [j]. *)
Definition spatial_offset (i global_col j : nat) : nat :=
  i * inner_size + global_col * vec_size + j.

(** [for (int i = local_row_id; i < dim_size; i += block_row)] *)
Definition spatial_rows (local_row_id : nat) : list nat :=
  strided local_row_id block_row dim_size.

(** [for (int i = local_row_id + block_row; i < dim_size; i += block_row)] *)
Definition spatial_rows_after (local_row_id : nat) : list nat :=
  strided (local_row_id + block_row) block_row dim_size.

(** The update pass of one work item: taken only [if (global_col * vec_size <
    inner_size)]. *)
Definition spatial_update_offsets (local_row_id global_col : nat) : list nat :=
  if global_col * vec_size <? inner_size then
    flat_map (fun i => map (spatial_offset i global_col) (seq 0 vec_size))
             (spatial_rows local_row_id)
  else [].

Section SpatialSoftmaxForwardKernelFunctor.
Variable in_data : nat -> scalar_t.

(** get max value: seeded with the element of row [local_row_id]. *)
Definition spatial_thread_max (global_col j local_row_id : nat) : accscalar_t :=
  fold_left
    (fun max_value i =>
       acc_max max_value (to_acc (in_data (spatial_offset i global_col j))))
    (spatial_rows_after local_row_id)
    (to_acc (in_data (spatial_offset local_row_id global_col j))).

Definition spatial_max_value (global_col j : nat) : accscalar_t :=
  if 1 <? block_row then
    group_reduce_spatial acc_max acc_zero block_row
                         (map (spatial_thread_max global_col j) (seq 0 block_row))
  else spatial_thread_max global_col j 0.

(** get sum value *)
Definition spatial_exp_term (global_col j i : nat) : accscalar_t :=
  acc_exp (acc_sub (to_acc (in_data (spatial_offset i global_col j)))
                   (spatial_max_value global_col j)).

Definition spatial_thread_sum (global_col j local_row_id : nat) : accscalar_t :=
  fold_left (fun sum_value i => acc_add sum_value (spatial_exp_term global_col j i))
            (spatial_rows_after local_row_id)
            (spatial_exp_term global_col j local_row_id).

Definition spatial_sum_reduced (global_col j : nat) : accscalar_t :=
  if 1 <? block_row then
    group_reduce_spatial acc_add acc_zero block_row
                         (map (spatial_thread_sum global_col j) (seq 0 block_row))
  else spatial_thread_sum global_col j 0.

(** [log(...)] or [accscalar_t(1) / ...] of the reduced sum, in both
    branches of [if (block_row > 1)]. *)
Definition spatial_sum_value (global_col j : nat) : accscalar_t :=
  if LogSoftMax then acc_log (spatial_sum_reduced global_col j)
  else acc_div acc_one (spatial_sum_reduced global_col j).

(** update result *)
Definition spatial_update (global_col j : nat) (x : scalar_t) : scalar_t :=
  if LogSoftMax then
    to_scalar (acc_sub (acc_sub (to_acc x) (spatial_max_value global_col j))
                       (spatial_sum_value global_col j))
  else
    to_scalar (acc_mul (acc_exp (acc_sub (to_acc x)
                                         (spatial_max_value global_col j)))
                       (spatial_sum_value global_col j)).

Definition spatial_thread_writes (local_row_id global_col : nat)
  : list (nat * scalar_t) :=
  if global_col * vec_size <? inner_size then
    flat_map
      (fun i =>
         map (fun j => (spatial_offset i global_col j,
                        spatial_update global_col j
                                       (in_data (spatial_offset i global_col j))))
             (seq 0 vec_size))
      (spatial_rows local_row_id)
  else [].

Definition SpatialSoftmaxForwardKernelFunctor : list (nat * scalar_t) :=
  flat_map (fun global_col =>
              flat_map (fun local_row_id =>
                          spatial_thread_writes local_row_id global_col)
                       (seq 0 block_row))
           (seq 0 global_cols).
End SpatialSoftmaxForwardKernelFunctor.

Section SpatialSoftmaxBackwardKernelFunctor.
Variables output gradOutput : nat -> scalar_t.

(** The term row [i] adds to [sum_value[j]]:
    [gradout_val[j]] or [accscalar_t(gradout_val[j]) * out_val[j]]. *)
Definition spatial_bwd_term (global_col j i : nat) : accscalar_t :=
  if LogSoftMax then to_acc (gradOutput (spatial_offset i global_col j))
  else acc_mul (to_acc (gradOutput (spatial_offset i global_col j)))
               (to_acc (output (spatial_offset i global_col j))).

(** get sum value *)
Definition spatial_bwd_thread_sum (global_col j local_row_id : nat)
  : accscalar_t :=
  fold_left (fun sum_value i => acc_add sum_value (spatial_bwd_term global_col j i))
            (spatial_rows local_row_id) acc_zero.

Definition spatial_bwd_sum_value (global_col j : nat) : accscalar_t :=
  if 1 <? block_row then
    group_reduce_spatial acc_add acc_zero block_row
                         (map (spatial_bwd_thread_sum global_col j)
                              (seq 0 block_row))
  else spatial_bwd_thread_sum global_col j 0.

(** update result *)
Definition spatial_bwd_update (global_col j : nat) (out grad : scalar_t)
  : scalar_t :=
  if LogSoftMax then
    to_scalar (acc_sub (to_acc grad)
                       (acc_mul (acc_exp (to_acc out))
                                (spatial_bwd_sum_value global_col j)))
  else
    to_scalar (acc_mul (to_acc out)
                       (acc_sub (to_acc grad)
                                (spatial_bwd_sum_value global_col j))).

Definition spatial_bwd_thread_writes (local_row_id global_col : nat)
  : list (nat * scalar_t) :=
  if global_col * vec_size <? inner_size then
    flat_map
      (fun i =>
         map (fun j => (spatial_offset i global_col j,
                        spatial_bwd_update
                          global_col j
                          (output (spatial_offset i global_col j))
                          (gradOutput (spatial_offset i global_col j))))
             (seq 0 vec_size))
      (spatial_rows local_row_id)
  else [].

Definition SpatialSoftmaxBackwardKernelFunctor : list (nat * scalar_t) :=
  flat_map (fun global_col =>
              flat_map (fun local_row_id =>
                          spatial_bwd_thread_writes local_row_id global_col)
                       (seq 0 block_row))
           (seq 0 global_cols).
End SpatialSoftmaxBackwardKernelFunctor.
End SpatialKernels.

(** ** IEEE-754 arithmetic for the kernels

    [float] storage and accumulation (binary32: 24 bits of precision,
    exponent bound 128).  Addition, subtraction, multiplication and division
    are those of the IEEE specification.  [exp] and [log] are library
    functions: their values at zeros, infinities and NaN are the ones the C
    standard fixes; on the other arguments they are the parameters
    [exp_finite] and [log_finite]. *)
Definition f32_prec : Z := 24%Z.
Definition f32_emax : Z := 128%Z.

Definition f32_add := SFadd f32_prec f32_emax.
Definition f32_sub := SFsub f32_prec f32_emax.
Definition f32_mul := SFmul f32_prec f32_emax.
Definition f32_div := SFdiv f32_prec f32_emax.
Definition f32_one : spec_float := SFone f32_prec f32_emax.
Definition f32_lowest : spec_float := SFopp (SFmax_float f32_prec f32_emax).

Definition f32_exp (exp_finite : spec_float -> spec_float) (x : spec_float)
  : spec_float :=
  match x with
  | S754_nan => S754_nan
  | S754_infinity true => S754_zero false     (* exp(-inf) = +0 *)
  | S754_infinity false => S754_infinity false
  | S754_zero _ => f32_one
  | S754_finite _ _ _ => exp_finite x
  end.

Definition f32_log (log_finite : spec_float -> spec_float) (x : spec_float)
  : spec_float :=
  match x with
  | S754_nan => S754_nan
  | S754_zero _ => S754_infinity true         (* log(+-0) = -inf *)
  | S754_infinity false => S754_infinity false
  | S754_infinity true => S754_nan
  | S754_finite true _ _ => S754_nan
  | S754_finite false _ _ => log_finite x
  end.

(** Modelled from the spec: [Numerics<float>::max] (comm/Numerics.h) is not
    among the sources; the larger of the two values, a NaN if there is one. *)
Definition f32_max (a b : spec_float) : spec_float :=
  if SF_isnan a then a
  else if SF_isnan b then b
  else if SFltb a b then b else a.

(** [sycl::maximum]: [a < b ? b : a]. *)
Definition f32_sycl_maximum (a b : spec_float) : spec_float :=
  if SFltb a b then b else a.



Definition Float32 (exp_finite log_finite : spec_float -> spec_float)
  : SoftmaxNumerics spec_float spec_float := {|
  to_acc := fun x => x;
  to_scalar := fun x => x;
  acc_add := f32_add;
  acc_sub := f32_sub;
  acc_mul := f32_mul;
  acc_div := f32_div;
  sc_mul := f32_mul;
  acc_exp := f32_exp exp_finite;
  acc_log := f32_log log_finite;
  acc_max := f32_max;
  sycl_maximum := f32_sycl_maximum;
  acc_zero := S754_zero false;
  acc_one := f32_one;
  acc_lowest := f32_lowest;
  acc_eq_zero := fun x => SFeqb x (S754_zero false);
  sc_zero := S754_zero false;
  sc_neginf := S754_infinity true;
  sc_nan := S754_nan
|}.

Local Close Scope nat_scope.


(* ===================================================================== *)
(** * Part II, continued: kernel launchers and host entry points          *)
(* ===================================================================== *)

(** ** The launchers of the spatial kernels

    [spatial_softmax_forward] and [spatial_softmax_backward_kernel] compute
    the same ranges:
    [get_wgroup_size_spatial<vec_size>(outer_size, dim_size, inner_size,
       local_size, block_row);
     int group_num =
       (inner_size + local_size * vec_size - 1) / (local_size * vec_size);
     sycl::range<3> global_range{outer_size, block_row, group_num * local_size};
     sycl::range<3> local_range{1, block_row, local_size};] *)
Record nd_range_3 : Type := mk_nd_range_3 {
  global_range : Z * Z * Z;
  local_range : Z * Z * Z
}.

Definition spatial_nd_range (vec_size : Z) (dev : Device)
           (dim_size inner_size outer_size : Z) : option nd_range_3 :=
  match get_wgroup_size_spatial vec_size dev outer_size dim_size inner_size with
  | None => None
  | Some (local_size, block_row) =>
      let group_num :=
        Z.quot (inner_size + local_size * vec_size - 1) (local_size * vec_size) in
      Some (mk_nd_range_3 (outer_size, block_row, group_num * local_size)
                          (1, block_row, local_size))
  end.

(** ** The host functions [host_softmax] and [host_softmax_backward] *)

(** What one call of [host_softmax<LogSoftMax>] or
    [host_softmax_backward<LogSoftMax>] does. *)
Inductive HostSoftmaxOutcome : Type :=
| host_assert_failed (msg : string)
    (* AT_ASSERTM(!half_to_float, ...) raised *)
| host_check_failed (msg : string)
    (* a TORCH_CHECK raised *)
| host_wrap_dim_failed
    (* maybe_wrap_dim raised *)
| host_dispatch_failed
    (* IPEX_DISPATCH_FLOATING_TYPES_AND2 rejected the element type *)
| host_return_untouched
    (* the output (or gI) is returned with no kernel launched *)
| host_SpatialSoftMaxForward (LogSoftMax : bool) (input_sizes : list Z) (dim : Z)
    (* impl::SpatialSoftMaxForward<scalar_t, accscalar_t, LogSoftMax>(output,
       input, dim) *)
| host_SpatialSoftMaxBackward (LogSoftMax : bool) (output_sizes grad_sizes : list Z)
                              (dim : Z).
    (* impl::SpatialSoftMaxBackward<scalar_t, accscalar_t, LogSoftMax>(gI,
       output, grad, dim) *)

(** [host_softmax<LogSoftMax>(input_, dim_, half_to_float, output)];
    [input_is_contiguous] is [input_.is_contiguous()]. *)
Definition host_softmax (LogSoftMax : bool) (input_ : Tensor)
           (input_is_contiguous : bool) (dim_ : Z) (half_to_float : bool)
  : HostSoftmaxOutcome :=
  if negb (negb half_to_float) then
    host_assert_failed
      "softmax with half to float conversion is not supported on XPU"
  else if negb input_is_contiguous then
    host_check_failed "** host_softmax only supports contiguous input tensor"
  else
    let input := view1_if_scalar input_ in
    match maybe_wrap_dim dim_ (dim input) with
    | None => host_wrap_dim_failed
    | Some d =>
        if negb ((d >=? 0) && (d <? dim input)) then
          host_check_failed
            "** dpcpp dim must be non-negative and less than input dimensions"
        else if numel input >? 0 then
          if dispatch_floating_types_and2 (scalar_type input)
          then host_SpatialSoftMaxForward LogSoftMax (sizes input) d
          else host_dispatch_failed
        else host_return_untouched
    end.

(** [host_softmax_backward<LogSoftMax>(grad_, output_, dim_, half_to_float,
    gI)] *)
Definition host_softmax_backward (LogSoftMax : bool) (grad_ output_ : Tensor)
           (grad_is_contiguous output_is_contiguous : bool) (dim_ : Z)
           (half_to_float : bool) : HostSoftmaxOutcome :=
  if negb (negb half_to_float) then
    host_assert_failed
      "softmax with half to float conversion is not supported on XPU"
  else if negb grad_is_contiguous then
    host_check_failed
      "** host_softmax_backward only supports contiguous grad tensor"
  else if negb output_is_contiguous then
    host_check_failed
      "** host_softmax_backward only supports contiguous output tensor"
  else
    match maybe_wrap_dim dim_ (dim grad_) with
    | None => host_wrap_dim_failed
    | Some d =>
        if numel output_ =? 0 then host_return_untouched
        else
          let grad := view1_if_scalar grad_ in
          if negb ((d >=? 0) && (d <? dim grad)) then
            host_check_failed
              "dim must be non-negative and less than input dimensions"
          else
            let output := view1_if_scalar output_ in
            if dispatch_floating_types_and2 (scalar_type grad)
            then host_SpatialSoftMaxBackward LogSoftMax (sizes output)
                                             (sizes grad) d
            else host_dispatch_failed
    end.

(** ** The operator entry points *)

Inductive EntryOutcome : Type :=
| entry_check_failed (msg : string)
    (* TORCH_CHECK / TORCH_INTERNAL_ASSERT raised in the entry point *)
| oneDNN_softmax
    (* xpu::oneDNN::softmax(input_, dim, half_to_float, out) *)
| oneDNN_softmax_backward
    (* xpu::oneDNN::softmax_backward(grad_output, output, dim, half_to_float,
       grad_input) *)
| sycl_path (o : HostSoftmaxOutcome).
    (* host_softmax / host_softmax_backward on contiguous copies *)

(** [_softmax_out].  [is_softmax_valid] is [xpu::oneDNN::softmax_valid(input_)]
    and [chosen_is_onednn] tells whether
    [choose_compute_eng(xpu::COMPUTE_ENG::BASIC, input_)] answers [ONEDNN]
    (both from headers that are not among the sources). *)
Definition _softmax_out (input_ : Tensor) (dim : Z) (half_to_float : bool)
           (is_softmax_valid chosen_is_onednn : bool) : EntryOutcome :=
  let real_eng_is_onednn :=
    if negb is_softmax_valid then false else chosen_is_onednn in
  if real_eng_is_onednn then oneDNN_softmax
  else
    (* Tensor input = to_plain_if_needed(input_).contiguous(); *)
    sycl_path (host_softmax false input_ true dim half_to_float).

(** [_softmax_backward_data_out].  [onednn_applies] is
    [softmax_backward_valid(grad_output, output, grad_input) &&
     IPEX_ANY(is_onednn_layout, grad_output, output)]. *)
Definition _softmax_backward_data_out (grad_output output : Tensor) (dim : Z)
           (input_dtype : ScalarType) (onednn_applies : bool) : EntryOutcome :=
  let half_to_float := negb (ScalarType_eqb (scalar_type grad_output) input_dtype) in
  if half_to_float then
    entry_check_failed
      "softmax backward with half to float conversion is not supported on XPU"
  else if onednn_applies then oneDNN_softmax_backward
  else
    sycl_path (host_softmax_backward false grad_output output true true dim
                                     half_to_float).

(** [_log_softmax_out] *)
Definition _log_softmax_out (self : Tensor) (dim : Z) (half_to_float : bool)
  : EntryOutcome :=
  (* Tensor self_ = self.contiguous(); *)
  sycl_path (host_softmax true self true dim half_to_float).

(** [_log_softmax_backward_data_out] *)
Definition _log_softmax_backward_data_out (grad_output output : Tensor)
           (dim : Z) (input_dtype : ScalarType) : EntryOutcome :=
  let half_to_float := negb (ScalarType_eqb (scalar_type grad_output) input_dtype) in
  if half_to_float then
    entry_check_failed
      "softmax with half to float conversion is not supported on XPU"
  else
    sycl_path (host_softmax_backward true grad_output output true true dim
                                     half_to_float).

(* ===================================================================== *)
(** * Part III, continued: the fused add + softmax kernel                 *)
(* ===================================================================== *)

Local Open Scope nat_scope.

(** ** [DispatchSoftmaxForwardAddKernelFunctor]

    The register-resident kernel of [add_softmax]: the row is loaded as
    [input + alpha * other], element by element through the offset
    calculator [input_calc] (built by [TensorIterator::binary_op], not among
    the sources), which maps the linear offset [group_offset + index + j] to
    the offsets of the two operands.  [sc_add] is the [+] of [scalar_t]. *)
Section DispatchSoftmaxForwardAddKernelFunctor.
Context {scalar_t accscalar_t : Type} `{SoftmaxNumerics scalar_t accscalar_t}.
Variable sc_add : scalar_t -> scalar_t -> scalar_t.
Variables (vec_size outer_loop : nat) (LogSoftMax : bool).
Variables (dim_size local_size : nat).
Variable group_offset : nat.
Variables (in_data other_data : nat -> scalar_t) (alpha : scalar_t).
Variables input_calc_0 input_calc_1 : nat -> nat.

(** [reg_in[i][j] = input_value + alpha * other_value;] at row position
    [p = index + j]. *)
Definition add_reg_in (p : nat) : scalar_t :=
  let linear_offset := group_offset + p in
  let input_value := in_data (input_calc_0 linear_offset) in
  let other_value := other_data (input_calc_1 linear_offset) in
  sc_add input_value (sc_mul alpha other_value).

(** The positions a work item handles: the loop of the plain kernel. *)
Definition add_positions (lid_col : nat) : list nat :=
  flat_map (vector_lanes vec_size)
           (until_break dim_size
              (map (fun i => i * (local_size * vec_size) + lid_col * vec_size)
                   (seq 0 outer_loop))).

(** load data and get max value *)
Definition add_thread_max (lid_col : nat) : accscalar_t :=
  fold_left (fun max_value p => acc_max max_value (to_acc (add_reg_in p)))
            (add_positions lid_col) acc_lowest.

Definition add_max_value : accscalar_t :=
  if 1 <? local_size then
    group_reduce acc_max acc_lowest (map add_thread_max (seq 0 local_size))
  else add_thread_max 0.

(** get sum value *)
Definition add_thread_sum (lid_col : nat) : accscalar_t :=
  fold_left (fun sum_value p =>
               acc_add sum_value
                       (acc_exp (acc_sub (to_acc (add_reg_in p)) add_max_value)))
            (add_positions lid_col) acc_zero.

Definition add_sum_reduced : accscalar_t :=
  if 1 <? local_size then
    group_reduce acc_add acc_zero (map add_thread_sum (seq 0 local_size))
  else add_thread_sum 0.

(** [if constexpr (LogSoftMax) sum_value = log(sum_value);
     else sum_value = accscalar_t(1) / sum_value;] *)
Definition add_sum_value : accscalar_t :=
  if LogSoftMax then acc_log add_sum_reduced
  else acc_div acc_one add_sum_reduced.

(** update result *)
Definition add_update (x : scalar_t) : scalar_t :=
  if LogSoftMax then
    to_scalar (acc_sub (acc_sub (to_acc x) add_max_value) add_sum_value)
  else
    to_scalar (acc_mul (acc_exp (acc_sub (to_acc x) add_max_value))
                       add_sum_value).

Definition add_thread_writes (lid_col : nat) : list (nat * scalar_t) :=
  map (fun p => (p, add_update (add_reg_in p))) (add_positions lid_col).

(** Everything the work items of the row store to [out_data]. *)
Definition DispatchSoftmaxForwardAddKernelFunctor : list (nat * scalar_t) :=
  flat_map add_thread_writes (seq 0 local_size).
End DispatchSoftmaxForwardAddKernelFunctor.

Local Close Scope nat_scope.

(* ===================================================================== *)
(** * Part III, continued: [impl::group_reduce]                           *)
(* ===================================================================== *)

Local Open Scope nat_scope.

(** ** [impl::group_reduce<SIMD>]

    The work items of one row of the work group are [sub_group_num]
    sub-groups of [SIMD] lanes.  [vals] holds the value [val] of every work
    item on entry, sub-group by sub-group.  [sycl::shift_group_left(sg, val,
    delta)] gives a lane the value of the lane [delta] places further; for
    the last [delta] lanes SYCL leaves the result unspecified:
    [out_of_range] stands for whatever the device returns there. *)
Module impl.
Section group_reduce.
Context {A : Type}.
Variable bin_op : A -> A -> A.
Variable init : A.
Variable out_of_range : list A -> nat -> nat -> A.

Definition shift_group_left (sg : list A) (delta lane : nat) : A :=
  if lane + delta <? List.length sg then nth (lane + delta) sg init
  else out_of_range sg delta lane.

(** One pass of a shuffle loop, executed by all the lanes of a sub-group:
    [val = bin_op(val, shift_group_left(sg, val, i));] *)
Definition shuffle_step (sg : list A) (i : nat) : list A :=
  map (fun lane => bin_op (nth lane sg init) (shift_group_left sg i lane))
      (seq 0 (List.length sg)).

(** [for (int i = 1; i < SIMD; i <<= 1) { ... }]; [fuel] bounds the number
    of passes. *)
Fixpoint shuffle_loop (fuel SIMD i : nat) (sg : list A) : list A :=
  match fuel with
  | O => sg
  | S fuel' =>
      if i <? SIMD then shuffle_loop fuel' SIMD (2 * i) (shuffle_step sg i)
      else sg
  end.

(** [for (int i = 1; i < SIMD; i <<= 1) {
       ...; if (i >= ((sub_group_num + 1) >> 1)) break; }] *)
Fixpoint shuffle_loop_break (fuel SIMD sub_group_num i : nat) (sg : list A)
  : list A :=
  match fuel with
  | O => sg
  | S fuel' =>
      if i <? SIMD then
        let sg' := shuffle_step sg i in
        if (sub_group_num + 1) / 2 <=? i then sg'
        else shuffle_loop_break fuel' SIMD sub_group_num (2 * i) sg'
      else sg
  end.

(** The value every work item of the row holds in [val] on return.  [i]
    doubles from 1, so [SIMD] passes are never used up. *)
Definition group_reduce (SIMD sub_group_num : nat) (vals : list (list A)) : A :=
  (* reduce internal each subgroup, each subgroup will generate one result *)
  let reduced := map (shuffle_loop SIMD SIMD 1) vals in
  if sub_group_num =? 1 then
    (* val = sycl::group_broadcast(sg, val, 0); return; *)
    nth 0 (nth 0 reduced []) init
  else
    (* if (sg_local_id == 0) local_data[lid_row][idx] = val; *)
    let local_data := map (fun sg => nth 0 sg init) reduced in
    (* use one subgroup to reduce WGroupSize/subGroupSize elements into the
       final result *)
    let first_sub_group :=
      map (fun sg_local_id =>
             let val :=
               if sg_local_id <? sub_group_num
               then nth sg_local_id local_data init
               else init in
             fold_left (fun val i => bin_op val (nth i local_data init))
                       (strided (sg_local_id + SIMD) SIMD sub_group_num) val)
          (seq 0 SIMD) in
    let shuffled :=
      shuffle_loop_break SIMD SIMD sub_group_num 1 first_sub_group in
    (* the 0th WI (the 0th WI in the 0th sub_group) generate the final
       result: local_data[lid_row][0] = val; ... val = local_data[lid_row][0]; *)
    nth 0 shuffled init.
End group_reduce.
End impl.

Local Close Scope nat_scope.

(* ===================================================================== *)
(** * Part IV: specification predicates                                   *)
(* ===================================================================== *)

(** The facts about a strict comparison [lt] (either [<] or [>]) that the
    analysis of the fold uses; they hold on the values that are not NaN. *)
Record StrictOrNan {scalar_t : Type} `{Numerics scalar_t}
       (lt : scalar_t -> scalar_t -> bool) : Prop := {
  son_nan_l : forall a b, isnan a = true -> lt a b = false;
  son_nan_r : forall a b, isnan b = true -> lt a b = false;
  son_total : forall a b, isnan a = false -> isnan b = false ->
      num_eq a b = true \/ lt a b = true \/ lt b a = true;
  son_trans : forall a b c, lt a b = true -> lt b c = true -> lt a c = true;
  son_asym : forall a b, lt a b = true -> lt b a = false;
  son_lt_eq : forall a b c, lt a b = true -> num_eq b c = true -> lt a c = true;
  son_eq_not_lt : forall a b, num_eq a b = true -> lt a b = false
}.

(** The comparator built on [lt]: [LessOrNan] is [or_nan num_lt] and
    [GreaterOrNan] is [or_nan num_gt]. *)
Definition or_nan {scalar_t : Type} `{Numerics scalar_t}
           (lt : scalar_t -> scalar_t -> bool) : comp_t scalar_t :=
  fun a b idx_a idx_b =>
    if isnan a then
      if isnan b then idx_a <? idx_b else true
    else if num_eq a b then idx_a <? idx_b else lt a b.

(** [r] is the extreme of [slice] for the strict comparison [lt]: its value
    is the element at its index; if the slice holds a NaN the value is a NaN
    and no earlier element is one; otherwise no element is strictly before
    the value in the order, and no earlier element equals it. *)
Definition extreme_at {scalar_t : Type} `{Numerics scalar_t}
           (lt : scalar_t -> scalar_t -> bool)
           (slice : list scalar_t) (r : arg_t scalar_t) : Prop :=
  exists k : nat,
    second r = Z.of_nat k /\
    nth_error slice k = Some (first r) /\
    if existsb isnan slice then
      isnan (first r) = true /\
      forall j y, (j < k)%nat -> nth_error slice j = Some y -> isnan y = false
    else
      (forall y, In y slice -> lt y (first r) = false) /\
      (forall j y, (j < k)%nat -> nth_error slice j = Some y ->
                   num_eq y (first r) = false).

(** The invariant of the fold after the elements of [prefix]. *)
Definition fold_inv {scalar_t : Type} `{Numerics scalar_t}
           (lt : scalar_t -> scalar_t -> bool)
           (prefix : list scalar_t) (r : arg_t scalar_t) : Prop :=
  exists k : nat,
    second r = Z.of_nat k /\
    nth_error prefix k = Some (first r) /\
    ((isnan (first r) = true /\
      forall j y, (j < k)%nat -> nth_error prefix j = Some y -> isnan y = false)
     \/
     (isnan (first r) = false /\
      (forall y, In y prefix -> isnan y = false) /\
      (forall j y, (j < k)%nat -> nth_error prefix j = Some y ->
                   lt (first r) y = true) /\
      (forall j y, (k <= j)%nat -> nth_error prefix j = Some y ->
                   lt (first r) y = true \/ num_eq (first r) y = true))).

(** The binary32 value of a small integer (used in examples). *)
Definition f32_of_Z (z : Z) : spec_float :=
  binary_normalize f32_prec f32_emax z 0 false.

(** A buffer for examples: 3, NaN, 1, NaN, then zeros. *)
Definition tensor_example (p : nat) : spec_float :=
  nth p [f32_of_Z 3; S754_nan; f32_of_Z 1; S754_nan] (S754_zero false).

Definition int64_3 : int64_t := int64_of 3 eq_refl.
Definition int64_1 : int64_t := int64_of 1 eq_refl.
Definition int64_2 : int64_t := int64_of 2 eq_refl.

Local Open Scope nat_scope.

(** Accumulation without rounding: the additions of the accumulation type
    form a commutative monoid.  (The spec accepts the standard reduction
    error of floating-point sums; the order-independent statements below are
    made for exact accumulation.) *)
Class ExactAccumulation (scalar_t accscalar_t : Type)
      `{SoftmaxNumerics scalar_t accscalar_t} : Prop := {
  acc_add_assoc : forall a b c : accscalar_t,
      acc_add a (acc_add b c) = acc_add (acc_add a b) c;
  acc_add_comm : forall a b : accscalar_t, acc_add a b = acc_add b a;
  acc_add_zero_l : forall a : accscalar_t, acc_add acc_zero a = a
}.

(** The sum of a list of accumulation values. *)
Definition acc_sum {scalar_t accscalar_t : Type}
           `{SoftmaxNumerics scalar_t accscalar_t}
           (l : list accscalar_t) : accscalar_t :=
  fold_right acc_add acc_zero l.

(** The sum of the [len] values of [orig] from position [a] on (fewer at
    the end of the list). *)
Definition range_sum {scalar_t accscalar_t : Type}
           `{SoftmaxNumerics scalar_t accscalar_t}
           (orig : list accscalar_t) (a len : nat) : accscalar_t :=
  acc_sum (firstn len (skipn a orig)).

(** The sum of [term] over the reduced axis. *)
Definition axis_sum {scalar_t accscalar_t : Type}
           `{SoftmaxNumerics scalar_t accscalar_t}
           (term : nat -> accscalar_t) (dim_size : nat) : accscalar_t :=
  acc_sum (map term (seq 0 dim_size)).

(** The backward formulas of the spec:
    softmax      gradInput = output * (gradOutput - sum(output * gradOutput))
    log-softmax  gradInput = gradOutput - exp(output) * sum(gradOutput)
    with the sum passed in the accumulation type. *)
Definition softmax_backward_value {scalar_t accscalar_t : Type}
           `{SoftmaxNumerics scalar_t accscalar_t}
           (LogSoftMax : bool) (sum : accscalar_t) (out grad : scalar_t)
  : scalar_t :=
  if LogSoftMax then
    to_scalar (acc_sub (to_acc grad) (acc_mul (acc_exp (to_acc out)) sum))
  else
    to_scalar (acc_mul (to_acc out) (acc_sub (to_acc grad) sum)).

(** The summand at position [p]: [gradOutput] for log-softmax; the product
    [output * gradOutput] for softmax, formed on stored values in tiers 1 and
    2 and on accumulation values in tier 3. *)
Definition backward_term {scalar_t accscalar_t : Type}
           `{SoftmaxNumerics scalar_t accscalar_t}
           (LogSoftMax : bool) (output gradOutput : nat -> scalar_t) (p : nat)
  : accscalar_t :=
  if LogSoftMax then to_acc (gradOutput p)
  else to_acc (sc_mul (output p) (gradOutput p)).

Definition backward_term_acc {scalar_t accscalar_t : Type}
           `{SoftmaxNumerics scalar_t accscalar_t}
           (LogSoftMax : bool) (output gradOutput : nat -> scalar_t) (p : nat)
  : accscalar_t :=
  if LogSoftMax then to_acc (gradOutput p)
  else acc_mul (to_acc (gradOutput p)) (to_acc (output p)).

Local Close Scope nat_scope.

(** An instance with exact accumulation, for examples: integers, with
    [2^x] and [log2] standing in for the exponential and the logarithm. *)
Definition IntegerArithmetic : SoftmaxNumerics Z Z := {|
  to_acc := fun x => x;
  to_scalar := fun x => x;
  acc_add := Z.add;
  acc_sub := Z.sub;
  acc_mul := Z.mul;
  acc_div := Z.quot;
  sc_mul := Z.mul;
  acc_exp := Z.pow 2;
  acc_log := Z.log2;
  acc_max := Z.max;
  sycl_maximum := Z.max;
  acc_zero := 0;
  acc_one := 1;
  acc_lowest := INT64_MIN;
  acc_eq_zero := fun x => x =? 0;
  sc_zero := 0;
  sc_neginf := INT64_MIN;
  sc_nan := 0
|}.

(** A mask for examples: position 1 is masked, the others are not. *)
Definition mask_data_example (p : nat) : bool := Nat.eqb p 1.

(* ===================================================================== *)
(** * Part IV, continued: further specification predicates               *)
(* ===================================================================== *)

(** The comparator of [combine] read as a relation on accumulators: [a] is
    taken before [b]. *)
Definition before {scalar_t : Type} `{Numerics scalar_t}
           (lt : scalar_t -> scalar_t -> bool) (a b : arg_t scalar_t) : bool :=
  or_nan lt (first a) (first b) (second a) (second b).

(** The strategy of a launch of the backward dispatcher. *)
Definition backward_strategy_of (l : BackwardLaunch) : Strategy :=
  match l with
  | dispatch_softmax_backward_kernel _ _ _ => register_resident
  | softmax_backward_kernel _ => streaming
  | spatial_softmax_backward_kernel _ => spatial
  end.

(** The outcomes that launch a kernel of this translation unit. *)
Definition host_launches (o : HostSoftmaxOutcome) : bool :=
  match o with
  | host_SpatialSoftMaxForward _ _ _ | host_SpatialSoftMaxBackward _ _ _ _ => true
  | _ => false
  end.

Definition entry_launches (o : EntryOutcome) : bool :=
  match o with
  | sycl_path h => host_launches h
  | _ => false
  end.

(** The explicit range checks on the wrapped axis. *)
Definition is_dim_range_failure (o : HostSoftmaxOutcome) : bool :=
  match o with
  | host_check_failed msg =>
      String.eqb msg "** dpcpp dim must be non-negative and less than input dimensions"
      || String.eqb msg "dim must be non-negative and less than input dimensions"
  | _ => false
  end.

(** Broadcasting: [mask_sizes] can be expanded to [input_sizes] when, with
    the two lists aligned at their last entries, every entry of
    [mask_sizes] equals the entry of [input_sizes] or is 1. *)
Fixpoint broadcast_aligned (mask_rev input_rev : list Z) : bool :=
  match mask_rev, input_rev with
  | [], _ => true
  | m :: mask_rev', i :: input_rev' =>
      ((m =? i) || (m =? 1)) && broadcast_aligned mask_rev' input_rev'
  | _ :: _, [] => false
  end.

Definition broadcastable_to (mask_sizes input_sizes : list Z) : bool :=
  broadcast_aligned (rev mask_sizes) (rev input_sizes).

Local Open Scope nat_scope.

(** Reductions with an operator that has no neutral element: [None] stands
    for the reduction of no value. *)
Definition option_op {A : Type} (op : A -> A -> A) (a b : option A) : option A :=
  match a, b with
  | Some x, Some y => Some (op x y)
  | Some x, None => Some x
  | None, _ => b
  end.

Definition option_reduce {A : Type} (op : A -> A -> A) (l : list A) : option A :=
  fold_right (fun x acc => option_op op (Some x) acc) None l.

(** The reduction of the [len] values of [orig] from position [a] on. *)
Definition range_reduce {A : Type} (op : A -> A -> A) (orig : list A)
           (a len : nat) : option A :=
  option_reduce op (firstn len (skipn a orig)).

Local Close Scope nat_scope.

Local Open Scope nat_scope.

(** The maximum as a lattice operation: [Numerics<accscalar_t>::max] is
    associative, commutative and idempotent, and [sycl::maximum] computes the
    same value.  (This holds of the maximum of an ordered type; with NaN
    values the two functions differ.) *)
Class ExactMaximum (scalar_t accscalar_t : Type)
      `{SoftmaxNumerics scalar_t accscalar_t} : Prop := {
  acc_max_assoc : forall a b c : accscalar_t,
      acc_max a (acc_max b c) = acc_max (acc_max a b) c;
  acc_max_comm : forall a b : accscalar_t, acc_max a b = acc_max b a;
  acc_max_idem : forall a : accscalar_t, acc_max a a = a;
  sycl_maximum_is_max : forall a b : accscalar_t, sycl_maximum a b = acc_max a b
}.

(** The maximum of [seed] and of [term] over the reduced axis: the
    sequential loop [m = seed; for (i...) m = max(m, term(i))]. *)
Definition axis_max_seeded {scalar_t accscalar_t : Type}
           `{SoftmaxNumerics scalar_t accscalar_t}
           (seed : accscalar_t) (term : nat -> accscalar_t) (dim_size : nat)
  : accscalar_t :=
  fold_left acc_max (map term (seq 0 dim_size)) seed.

(** The maximum of [term] over a reduced axis of at least one element. *)
Definition axis_max {scalar_t accscalar_t : Type}
           `{SoftmaxNumerics scalar_t accscalar_t}
           (term : nat -> accscalar_t) (dim_size : nat) : accscalar_t :=
  fold_left acc_max (map term (seq 1 (dim_size - 1))) (term 0).

(** The forward formulas of the spec, with the row maximum and the sum of
    the exponentials passed in the accumulation type:
    softmax      exp(x - max) * (1 / sum)
    log-softmax  (x - max) - log(sum). *)
Definition softmax_forward_value {scalar_t accscalar_t : Type}
           `{SoftmaxNumerics scalar_t accscalar_t}
           (LogSoftMax : bool) (max_value sum : accscalar_t) (x : scalar_t)
  : scalar_t :=
  if LogSoftMax then
    to_scalar (acc_sub (acc_sub (to_acc x) max_value) (acc_log sum))
  else
    to_scalar (acc_mul (acc_exp (acc_sub (to_acc x) max_value))
                       (acc_div acc_one sum)).

(** The summand of the forward pass at position [p]: exp(x[p] - max). *)
Definition forward_exp_term {scalar_t accscalar_t : Type}
           `{SoftmaxNumerics scalar_t accscalar_t}
           (x : nat -> scalar_t) (max_value : accscalar_t) (p : nat)
  : accscalar_t :=
  acc_exp (acc_sub (to_acc (x p)) max_value).

Local Close Scope nat_scope.

(* ===================================================================== *)
(** * Part V: the indexed min/max reduction, proofs                       *)
(* ===================================================================== *)

Section OrderFacts.
Context {scalar_t : Type} `{L : NumericsLaws scalar_t}.

Lemma StrictOrNan_lt : StrictOrNan num_lt.
Proof.
  constructor.
  - apply nan_lt_l.
  - apply nan_lt_r.
  - apply lt_total.
  - apply lt_trans.
  - apply lt_asym.
  - apply lt_eq_r.
  - apply eq_not_lt.
Qed.

Lemma StrictOrNan_gt : StrictOrNan num_gt.
Proof.
  constructor; intros; rewrite ?gt_is_flipped_lt in *.
  - now apply nan_lt_r.
  - now apply nan_lt_l.
  - destruct (lt_total a b) as [E | [E | E]]; auto.
  - eapply lt_trans; eauto.
  - now apply lt_asym.
  - eapply lt_eq_l; eauto.
  - apply eq_not_lt. now rewrite eq_sym.
Qed.

Lemma LessOrNan_or_nan : @LessOrNan scalar_t _ = or_nan num_lt.
Proof. reflexivity. Qed.

Lemma GreaterOrNan_or_nan : @GreaterOrNan scalar_t _ = or_nan num_gt.
Proof. reflexivity. Qed.
End OrderFacts.

Lemma nth_error_snoc {A : Type} (prefix : list A) (val : A) (j : nat) (y : A) :
  nth_error (prefix ++ [val]) j = Some y ->
  (j < List.length prefix)%nat /\ nth_error prefix j = Some y
  \/ j = List.length prefix /\ y = val.
Proof.
  intros Hj.
  destruct (Nat.lt_ge_cases j (List.length prefix)) as [Hlt | Hge].
  - left. split; auto. now rewrite nth_error_app1 in Hj.
  - right. rewrite nth_error_app2 in Hj by assumption.
    destruct (j - List.length prefix)%nat eqn:Ed.
    + simpl in Hj. split; [lia | congruence].
    + simpl in Hj. destruct n; discriminate.
Qed.

Section FoldAnalysis.
Context {scalar_t : Type} `{N : Numerics scalar_t}.
Variable lt : scalar_t -> scalar_t -> bool.
Hypothesis lt_ok : StrictOrNan lt.
Hypothesis eq_symm : forall a b : scalar_t, num_eq a b = num_eq b a.
Hypothesis eq_nan_r : forall a b : scalar_t, isnan b = true -> num_eq a b = false.

Lemma num_eq_refl (a : scalar_t) : isnan a = false -> num_eq a a = true.
Proof.
  intros Ha. destruct (son_total lt lt_ok a a Ha Ha) as [E | [E | E]]; auto;
    pose proof (son_asym lt lt_ok _ _ E); congruence.
Qed.

Lemma lt_not_eq (a b : scalar_t) : lt a b = true -> num_eq a b = false.
Proof.
  intros Hlt. destruct (num_eq a b) eqn:E; auto.
  pose proof (son_eq_not_lt lt lt_ok _ _ E). congruence.
Qed.

(** One [reduce] step: the invariant extends from [prefix] to
    [prefix ++ [val]] when [val] is reduced in at index [length prefix]. *)
Lemma fold_inv_step (prefix : list scalar_t) (r : arg_t scalar_t) (val : scalar_t) :
  fold_inv lt prefix r ->
  fold_inv lt (prefix ++ [val])
           (MinMaxReductionOps.reduce (or_nan lt) r val
                                      (Z.of_nat (List.length prefix))).
Proof.
  intros (k & Hk & Hnth & Hcase).
  assert (Hlen : (k < List.length prefix)%nat).
  { apply nth_error_Some. congruence. }
  assert (Hidx : (second r <? Z.of_nat (List.length prefix)) = true).
  { apply Z.ltb_lt. lia. }
  assert (Hkeep := nth_error_snoc prefix val).
  unfold MinMaxReductionOps.reduce, or_nan.
  destruct Hcase as [[Hnan Hfirst] | (Hnn & Hall & Hbefore & Hafter)].
  - (* the accumulator is a NaN: it is kept *)
    rewrite Hnan, Hidx.
    replace (if isnan val then true else true) with true by now destruct (isnan val).
    exists k. split; [assumption|]. split.
    + rewrite nth_error_app1; assumption.
    + left. split; [assumption|]. intros j y Hj Hy.
      apply (Hfirst j y Hj). rewrite nth_error_app1 in Hy by lia. assumption.
  - rewrite Hnn.
    destruct (num_eq (first r) val) eqn:Eeq.
    + (* equal values: the lower index is kept *)
      rewrite Hidx.
      assert (Hval : isnan val = false).
      { destruct (isnan val) eqn:E; auto.
        rewrite (eq_nan_r (first r) val E) in Eeq. discriminate. }
      exists k. split; [assumption|]. split; [rewrite nth_error_app1; assumption|].
      right. split; [assumption|]. split; [|split].
      * intros y Hy. apply in_app_or in Hy. destruct Hy as [Hy | [Hy | []]]; subst; auto.
      * intros j y Hj Hy. apply (Hbefore j y Hj).
        rewrite nth_error_app1 in Hy by lia. assumption.
      * intros j y Hj Hy. destruct (Hkeep j y Hy) as [[_ Hy'] | [_ ->]]; eauto.
    + destruct (lt (first r) val) eqn:Elt.
      * (* the accumulator is strictly better: kept *)
        assert (Hval : isnan val = false).
        { destruct (isnan val) eqn:E; auto.
          rewrite (son_nan_r lt lt_ok (first r) val E) in Elt. discriminate. }
        exists k. split; [assumption|]. split; [rewrite nth_error_app1; assumption|].
        right. split; [assumption|]. split; [|split].
        -- intros y Hy. apply in_app_or in Hy.
           destruct Hy as [Hy | [Hy | []]]; subst; auto.
        -- intros j y Hj Hy. apply (Hbefore j y Hj).
           rewrite nth_error_app1 in Hy by lia. assumption.
        -- intros j y Hj Hy. destruct (Hkeep j y Hy) as [[_ Hy'] | [_ ->]]; eauto.
      * (* the new element replaces the accumulator *)
        exists (List.length prefix). simpl. split; [reflexivity|]. split.
        { rewrite nth_error_app2 by lia. now rewrite Nat.sub_diag. }
        destruct (isnan val) eqn:Eval.
        -- left. split; [reflexivity|]. intros j y Hj Hy.
           rewrite nth_error_app1 in Hy by lia.
           apply Hall. eapply nth_error_In; eauto.
        -- right. split; [reflexivity|].
           assert (Hbetter : lt val (first r) = true).
           { destruct (son_total lt lt_ok (first r) val Hnn Eval) as [E | [E | E]];
               congruence. }
           split; [|split].
           ++ intros y Hy. apply in_app_or in Hy.
              destruct Hy as [Hy | [Hy | []]]; subst; auto.
           ++ intros j y Hj Hy. rewrite nth_error_app1 in Hy by lia.
              destruct (Nat.lt_ge_cases j k) as [Hjk | Hjk].
              ** eapply son_trans; eauto.
              ** destruct (Hafter j y Hjk Hy) as [H1 | H1].
                 --- eapply son_trans; eauto.
                 --- eapply son_lt_eq; eauto.
           ++ intros j y Hj Hy. destruct (Hkeep j y Hy) as [[Hlt' _] | [_ ->]];
                [lia|]. right. now apply num_eq_refl.
Qed.

Lemma fold_inv_reduce_from (rest prefix : list scalar_t) (r : arg_t scalar_t) :
  fold_inv lt prefix r ->
  fold_inv lt (prefix ++ rest)
           (reduce_from (or_nan lt) r (Z.of_nat (List.length prefix)) rest).
Proof.
  revert prefix r. induction rest as [| val rest IH]; intros prefix r Hinv.
  - simpl. now rewrite app_nil_r.
  - simpl.
    replace (prefix ++ val :: rest) with ((prefix ++ [val]) ++ rest)
      by (rewrite <- app_assoc; reflexivity).
    replace (Z.of_nat (List.length prefix) + 1)
      with (Z.of_nat (List.length (prefix ++ [val])))
      by (rewrite length_app; simpl; lia).
    apply IH. now apply fold_inv_step.
Qed.

Lemma fold_inv_single (val : scalar_t) : fold_inv lt [val] (mk_arg val 0).
Proof.
  exists 0%nat. simpl. split; [reflexivity|]. split; [reflexivity|].
  destruct (isnan val) eqn:E.
  - left. split; [reflexivity|]. intros j y Hj. lia.
  - right. split; [reflexivity|]. split; [|split].
    + intros y [<- | []]. assumption.
    + intros j y Hj. lia.
    + intros j y _ Hy. destruct j; simpl in Hy.
      * injection Hy as <-. right. now apply num_eq_refl.
      * destruct j; discriminate.
Qed.

Lemma fold_inv_extreme (slice : list scalar_t) (r : arg_t scalar_t) :
  fold_inv lt slice r -> extreme_at lt slice r.
Proof.
  intros (k & Hk & Hnth & Hcase). exists k. split; [assumption|].
  split; [assumption|].
  destruct (existsb isnan slice) eqn:Eex.
  - destruct Hcase as [Hleft | (Hnn & Hall & _)]; [assumption|].
    apply existsb_exists in Eex. destruct Eex as (y & Hy & Hnan).
    rewrite (Hall y Hy) in Hnan. discriminate.
  - assert (Hnone : forall y, In y slice -> isnan y = false).
    { intros y Hy. destruct (isnan y) eqn:E; auto.
      assert (existsb isnan slice = true) by (apply existsb_exists; eauto).
      congruence. }
    destruct Hcase as [[Hnan _] | (Hnn & _ & Hbefore & Hafter)].
    + apply nth_error_In in Hnth. rewrite (Hnone _ Hnth) in Hnan. discriminate.
    + split.
      * intros y Hy. apply In_nth_error in Hy. destruct Hy as [j Hj].
        destruct (Nat.lt_ge_cases j k) as [Hjk | Hjk].
        -- apply (son_asym lt lt_ok). eauto.
        -- destruct (Hafter j y Hjk Hj) as [H1 | H1].
           ++ now apply (son_asym lt lt_ok).
           ++ apply (son_eq_not_lt lt lt_ok). now rewrite eq_symm.
      * intros j y Hj Hy. rewrite eq_symm. apply lt_not_eq. eauto.
Qed.

(** The seed is replaced by the first element whatever it is, as soon as the
    seed's value is not a NaN and nothing is strictly beyond it. *)
Lemma reduce_seed_first (bound val : scalar_t) :
  isnan bound = false ->
  (forall a, lt bound a = false) ->
  MinMaxReductionOps.reduce (or_nan lt) (mk_arg bound 0) val 0 = mk_arg val 0.
Proof.
  intros Hb Htop. unfold MinMaxReductionOps.reduce, or_nan. simpl.
  rewrite Hb, Htop. now destruct (num_eq bound val).
Qed.

Lemma reduce_slice_unseeded (bound : scalar_t) (slice : list scalar_t) :
  isnan bound = false ->
  (forall a, lt bound a = false) ->
  slice <> [] ->
  reduce_unseeded (or_nan lt) slice
  = Some (reduce_slice (or_nan lt) (mk_arg bound 0) slice).
Proof.
  intros Hb Htop Hne. destruct slice as [| val rest]; [congruence|].
  unfold reduce_unseeded, reduce_slice, MinMaxReductionOps.project. simpl.
  now rewrite reduce_seed_first.
Qed.

Lemma reduce_slice_extreme (bound : scalar_t) (slice : list scalar_t) :
  isnan bound = false ->
  (forall a, lt bound a = false) ->
  slice <> [] ->
  extreme_at lt slice (reduce_slice (or_nan lt) (mk_arg bound 0) slice).
Proof.
  intros Hb Htop Hne. destruct slice as [| val rest]; [congruence|].
  apply fold_inv_extreme.
  unfold reduce_slice, MinMaxReductionOps.project. simpl.
  rewrite reduce_seed_first by assumption.
  apply (fold_inv_reduce_from rest [val]). apply fold_inv_single.
Qed.

(** [combine] with the seed on the left. *)
Lemma combine_seed_left (bound : scalar_t) (p : arg_t scalar_t) :
  isnan bound = false ->
  (forall a, lt bound a = false) ->
  num_eq bound (first p) = false \/ second p <= 0 ->
  MinMaxReductionOps.combine (or_nan lt) (mk_arg bound 0) p = p.
Proof.
  intros Hb Htop Hp. unfold MinMaxReductionOps.combine, or_nan. simpl.
  rewrite Hb, Htop.
  destruct (num_eq bound (first p)) eqn:E; [|reflexivity].
  destruct Hp as [Hp | Hp]; [discriminate|].
  replace (0 <? second p) with false by (symmetry; apply Z.ltb_ge; lia).
  reflexivity.
Qed.
(** ** Merging the partial results of two chunks *)

Lemma num_eq_not_nan_l (a b : scalar_t) : num_eq a b = true -> isnan a = false.
Proof.
  intros E. destruct (isnan a) eqn:Ea; auto.
  rewrite eq_symm, (eq_nan_r b a Ea) in E. discriminate.
Qed.

Lemma num_eq_not_nan_r (a b : scalar_t) : num_eq a b = true -> isnan b = false.
Proof.
  intros E. destruct (isnan b) eqn:Eb; auto.
  rewrite (eq_nan_r a b Eb) in E. discriminate.
Qed.

Lemma lt_not_nan_l (a b : scalar_t) : lt a b = true -> isnan a = false.
Proof.
  intros E. destruct (isnan a) eqn:Ea; auto.
  rewrite (son_nan_l lt lt_ok a b Ea) in E. discriminate.
Qed.

Lemma lt_not_nan_r (a b : scalar_t) : lt a b = true -> isnan b = false.
Proof.
  intros E. destruct (isnan b) eqn:Eb; auto.
  rewrite (son_nan_r lt lt_ok a b Eb) in E. discriminate.
Qed.

Lemma num_eq_trans (a b c : scalar_t) :
  num_eq a b = true -> num_eq b c = true -> num_eq a c = true.
Proof.
  intros Eab Ebc.
  destruct (son_total lt lt_ok a c (num_eq_not_nan_l _ _ Eab)
                      (num_eq_not_nan_r _ _ Ebc)) as [E | [E | E]]; auto.
  - assert (Hab : lt a b = true).
    { apply (son_lt_eq lt lt_ok a c b E). now rewrite eq_symm. }
    rewrite (son_eq_not_lt lt lt_ok _ _ Eab) in Hab. discriminate.
  - assert (Hcb : lt c b = true) by exact (son_lt_eq lt lt_ok c a b E Eab).
    rewrite eq_symm in Ebc.
    rewrite (son_eq_not_lt lt lt_ok _ _ Ebc) in Hcb. discriminate.
Qed.

Lemma eq_lt_trans (a b c : scalar_t) :
  num_eq a b = true -> lt b c = true -> lt a c = true.
Proof.
  intros Eab Hbc.
  destruct (son_total lt lt_ok a c (num_eq_not_nan_l _ _ Eab)
                      (lt_not_nan_r _ _ Hbc)) as [E | [E | E]]; auto.
  - assert (Ebc : num_eq b c = true).
    { apply (num_eq_trans b a c); [now rewrite eq_symm | assumption]. }
    rewrite (son_eq_not_lt lt lt_ok _ _ Ebc) in Hbc. discriminate.
  - assert (Hba : lt b a = true) by exact (son_trans lt lt_ok b c a Hbc E).
    rewrite eq_symm in Eab.
    rewrite (son_eq_not_lt lt lt_ok _ _ Eab) in Hba. discriminate.
Qed.

Lemma nth_error_app_cases {A : Type} (c0 c1 : list A) (j : nat) (y : A) :
  nth_error (c0 ++ c1) j = Some y ->
  (j < List.length c0)%nat /\ nth_error c0 j = Some y
  \/ (List.length c0 <= j)%nat /\ nth_error c1 (j - List.length c0) = Some y.
Proof.
  intros Hj. destruct (Nat.lt_ge_cases j (List.length c0)) as [Hlt | Hge].
  - left. split; auto. now rewrite nth_error_app1 in Hj.
  - right. split; auto. now rewrite nth_error_app2 in Hj.
Qed.

(** The invariant of two adjacent chunks, each with positions local to the
    chunk, gives the invariant of their concatenation after [translate_idx]
    and [combine]. *)
Lemma fold_inv_combine (c0 c1 : list scalar_t) (r0 r1 : arg_t scalar_t) :
  fold_inv lt c0 r0 -> fold_inv lt c1 r1 ->
  fold_inv lt (c0 ++ c1)
    (MinMaxReductionOps.combine (or_nan lt) r0
       (MinMaxReductionOps.translate_idx r1 (Z.of_nat (List.length c0)))).
Proof.
  intros (k0 & Hk0 & Hn0 & H0) (k1 & Hk1 & Hn1 & H1).
  assert (Hl0 : (k0 < List.length c0)%nat) by (apply nth_error_Some; congruence).
  assert (Hidx : (second r0 <? second r1 + Z.of_nat (List.length c0)) = true).
  { apply Z.ltb_lt. lia. }
  assert (Hsplit := nth_error_app_cases c0 c1).
  assert (Hright : second r1 + Z.of_nat (List.length c0)
                   = Z.of_nat (List.length c0 + k1)) by lia.
  assert (Hnr : nth_error (c0 ++ c1) (List.length c0 + k1) = Some (first r1)).
  { rewrite nth_error_app2 by lia.
    now replace (List.length c0 + k1 - List.length c0)%nat with k1 by lia. }
  assert (Hnl : nth_error (c0 ++ c1) k0 = Some (first r0)).
  { now rewrite nth_error_app1. }
  unfold MinMaxReductionOps.combine, MinMaxReductionOps.translate_idx, or_nan.
  cbn [first second].
  destruct H0 as [[Hnan0 Hfirst0] | (Hnn0 & Hall0 & Hbefore0 & Hafter0)].
  - (* the left partial is a NaN: it is kept *)
    rewrite Hnan0, Hidx.
    replace (if isnan (first r1) then true else true) with true
      by now destruct (isnan (first r1)).
    exists k0. split; [assumption|]. split; [assumption|].
    left. split; [assumption|]. intros j y Hj Hy.
    destruct (Hsplit j y Hy) as [[_ Hy'] | [Hge _]]; [eauto | lia].
  - rewrite Hnn0.
    destruct H1 as [[Hnan1 Hfirst1] | (Hnn1 & Hall1 & Hbefore1 & Hafter1)].
    + (* only the right partial is a NaN: it is taken *)
      rewrite (eq_nan_r _ _ Hnan1), (son_nan_r lt lt_ok _ _ Hnan1).
      exists (List.length c0 + k1)%nat. cbn [first second].
      split; [assumption|]. split; [assumption|].
      left. split; [assumption|]. intros j y Hj Hy.
      destruct (Hsplit j y Hy) as [[_ Hy'] | [Hge Hy']].
      * apply Hall0. eapply nth_error_In; eauto.
      * apply (Hfirst1 (j - List.length c0)%nat y); [lia | assumption].
    + assert (Hall : forall y, In y (c0 ++ c1) -> isnan y = false).
      { intros y Hy. apply in_app_or in Hy. destruct Hy; auto. }
      assert (Hrel1 : forall j y, nth_error c1 j = Some y ->
                lt (first r1) y = true \/ num_eq (first r1) y = true).
      { intros j y Hy. destruct (Nat.lt_ge_cases j k1); eauto. }
      assert (Hrel0 : forall j y, nth_error c0 j = Some y ->
                lt (first r0) y = true \/ num_eq (first r0) y = true).
      { intros j y Hy. destruct (Nat.lt_ge_cases j k0); eauto. }
      assert (Hkeep : lt (first r0) (first r1) = true
                      \/ num_eq (first r0) (first r1) = true ->
                fold_inv lt (c0 ++ c1) r0).
      { intros Hle. exists k0. split; [assumption|]. split; [assumption|].
        right. split; [assumption|]. split; [assumption|]. split.
        - intros j y Hj Hy.
          destruct (Hsplit j y Hy) as [[_ Hy'] | [Hge _]]; [eauto | lia].
        - intros j y Hj Hy.
          destruct (Hsplit j y Hy) as [[_ Hy'] | [Hge Hy']]; [eauto|].
          destruct (Hrel1 _ _ Hy') as [Hy1 | Hy1], Hle as [Hle | Hle].
          + left. eapply son_trans; eauto.
          + left. eapply eq_lt_trans; eauto.
          + left. eapply son_lt_eq; eauto.
          + right. eapply num_eq_trans; eauto. }
      destruct (num_eq (first r0) (first r1)) eqn:Eeq.
      * rewrite Hidx. auto.
      * destruct (lt (first r0) (first r1)) eqn:Elt; [auto|].
        (* the right partial is strictly better: it is taken *)
        assert (Hbetter : lt (first r1) (first r0) = true).
        { destruct (son_total lt lt_ok _ _ Hnn0 Hnn1) as [E | [E | E]];
            congruence. }
        exists (List.length c0 + k1)%nat. cbn [first second].
        split; [assumption|]. split; [assumption|].
        right. split; [assumption|]. split; [assumption|]. split.
        -- intros j y Hj Hy.
           destruct (Hsplit j y Hy) as [[_ Hy'] | [Hge Hy']].
           ++ destruct (Hrel0 _ _ Hy') as [Hy0 | Hy0].
              ** eapply son_trans; eauto.
              ** eapply son_lt_eq; eauto.
           ++ apply (Hbefore1 (j - List.length c0)%nat y); [lia | assumption].
        -- intros j y Hj Hy.
           destruct (Hsplit j y Hy) as [[Hlt _] | [Hge Hy']]; [lia|].
           apply (Hafter1 (j - List.length c0)%nat y); [lia | assumption].
Qed.

(** At most one accumulator is the extreme of a slice. *)
Lemma extreme_at_unique (slice : list scalar_t) (r r' : arg_t scalar_t) :
  extreme_at lt slice r -> extreme_at lt slice r' -> r = r'.
Proof.
  intros (k & Hk & Hn & H) (k' & Hk' & Hn' & H').
  assert (Hkk : k = k').
  { destruct (existsb isnan slice) eqn:Eex.
    - destruct H as [Hnan Hno], H' as [Hnan' Hno'].
      destruct (Nat.lt_trichotomy k k') as [Hlt | [Heq | Hlt]]; auto.
      + rewrite (Hno' k _ Hlt Hn) in Hnan. discriminate.
      + rewrite (Hno k' _ Hlt Hn') in Hnan'. discriminate.
    - assert (Hnone : forall y, In y slice -> isnan y = false).
      { intros y Hy. destruct (isnan y) eqn:E; auto.
        assert (existsb isnan slice = true) by (apply existsb_exists; eauto).
        congruence. }
      destruct H as [Hmin Hno], H' as [Hmin' Hno'].
      assert (Hin : In (first r) slice) by (eapply nth_error_In; eauto).
      assert (Hin' : In (first r') slice) by (eapply nth_error_In; eauto).
      assert (Heq : num_eq (first r) (first r') = true).
      { destruct (son_total lt lt_ok _ _ (Hnone _ Hin) (Hnone _ Hin'))
          as [E | [E | E]]; auto.
        - rewrite (Hmin' _ Hin) in E. discriminate.
        - rewrite (Hmin _ Hin') in E. discriminate. }
      destruct (Nat.lt_trichotomy k k') as [Hlt | [Hkk | Hlt]]; auto.
      + rewrite (Hno' k _ Hlt Hn) in Heq. discriminate.
      + rewrite eq_symm, (Hno k' _ Hlt Hn') in Heq. discriminate. }
  subst k'. destruct r as [v i], r' as [v' i']. simpl in *.
  f_equal; congruence.
Qed.

Lemma fold_inv_seeded (bound : scalar_t) (slice : list scalar_t) :
  isnan bound = false ->
  (forall a, lt bound a = false) ->
  slice <> [] ->
  fold_inv lt slice (reduce_from (or_nan lt) (mk_arg bound 0) 0 slice).
Proof.
  intros Hb Htop Hne. destruct slice as [| val rest]; [congruence|].
  simpl. rewrite reduce_seed_first by assumption.
  apply (fold_inv_reduce_from rest [val]). apply fold_inv_single.
Qed.

(** The seed moved to the end of a chunk and merged on the right leaves the
    partial of the chunk as it is. *)
Lemma combine_seed_right (bound : scalar_t) (c0 : list scalar_t)
      (r0 : arg_t scalar_t) :
  isnan bound = false ->
  (forall a, lt bound a = false) ->
  fold_inv lt c0 r0 ->
  MinMaxReductionOps.combine (or_nan lt) r0
    (MinMaxReductionOps.translate_idx (mk_arg bound 0)
                                      (Z.of_nat (List.length c0))) = r0.
Proof.
  intros Hb Htop (k0 & Hk0 & Hn0 & H0).
  assert (Hl0 : (k0 < List.length c0)%nat) by (apply nth_error_Some; congruence).
  unfold MinMaxReductionOps.combine, MinMaxReductionOps.translate_idx, or_nan.
  cbn [first second].
  replace (second r0 <? 0 + Z.of_nat (List.length c0)) with true
    by (symmetry; apply Z.ltb_lt; lia).
  rewrite Hb.
  destruct (isnan (first r0)) eqn:Enan; [reflexivity|].
  destruct (num_eq (first r0) bound) eqn:Eeq; [reflexivity|].
  destruct (son_total lt lt_ok _ _ Enan Hb) as [E | [E | E]].
  - congruence.
  - now rewrite E.
  - rewrite Htop in E. discriminate.
Qed.

(** The seed merged on the left of the partial of a chunk that starts at
    position 0 leaves the partial as it is. *)
Lemma combine_seed_left_partial (bound : scalar_t) (c1 : list scalar_t)
      (r1 : arg_t scalar_t) :
  isnan bound = false ->
  (forall a, lt bound a = false) ->
  fold_inv lt c1 r1 ->
  MinMaxReductionOps.combine (or_nan lt) (mk_arg bound 0)
    (MinMaxReductionOps.translate_idx r1 0) = r1.
Proof.
  intros Hb Htop (k1 & Hk1 & Hn1 & H1).
  assert (Htr : MinMaxReductionOps.translate_idx r1 0 = r1).
  { unfold MinMaxReductionOps.translate_idx. destruct r1 as [v i]. simpl.
    now rewrite Z.add_0_r. }
  rewrite Htr. apply combine_seed_left; try assumption.
  destruct (num_eq bound (first r1)) eqn:Eeq; [right | now left].
  destruct k1 as [| k1]; [lia|]. exfalso.
  destruct H1 as [[Hnan1 _] | (_ & _ & Hbefore1 & _)].
  - rewrite (eq_nan_r _ _ Hnan1) in Eeq. discriminate.
  - destruct c1 as [| y c1]; [discriminate|].
    assert (Hy : lt (first r1) y = true) by (apply (Hbefore1 0%nat y); [lia | reflexivity]).
    assert (Hby : lt bound y = true) by (eapply eq_lt_trans; eauto).
    rewrite Htop in Hby. discriminate.
Qed.

(** Splitting a slice into two chunks, folding each from the seed with local
    positions and merging the partials gives the result of the fold over the
    whole slice. *)
Lemma reduce_two_chunks_slice (bound : scalar_t) (c0 c1 : list scalar_t) :
  isnan bound = false ->
  (forall a, lt bound a = false) ->
  reduce_two_chunks (or_nan lt) (mk_arg bound 0) c0 c1
  = reduce_slice (or_nan lt) (mk_arg bound 0) (c0 ++ c1).
Proof.
  intros Hb Htop.
  unfold reduce_two_chunks, reduce_slice, MinMaxReductionOps.project.
  destruct c0 as [| x0 c0'].
  - destruct c1 as [| x1 c1'].
    + simpl. unfold MinMaxReductionOps.combine, or_nan. simpl.
      rewrite Hb, (num_eq_refl bound Hb). reflexivity.
    + cbn [List.length Z.of_nat app].
      apply (combine_seed_left_partial bound (x1 :: c1')); try assumption.
      apply fold_inv_seeded; [assumption | assumption | discriminate].
  - destruct c1 as [| x1 c1'].
    + rewrite app_nil_r.
      change (reduce_from (or_nan lt) (mk_arg bound 0) 0 [])
        with (mk_arg bound 0).
      apply (combine_seed_right bound (x0 :: c0')); try assumption.
      apply fold_inv_seeded; [assumption | assumption | discriminate].
    + apply extreme_at_unique with (slice := (x0 :: c0') ++ x1 :: c1').
      * apply fold_inv_extreme. apply fold_inv_combine;
          apply fold_inv_seeded; try assumption; discriminate.
      * apply fold_inv_extreme.
        apply fold_inv_seeded; try assumption; discriminate.
Qed.
End FoldAnalysis.

(** ** The two instances satisfy the laws *)

Ltac compare_cases :=
  repeat match goal with
         | |- context [Z.compare ?a ?b] => destruct (Z.compare_spec a b)
         | |- context [Pos.compare_cont Eq ?a ?b] =>
             change (Pos.compare_cont Eq a b) with (Pos.compare a b);
             destruct (Pos.compare_spec a b)
         end.

Ltac sf_law :=
  simpl; unfold SFltb, SFeqb, SFcompare; simpl;
  repeat match goal with
         | |- forall x : spec_float, _ => intros [[] | [] | | [] ? ?]
         end;
  simpl; compare_cases; simpl; intros;
  try discriminate; try reflexivity; try (exfalso; lia); try lia; auto.

#[export] Instance NumericsLaws_float : NumericsLaws spec_float.
Proof.
  constructor.
  - reflexivity.
  - sf_law.
  - sf_law.
  - sf_law.
  - sf_law.
  - sf_law.
  - sf_law; subst; auto.
  - sf_law.
  - sf_law.
  - sf_law.
  - sf_law.
  - sf_law.
  - reflexivity.
  - reflexivity.
  - sf_law.
  - sf_law.
Qed.

Lemma int64_val_bounds (x : int64_t) : INT64_MIN <= int64_val x <= INT64_MAX.
Proof.
  destruct x as [z Hz]. simpl. apply andb_prop in Hz. destruct Hz as [H1 H2].
  apply Z.leb_le in H1, H2. lia.
Qed.

Ltac int64_law :=
  simpl; intros;
  repeat match goal with
         | x : int64_t |- _ =>
             lazymatch goal with
             | _ : INT64_MIN <= int64_val x <= INT64_MAX |- _ => fail
             | _ => pose proof (int64_val_bounds x)
             end
         end;
  rewrite ?Z.gtb_ltb in *;
  repeat match goal with
         | H : context [?a =? ?b] |- _ => destruct (Z.eqb_spec a b)
         | |- context [?a =? ?b] => destruct (Z.eqb_spec a b)
         | H : context [?a <? ?b] |- _ => destruct (Z.ltb_spec a b)
         | |- context [?a <? ?b] => destruct (Z.ltb_spec a b)
         end;
  try discriminate; try reflexivity; auto;
  try (exfalso; unfold INT64_MAX, INT64_MIN in *; simpl in *; lia).

#[export] Instance NumericsLaws_int64 : NumericsLaws int64_t.
Proof.
  constructor; int64_law.
Qed.

(** ** Results on the indexed min/max reduction *)

(** The example of the spec: indexed-max over [3, 1, 3, 2] returns value 3
    and index 0. *)
Example max_slice_3_1_3_2 :
  max_slice [int64_3; int64_1; int64_3; int64_2] = mk_arg int64_3 0.
Proof. reflexivity. Qed.

Example min_slice_3_1_3_2 :
  min_slice [int64_3; int64_1; int64_3; int64_2] = mk_arg int64_1 1.
Proof. reflexivity. Qed.

(** A NaN dominates, and the first NaN is reported. *)
Example min_slice_with_nans :
  min_slice [f32_of_Z 3; S754_nan; f32_of_Z 1; S754_nan] = mk_arg S754_nan 1.
Proof. reflexivity. Qed.

Example max_slice_with_nans :
  max_slice [f32_of_Z 3; S754_nan; f32_of_Z 1; S754_nan] = mk_arg S754_nan 1.
Proof. reflexivity. Qed.

Lemma min_max_slice_extreme {scalar_t : Type} `{L : NumericsLaws scalar_t}
      (slice : list scalar_t) :
  slice <> [] ->
  extreme_at num_lt slice (min_slice slice) /\
  extreme_at num_gt slice (max_slice slice).
Proof.
  intros Hne. split.
  - unfold min_slice, MinOps.ident. rewrite LessOrNan_or_nan.
    apply reduce_slice_extreme;
      auto using StrictOrNan_lt, eq_sym, nan_eq_r, upper_not_nan, upper_is_top.
  - unfold max_slice, MaxOps.ident. rewrite GreaterOrNan_or_nan.
    apply reduce_slice_extreme;
      auto using StrictOrNan_gt, eq_sym, nan_eq_r, lower_not_nan.
    intros a. rewrite gt_is_flipped_lt. apply lower_is_bottom.
Qed.

(** The result does not depend on the slice being reduced in one pass or
    cut into two chunks that are reduced apart and merged. *)
Lemma min_max_two_chunks {scalar_t : Type} `{L : NumericsLaws scalar_t}
      (chunk0 chunk1 : list scalar_t) :
  reduce_two_chunks (@LessOrNan scalar_t _) MinOps.ident chunk0 chunk1
  = min_slice (chunk0 ++ chunk1) /\
  reduce_two_chunks (@GreaterOrNan scalar_t _) MaxOps.ident chunk0 chunk1
  = max_slice (chunk0 ++ chunk1).
Proof.
  split.
  - unfold min_slice, MinOps.ident. rewrite LessOrNan_or_nan.
    apply reduce_two_chunks_slice;
      auto using StrictOrNan_lt, eq_sym, nan_eq_r, upper_not_nan, upper_is_top.
  - unfold max_slice, MaxOps.ident. rewrite GreaterOrNan_or_nan.
    apply reduce_two_chunks_slice;
      auto using StrictOrNan_gt, eq_sym, nan_eq_r, lower_not_nan.
    intros a. rewrite gt_is_flipped_lt. apply lower_is_bottom.
Qed.

Example min_two_chunks_with_nans :
  reduce_two_chunks (@LessOrNan spec_float _) MinOps.ident
                    [f32_of_Z 3; S754_nan] [f32_of_Z 1; S754_nan]
  = mk_arg S754_nan 1.
Proof. reflexivity. Qed.

(** C1: for every non-empty tensor and every reduction axis, at every
    output position the indexed-min (resp. indexed-max) operator returns a
    value that is the element of the slice at the returned index and that no
    element of the slice is strictly below (resp. above), the index being
    the smallest one whose element equals that value; if the slice holds a
    NaN, the returned value is a NaN and the returned index is the smallest
    index of a NaN. *)
Theorem indexed_min_max_extreme :
  forall (scalar_t : Type) (N : Numerics scalar_t)
         (L : NumericsLaws scalar_t)
         (data : nat -> scalar_t) (dim_size inner_size o i : nat),
    (1 <= dim_size)%nat ->
    extreme_at num_lt (axis_slice data dim_size inner_size o i)
               (min_along_axis data dim_size inner_size o i) /\
    extreme_at num_gt (axis_slice data dim_size inner_size o i)
               (max_along_axis data dim_size inner_size o i).
Proof.
  intros scalar_t N L data dim_size inner_size o i Hdim.
  unfold min_along_axis, max_along_axis.
  apply min_max_slice_extreme.
  unfold axis_slice. destruct dim_size; [lia | discriminate].
Qed.

Lemma indexed_min_max_extreme_witness :
  (1 <= 4)%nat /\
  axis_slice tensor_example 4 1 0 0
  = [f32_of_Z 3; S754_nan; f32_of_Z 1; S754_nan] /\
  (extreme_at num_lt (axis_slice tensor_example 4 1 0 0)
              (min_along_axis tensor_example 4 1 0 0) /\
   extreme_at num_gt (axis_slice tensor_example 4 1 0 0)
              (max_along_axis tensor_example 4 1 0 0)).
Proof.
  split; [lia|]. split; [reflexivity|].
  apply (indexed_min_max_extreme spec_float Numerics_float NumericsLaws_float).
  lia.
Defined.

(** C8, as stated, fails: merging the seed of indexed-min with the
    accumulator (+infinity, 1) returns the seed (+infinity, 0). *)
Lemma combine_seed_not_neutral :
  MinOps.combine MinOps.ident (mk_arg (S754_infinity false) 1)
  <> mk_arg (S754_infinity false) 1.
Proof.
  vm_compute. intros Heq. discriminate Heq.
Qed.

(** C8 (amended): indexed-min is seeded with (upper bound, 0) and
    indexed-max with (lower bound, 0).  [combine] with the seed on the left
    returns the other accumulator [p] whenever the value of [p] does not
    equal the seed's value or the index of [p] is 0 (it returns the seed for
    a [p] made of the bound and a positive index).  For a non-empty slice the
    seeded fold equals the fold over the elements alone. *)
Theorem seed_is_neutral :
  forall (scalar_t : Type) (N : Numerics scalar_t)
         (L : NumericsLaws scalar_t),
    @MinOps.ident scalar_t N = mk_arg upper_bound 0 /\
    @MaxOps.ident scalar_t N = mk_arg lower_bound 0 /\
    (forall p : arg_t scalar_t,
        num_eq upper_bound (first p) = false \/ second p <= 0 ->
        MinOps.combine MinOps.ident p = p) /\
    (forall p : arg_t scalar_t,
        num_eq lower_bound (first p) = false \/ second p <= 0 ->
        MaxOps.combine MaxOps.ident p = p) /\
    (forall slice : list scalar_t,
        slice <> [] ->
        reduce_unseeded (@LessOrNan scalar_t N) slice = Some (min_slice slice) /\
        reduce_unseeded (@GreaterOrNan scalar_t N) slice = Some (max_slice slice)).
Proof.
  intros scalar_t N L.
  assert (Hlow : forall a : scalar_t, num_gt lower_bound a = false).
  { intros a. rewrite gt_is_flipped_lt. apply lower_is_bottom. }
  split; [reflexivity|]. split; [reflexivity|]. split; [|split].
  - intros p Hp. unfold MinOps.combine, MinOps.ident. rewrite LessOrNan_or_nan.
    apply combine_seed_left; auto using upper_not_nan, upper_is_top.
  - intros p Hp. unfold MaxOps.combine, MaxOps.ident. rewrite GreaterOrNan_or_nan.
    apply combine_seed_left; auto using lower_not_nan.
  - intros slice Hne. split.
    + unfold min_slice, MinOps.ident. rewrite LessOrNan_or_nan.
      apply reduce_slice_unseeded; auto using upper_not_nan, upper_is_top.
    + unfold max_slice, MaxOps.ident. rewrite GreaterOrNan_or_nan.
      apply reduce_slice_unseeded; auto using lower_not_nan.
Qed.

Lemma seed_is_neutral_witness :
  MinOps.combine MinOps.ident (mk_arg (f32_of_Z 3) 5) = mk_arg (f32_of_Z 3) 5 /\
  reduce_unseeded (@LessOrNan spec_float _) [f32_of_Z 3; f32_of_Z 1]
  = Some (min_slice [f32_of_Z 3; f32_of_Z 1]).
Proof.
  destruct (seed_is_neutral spec_float Numerics_float NumericsLaws_float)
    as (_ & _ & Hmin & _ & Hfold).
  split.
  - apply Hmin. left. reflexivity.
  - apply Hfold. discriminate.
Defined.

(** ** The entry points *)

(** C9: for an empty input, [_min_out] / [_max_out] hand the outputs to the
    framework's resize helper and launch no reduction kernel; for a
    single-element input the index output is filled with 0 and no reduction
    kernel is launched, and a complex single-element input is rejected with
    an error; no complex input ever reaches the reduction kernel. *)
Theorem min_max_out_edge_cases :
  forall (self : Tensor) (dim_ : Z) (keepdim : bool),
    (numel self = 0 ->
     launches_reduce_kernel (_min_out self dim_ keepdim) = false /\
     launches_reduce_kernel (_max_out self dim_ keepdim) = false /\
     forall d, maybe_wrap_dim dim_ (dim self) = Some d ->
               _min_out self dim_ keepdim = zero_numel_tensor_resize d keepdim "min()" /\
               _max_out self dim_ keepdim = zero_numel_tensor_resize d keepdim "max()") /\
    (numel self = 1 ->
     launches_reduce_kernel (_min_out self dim_ keepdim) = false /\
     launches_reduce_kernel (_max_out self dim_ keepdim) = false /\
     forall d, maybe_wrap_dim dim_ (dim self) = Some d ->
               if is_complex self then
                 _min_out self dim_ keepdim
                 = check_failed "min does not support complex inputs." /\
                 _max_out self dim_ keepdim
                 = check_failed "max does not support complex inputs."
               else
                 _min_out self dim_ keepdim = trivial_result 0 /\
                 _max_out self dim_ keepdim = trivial_result 0) /\
    (is_complex self = true ->
     launches_reduce_kernel (_min_out self dim_ keepdim) = false /\
     launches_reduce_kernel (_max_out self dim_ keepdim) = false /\
     (numel self <> 0 ->
      raises_error (_min_out self dim_ keepdim) = true /\
      raises_error (_max_out self dim_ keepdim) = true)).
Proof.
  intros self dim_ keepdim. unfold _min_out, _max_out, _dimreduce_return_trivial_no_ident.
  split; [|split].
  - intros Hn. rewrite Hn. simpl.
    destruct (maybe_wrap_dim dim_ (dim self)) as [d |]; simpl.
    + split; [reflexivity|]. split; [reflexivity|].
      intros d' Hd. injection Hd as <-. split; reflexivity.
    + split; [reflexivity|]. split; [reflexivity|]. intros d' Hd. discriminate.
  - intros Hn. rewrite Hn. simpl.
    destruct (maybe_wrap_dim dim_ (dim self)) as [d |]; simpl.
    + destruct (is_complex self); simpl; (split; [reflexivity|]);
        (split; [reflexivity|]); intros d' Hd; split; reflexivity.
    + destruct (is_complex self); simpl; (split; [reflexivity|]);
        (split; [reflexivity|]); intros d' Hd; discriminate.
  - intros Hc. unfold is_complex in *. rewrite Hc.
    assert (Hd : dispatch_all_types_and3 (scalar_type self) = false).
    { destruct (scalar_type self); simpl in *; try discriminate; reflexivity. }
    rewrite Hd.
    destruct (maybe_wrap_dim dim_ (dim self)) as [d |]; simpl.
    + destruct (Z.eqb_spec (numel self) 0) as [E | E]; simpl.
      * split; [reflexivity|]. split; [reflexivity|]. intros; contradiction.
      * destruct (numel self =? 1); simpl; (split; [reflexivity|]);
          (split; [reflexivity|]); intros _; split; reflexivity.
    + split; [reflexivity|]. split; [reflexivity|]. intros _; split; reflexivity.
Qed.

Lemma min_max_out_edge_cases_witness :
  (numel (mkTensor [0; 3] kFloat) = 0 /\
   _min_out (mkTensor [0; 3] kFloat) 1 false
   = zero_numel_tensor_resize 1 false "min()") /\
  (numel (mkTensor [] kFloat) = 1 /\
   _max_out (mkTensor [] kFloat) 0 false = trivial_result 0) /\
  (is_complex (mkTensor [2; 2] kComplexFloat) = true /\
   raises_error (_min_out (mkTensor [2; 2] kComplexFloat) 0 false) = true).
Proof.
  split; [|split].
  - split; [reflexivity|].
    destruct (min_max_out_edge_cases (mkTensor [0; 3] kFloat) 1 false)
      as (H0 & _ & _).
    destruct (H0 eq_refl) as (_ & _ & Hres).
    exact (proj1 (Hres 1 eq_refl)).
  - split; [reflexivity|].
    destruct (min_max_out_edge_cases (mkTensor [] kFloat) 0 false)
      as (_ & H1 & _).
    destruct (H1 eq_refl) as (_ & _ & Hres).
    exact (proj2 (Hres 0 eq_refl)).
  - split; [reflexivity|].
    destruct (min_max_out_edge_cases (mkTensor [2; 2] kComplexFloat) 0 false)
      as (_ & _ & Hc).
    destruct (Hc eq_refl) as (_ & _ & Herr).
    apply Herr. discriminate.
Defined.

(* ===================================================================== *)
(** * Part VI: dispatch and launch parameters, proofs                     *)
(* ===================================================================== *)

Lemma max_vec_size_cases (t : FloatingType) :
  max_vec_size t = 2 \/ max_vec_size t = 4 \/ max_vec_size t = 8.
Proof. destruct t; vm_compute; auto. Qed.

Lemma forward_fast_path_is_dispatch (t : FloatingType) (SIMD : Z) (a : SoftmaxArgs) :
  exists v s o, forward_fast_path t SIMD a = (v, s, o).
Proof.
  destruct (forward_fast_path t SIMD a) as [[v s] o]. eauto.
Qed.

Ltac strategy_cases :=
  repeat match goal with
         | |- _ /\ _ => split
         | |- _ <-> _ => split
         end;
  intros;
  repeat match goal with
         | H : _ /\ _ |- _ => destruct H
         end;
  try discriminate; try reflexivity; try lia;
  try match goal with
      | H : ~ _ |- _ => exfalso; apply H; split; [reflexivity | lia]
      end;
  try (split; [assumption|]; intros [? ?]; try discriminate; lia).

(** C2: the forward dispatcher selects the register-resident kernel exactly
    when inner_size == 1, 32-bit indexing is possible and
    max_work_group_size * INNER_LOOP >= dim_size; the streaming kernel
    exactly when inner_size == 1 and one of the other two conditions fails;
    the spatial kernel exactly when inner_size > 1. *)
Theorem forward_dispatch_strategy :
  forall (t : FloatingType) (dev : Device) (a : SoftmaxArgs),
    1 <= inner_size a ->
    let INNER_LOOP := max_vec_size t * 2 in
    let fits := can_use_32bit_index a = true /\
                dpcppMaxWorkGroupSize dev * INNER_LOOP >= dim_size a in
    let launch := SpatialSoftMaxForward t dev a in
    (strategy_of launch = register_resident <-> inner_size a = 1 /\ fits) /\
    (strategy_of launch = streaming <-> inner_size a = 1 /\ ~ fits) /\
    (strategy_of launch = spatial <-> inner_size a > 1).
Proof.
  intros t dev a Hinner INNER_LOOP fits launch.
  subst launch fits INNER_LOOP. unfold SpatialSoftMaxForward.
  destruct (forward_fast_path_is_dispatch
              t (decide_SIMD dev (dim_size a) (max_vec_size t * 2)) a)
    as (v & s & o & Hfast).
  rewrite Hfast.
  destruct (Z.eqb_spec (inner_size a) 1) as [E1 | E1];
    destruct (can_use_32bit_index a) eqn:E32;
    destruct (Z.geb_spec (dpcppMaxWorkGroupSize dev * (max_vec_size t * 2))
                         (dim_size a)) as [Eg | Eg];
    destruct (input_start a =? output_start a);
    destruct (Z.rem (inner_size a) (max_vec_size t) =? 0);
    simpl; strategy_cases.
Qed.

Lemma forward_dispatch_strategy_witness :
  1 <= inner_size (mkSoftmaxArgs 1 1000 64 0 0 true) /\
  strategy_of (SpatialSoftMaxForward Float (mkDevice 1024 32 65536)
                                     (mkSoftmaxArgs 1 1000 64 0 0 true))
  = register_resident.
Proof.
  split; [simpl; lia|].
  apply (proj1 (forward_dispatch_strategy
                  Float (mkDevice 1024 32 65536)
                  (mkSoftmaxArgs 1 1000 64 0 0 true) ltac:(simpl; lia))).
  simpl. split; [reflexivity|]. split; [reflexivity|]. vm_compute. discriminate.
Defined.

(** ** The loops of [get_wgroup_size] terminate *)

Lemma wgroup_row_loop_terminates (fuel : nat) :
  forall maxWGSize col g l,
    g < 2 ^ Z.of_nat fuel ->
    exists r, wgroup_row_loop fuel maxWGSize col g l = Some r.
Proof.
  induction fuel as [| fuel IH]; intros maxWGSize col g l Hg.
  - cbn [wgroup_row_loop]. change (2 ^ Z.of_nat 0) with 1 in Hg.
    assert (Hs : Z.shiftr g 1 <= 0).
    { rewrite Z.shiftr_div_pow2 by lia. change (2 ^ 1) with 2.
      apply Z.div_le_upper_bound; lia. }
    replace (Z.shiftr g 1 >? MIN_WG_NUM) with false
      by (symmetry; rewrite Z.gtb_ltb; apply Z.ltb_ge; unfold MIN_WG_NUM; lia).
    simpl. eauto.
  - cbn [wgroup_row_loop].
    destruct ((Z.shiftr g 1 >? MIN_WG_NUM)
              && (Z.shiftl l 1 * col <=? maxWGSize)
              && (Z.rem g 2 =? 0)); [|eauto].
    apply IH. rewrite Z.shiftr_div_pow2 by lia. change (2 ^ 1) with 2.
    rewrite Nat2Z.inj_succ, Z.pow_succ_r in Hg by lia.
    apply Z.div_lt_upper_bound; lia.
Qed.

Lemma wgroup_range_loop_terminates (fuel : nat) :
  forall sub_group_num range,
    1 <= sub_group_num ->
    range < 2 ^ Z.of_nat fuel ->
    exists r, wgroup_range_loop fuel sub_group_num range = Some r.
Proof.
  induction fuel as [| fuel IH]; intros s range Hs Hr.
  - cbn [wgroup_range_loop]. change (2 ^ Z.of_nat 0) with 1 in Hr.
    assert (Hsh : Z.shiftr range 1 <= 0).
    { rewrite Z.shiftr_div_pow2 by lia. change (2 ^ 1) with 2.
      apply Z.div_le_upper_bound; lia. }
    replace (s <=? Z.shiftr range 1) with false
      by (symmetry; apply Z.leb_gt; lia).
    eauto.
  - cbn [wgroup_range_loop]. destruct (s <=? Z.shiftr range 1); [|eauto].
    apply IH; [assumption|].
    rewrite Z.shiftr_div_pow2 by lia. change (2 ^ 1) with 2.
    rewrite Nat2Z.inj_succ, Z.pow_succ_r in Hr by lia.
    apply Z.div_lt_upper_bound; lia.
Qed.

(** The work group chosen by [get_wgroup_size] covers the row as soon as
    [vec_size * NUM] times the device limit or times the sub-group width
    reaches [dim_size]. *)
Lemma get_wgroup_size_covers (SIMD vec_size NUM maxWGSize dim_size outer_size : Z) :
  0 < SIMD < 2 ^ 32 ->
  0 < vec_size * NUM ->
  1 <= maxWGSize ->
  1 <= dim_size ->
  outer_size < 2 ^ 32 ->
  dim_size <= vec_size * NUM * maxWGSize \/ dim_size <= vec_size * NUM * SIMD ->
  exists w,
    get_wgroup_size SIMD vec_size NUM maxWGSize dim_size outer_size = Some w /\
    vec_size * NUM * local_size_col w >= dim_size.
Proof.
  intros HS Hc HW Hd Ho Hcov. unfold get_wgroup_size.
  rewrite (Z.mul_comm NUM vec_size).
  set (c := vec_size * NUM) in *.
  destruct (Z.leb_spec dim_size c) as [Hle | Hgt].
  - eexists. split; [reflexivity|]. simpl. lia.
  - set (ls := Z.min (Z.quot (dim_size + c - 1) c) maxWGSize).
    set (sgn := Z.quot (ls + SIMD - 1) SIMD).
    assert (Hq : Z.quot (dim_size + c - 1) c = (dim_size + c - 1) / c)
      by (apply Z.quot_div_nonneg; lia).
    assert (Hq1 : c * ((dim_size + c - 1) / c) >= dim_size).
    { pose proof (Z.div_mod (dim_size + c - 1) c ltac:(lia)).
      pose proof (Z.mod_pos_bound (dim_size + c - 1) c ltac:(lia)). lia. }
    assert (Hq2 : 1 <= (dim_size + c - 1) / c).
    { apply Z.div_le_lower_bound; lia. }
    assert (Hls : 1 <= ls) by (subst ls; rewrite Hq; lia).
    assert (Hsg : sgn = (ls + SIMD - 1) / SIMD)
      by (apply Z.quot_div_nonneg; lia).
    assert (Hsg1 : sgn * SIMD >= ls).
    { rewrite Hsg.
      pose proof (Z.div_mod (ls + SIMD - 1) SIMD ltac:(lia)).
      pose proof (Z.mod_pos_bound (ls + SIMD - 1) SIMD ltac:(lia)). lia. }
    assert (Hsg2 : 1 <= sgn).
    { rewrite Hsg. apply Z.div_le_lower_bound; lia. }
    destruct (wgroup_row_loop_terminates int_bits maxWGSize (sgn * SIMD)
                                         outer_size 1) as [[g l] Hrow].
    { exact Ho. }
    destruct (wgroup_range_loop_terminates int_bits sgn SIMD Hsg2) as [r Hrange].
    { exact (proj2 HS). }
    rewrite Hrow, Hrange. eexists. split; [reflexivity|]. simpl.
    assert (Hsimd : sgn * SIMD >= SIMD) by nia.
    destruct (Z.le_gt_cases ((dim_size + c - 1) / c) maxWGSize) as [Hfit | Hcut].
    + assert (ls = (dim_size + c - 1) / c) by (subst ls; rewrite Hq; lia). nia.
    + assert (ls = maxWGSize) by (subst ls; rewrite Hq; lia).
      destruct Hcov as [Hcov | Hcov]; nia.
Qed.

(** C7: whenever the forward dispatcher selects the register-resident
    kernel, [get_wgroup_size] returns launch parameters with
    vec_size * outer_loop * work_group_size >= dim_size, for every element
    type, alignment and dim_size (on a device whose sub-group width is 16 or
    32). *)
Theorem register_resident_covers_row :
  forall (t : FloatingType) (dev : Device) (a : SoftmaxArgs)
         (INNER_LOOP vec_size SIMD outer_loop : Z),
    subgroup_sizes_1 dev = SIMD16 \/ subgroup_sizes_1 dev = SIMD32 ->
    1 <= dpcppMaxWorkGroupSize dev ->
    1 <= dim_size a ->
    outer_size a < 2 ^ 31 ->
    SpatialSoftMaxForward t dev a
    = dispatch_softmax_forward_kernel INNER_LOOP vec_size SIMD outer_loop ->
    exists w,
      forward_launch_wgroup dev a (SpatialSoftMaxForward t dev a) = Some w /\
      vec_size * outer_loop * local_size_col w >= dim_size a.
Proof.
  intros t dev a INNER_LOOP vec_size SIMD outer_loop Hdev HW Hd Ho Hsel.
  rewrite Hsel. simpl.
  unfold SpatialSoftMaxForward in Hsel.
  destruct (inner_size a =? 1); [|
    destruct (can_use_32bit_index a);
    destruct ((input_start a =? output_start a)
              && (Z.rem (inner_size a) (max_vec_size t) =? 0)); discriminate].
  destruct (can_use_32bit_index a); simpl in Hsel;
    [| destruct (input_start a =? output_start a); discriminate].
  destruct (Z.geb_spec (dpcppMaxWorkGroupSize dev * (max_vec_size t * 2))
                       (dim_size a)) as [Hfit | Hfit];
    [| destruct (input_start a =? output_start a); discriminate].
  assert (Ho' : outer_size a < 2 ^ 32).
  { eapply Z.lt_trans; [exact Ho | reflexivity]. }
  assert (Hsimd : decide_SIMD dev (dim_size a) (max_vec_size t * 2) = SIMD32
                  \/ decide_SIMD dev (dim_size a) (max_vec_size t * 2) = SIMD16).
  { unfold decide_SIMD. destruct Hdev as [-> | ->].
    - right. reflexivity.
    - change (SIMD32 =? SIMD32) with true. cbv iota.
      destruct (dim_size a <? SIMD16 * (max_vec_size t * 2)); auto. }
  unfold forward_fast_path in Hsel.
  set (aligned := (input_start a =? 0) && (output_start a =? 0)
                  && (Z.rem (dim_size a) (max_vec_size t) =? 0)) in Hsel.
  destruct Hsimd as [HS | HS]; rewrite HS in Hsel;
    destruct (max_vec_size_cases t) as [E | [E | E]]; rewrite E in *;
    unfold SIMD16, SIMD32 in *; simpl in Hsel;
    destruct aligned;
    repeat match type of Hsel with
           | context [Z.leb ?x ?y] => destruct (Z.leb_spec x y); simpl in Hsel
           end;
    injection Hsel as <- <- <- <-;
    apply get_wgroup_size_covers; try assumption;
    try (split; reflexivity); try reflexivity;
    repeat match goal with
           | |- context [Z.quot ?x ?y] =>
               let v := eval vm_compute in (Z.quot x y) in
               change (Z.quot x y) with v
           end;
    try (left; lia); try (right; lia).
Qed.

Lemma register_resident_covers_row_witness :
  exists w,
    forward_launch_wgroup
      (mkDevice 1024 32 65536) (mkSoftmaxArgs 1 1000 64 0 0 true)
      (SpatialSoftMaxForward Float (mkDevice 1024 32 65536)
                             (mkSoftmaxArgs 1 1000 64 0 0 true)) = Some w /\
    4 * 2 * local_size_col w >= dim_size (mkSoftmaxArgs 1 1000 64 0 0 true).
Proof.
  apply (register_resident_covers_row
           Float (mkDevice 1024 32 65536) (mkSoftmaxArgs 1 1000 64 0 0 true)
           8 4 32 2).
  - right. reflexivity.
  - simpl. lia.
  - simpl. lia.
  - reflexivity.
  - reflexivity.
Defined.

(** The launch parameters of that example. *)
Example get_wgroup_size_float_1000 :
  get_wgroup_size 32 4 2 1024 1000 64
  = Some (mk_wgroup 4 (Some 4) 64 1 128).
Proof. reflexivity. Qed.

(** X6: whenever the backward dispatcher selects the register-resident
    kernel, whose work items load
    [NUM = INNER_LOOP / vec_size * (SIMD32 / SIMD)] vectors each, the vector
    width divides [dim_size] and [get_wgroup_size] returns launch parameters
    with vec_size * NUM * work_group_size >= dim_size: every element of the
    row is loaded by some work item (on a device whose sub-group width is 16
    or 32). *)
Theorem backward_register_resident_covers_row
      (t : FloatingType) (dev : Device) (a : SoftmaxBackwardArgs)
      (INNER_LOOP vec_size SIMD : Z) :
  subgroup_sizes_1 dev = SIMD16 \/ subgroup_sizes_1 dev = SIMD32 ->
  1 <= dpcppMaxWorkGroupSize dev ->
  1 <= bw_dim_size a ->
  bw_outer_size a < 2 ^ 31 ->
  SpatialSoftMaxBackward t dev a
  = dispatch_softmax_backward_kernel INNER_LOOP vec_size SIMD ->
  Z.rem (bw_dim_size a) vec_size = 0 /\
  exists w,
    get_wgroup_size SIMD vec_size (backward_NUM INNER_LOOP vec_size SIMD)
                    (dpcppMaxWorkGroupSize dev) (bw_dim_size a) (bw_outer_size a)
    = Some w /\
    vec_size * backward_NUM INNER_LOOP vec_size SIMD * local_size_col w
    >= bw_dim_size a.
Proof.
  intros Hdev HW Hd Ho Hsel.
  unfold SpatialSoftMaxBackward in Hsel.
  destruct (bw_inner_size a =? 1); [|
    destruct ((gradin_start a =? bw_output_start a)
              && (gradin_start a =? gradoutput_start a)
              && (Z.rem (bw_inner_size a) (max_vec_size t) =? 0)); discriminate].
  destruct (bw_can_use_32bit_index a); simpl in Hsel;
    [| destruct ((gradin_start a =? bw_output_start a)
                 && (gradin_start a =? gradoutput_start a)); discriminate].
  destruct (Z.geb_spec (dpcppMaxWorkGroupSize dev * max_vec_size t)
                       (bw_dim_size a)) as [Hfit | Hfit];
    [| destruct ((gradin_start a =? bw_output_start a)
                 && (gradin_start a =? gradoutput_start a)); discriminate].
  assert (Ho' : bw_outer_size a < 2 ^ 32).
  { eapply Z.lt_trans; [exact Ho | reflexivity]. }
  assert (Hsimd : decide_SIMD dev (bw_dim_size a) (max_vec_size t) = SIMD32
                  \/ decide_SIMD dev (bw_dim_size a) (max_vec_size t) = SIMD16).
  { unfold decide_SIMD. destruct Hdev as [-> | ->].
    - right. reflexivity.
    - change (SIMD32 =? SIMD32) with true. cbv iota.
      destruct (bw_dim_size a <? SIMD16 * max_vec_size t); auto. }
  unfold backward_fast_path in Hsel.
  destruct ((gradin_start a =? 0) && (bw_output_start a =? 0)
            && (gradoutput_start a =? 0)) eqn:Estart; simpl in Hsel;
    destruct (Z.eqb_spec (Z.rem (bw_dim_size a) (max_vec_size t)) 0) as [Hrem | Hrem];
    simpl in Hsel;
    destruct Hsimd as [HS | HS]; rewrite HS in Hsel;
    destruct (max_vec_size_cases t) as [E | [E | E]]; rewrite E in *;
    unfold SIMD16, SIMD32 in *; simpl in Hsel;
    injection Hsel as <- <- <-;
    (split; [try assumption; apply Z.rem_1_r|]);
    apply get_wgroup_size_covers; try assumption;
    try (split; reflexivity); try reflexivity;
    unfold backward_NUM, SIMD32;
    repeat match goal with
           | |- context [Z.quot ?x ?y] =>
               let v := eval vm_compute in (Z.quot x y) in
               change (Z.quot x y) with v
           end;
    try (left; lia); try (right; lia).
Qed.

Lemma backward_register_resident_covers_row_witness :
  Z.rem (bw_dim_size (mkSoftmaxBackwardArgs 1 1000 64 0 0 0 true)) 4 = 0 /\
  exists w,
    get_wgroup_size 32 4 (backward_NUM 4 4 32) 1024 1000 64 = Some w /\
    4 * backward_NUM 4 4 32 * local_size_col w >= 1000.
Proof.
  apply (backward_register_resident_covers_row
           Float (mkDevice 1024 32 65536)
           (mkSoftmaxBackwardArgs 1 1000 64 0 0 0 true) 4 4 32).
  - right. reflexivity.
  - simpl. lia.
  - simpl. lia.
  - reflexivity.
  - reflexivity.
Defined.

(** ** [get_wgroup_size_spatial] *)



(** ** Fused add + softmax *)

Lemma sizes_eqb_eq (a b : list Z) : sizes_eqb a b = true <-> a = b.
Proof.
  revert b. induction a as [| x a IH]; intros [| y b]; simpl;
    try (split; [discriminate | discriminate]); try tauto.
  rewrite andb_true_iff, Z.eqb_eq, IH. split.
  - intros [-> ->]. reflexivity.
  - intros Heq. injection Heq as -> ->. auto.
Qed.





Example shape_use_fused_path_indivisible :
  shape_use_fused_path (mkTensor [2; 8; 6; 4] kFloat) (mkTensor [4; 4] kFloat)
  = Some false.
Proof. reflexivity. Qed.

(** ** Masked softmax entry points *)

Lemma ScalarType_eqb_eq (a b : ScalarType) : ScalarType_eqb a b = true <-> a = b.
Proof.
  destruct a, b; simpl; split; intros; try discriminate; reflexivity.
Qed.

(** C10, as stated, fails: a 0-dim mask is viewed as shape [1] before the
    comparison, so the backward accepts it for a grad of shape [1] although
    the sizes of the two tensors differ. *)
Lemma masked_backward_accepts_scalar_mask :
  masked_backward_accepts
    (_masked_softmax_backward (mkTensor [1] kFloat) (mkTensor [1] kFloat)
                              (mkTensor [] kBool) None) = true /\
  sizes (mkTensor [] kBool) <> sizes (mkTensor [1] kFloat).
Proof.
  split; [reflexivity | discriminate].
Qed.

(** C10 (amended): masked-softmax backward accepts only a mask whose dtype
    is Bool and whose sizes equal the sizes of the grad tensor once a 0-dim
    grad or mask has been viewed as shape [1], and raises an error otherwise
    (the forward accepts the broadcastable BxT and TxT mask shapes); when
    grad has zero elements it returns the freshly allocated gradient at
    once, launching no kernel and validating nothing. *)
Theorem masked_backward_validation :
  forall (grad_ output_ mask_ : Tensor) (dim_ : option Z),
    (numel grad_ = 0 ->
     _masked_softmax_backward grad_ output_ mask_ dim_
     = return_grad_input_untouched) /\
    (numel grad_ <> 0 ->
     (masked_backward_accepts
        (_masked_softmax_backward grad_ output_ mask_ dim_) = true ->
      sizes (view1_if_scalar grad_) = sizes (view1_if_scalar mask_) /\
      scalar_type mask_ = kBool) /\
     (sizes (view1_if_scalar grad_) <> sizes (view1_if_scalar mask_) \/
      scalar_type mask_ <> kBool ->
      masked_backward_raises
        (_masked_softmax_backward grad_ output_ mask_ dim_) = true)) /\
    (forall B H T : Z,
        _masked_softmax (mkTensor [B; H; T; T] kFloat) (mkTensor [B; T] kBool)
                        None (Some 1)
        = MaskedSoftMaxForward [B; H; T; T] [B; 1; 1; T] 3 /\
        _masked_softmax (mkTensor [B; H; T; T] kFloat) (mkTensor [T; T] kBool)
                        None (Some 0)
        = MaskedSoftMaxForward [B; H; T; T] [T; T] 3).
Proof.
  intros grad_ output_ mask_ dim_. split; [|split].
  - intros Hn. unfold _masked_softmax_backward. rewrite Hn. reflexivity.
  - intros Hn. unfold _masked_softmax_backward.
    destruct (Z.eqb_spec (numel grad_) 0) as [E | _]; [contradiction|].
    assert (Hty : scalar_type (view1_if_scalar mask_) = scalar_type mask_).
    { unfold view1_if_scalar. destruct (dim mask_ =? 0); reflexivity. }
    rewrite Hty.
    destruct (match dim_ with
              | Some d => maybe_wrap_dim d (dim output_)
              | None => Some (dim output_ - 1)
              end) as [dim_v |].
    + destruct ((dim_v >=? 0) && (dim_v <? dim (view1_if_scalar grad_))); simpl.
      * destruct (sizes_eqb (sizes (view1_if_scalar grad_))
                            (sizes (view1_if_scalar mask_))) eqn:Es; simpl.
        -- apply sizes_eqb_eq in Es.
           destruct (ScalarType_eqb (scalar_type mask_) kBool) eqn:Et; simpl.
           ++ apply ScalarType_eqb_eq in Et.
              destruct (dispatch_floating_types_and2 (scalar_type grad_)); simpl.
              ** split; [auto|]. intros [Hs | Hb]; contradiction.
              ** split; [discriminate | reflexivity].
           ++ split; [discriminate | reflexivity].
        -- split; [discriminate | reflexivity].
      * split; [discriminate | reflexivity].
    + simpl. split; [discriminate | reflexivity].
  - intros B H T. unfold _masked_softmax, size, dim, view1_if_scalar. simpl.
    rewrite !Z.eqb_refl. simpl.
    split;
      repeat (match goal with
              | |- context [Z.eqb ?x ?y] => destruct (Z.eqb x y)
              end; simpl);
      reflexivity.
Qed.

Lemma masked_backward_validation_witness :
  (numel (mkTensor [0; 4] kFloat) = 0 /\
   _masked_softmax_backward (mkTensor [0; 4] kFloat) (mkTensor [0; 4] kFloat)
                            (mkTensor [7] kLong) None
   = return_grad_input_untouched) /\
  (numel (mkTensor [2; 4] kFloat) <> 0 /\
   masked_backward_raises
     (_masked_softmax_backward (mkTensor [2; 4] kFloat) (mkTensor [2; 4] kFloat)
                               (mkTensor [1; 4] kBool) None) = true).
Proof.
  split.
  - split; [reflexivity|].
    exact (proj1 (masked_backward_validation
                    (mkTensor [0; 4] kFloat) (mkTensor [0; 4] kFloat)
                    (mkTensor [7] kLong) None) eq_refl).
  - assert (Hn : numel (mkTensor [2; 4] kFloat) <> 0) by (vm_compute; discriminate).
    split; [exact Hn|].
    destruct (masked_backward_validation
                (mkTensor [2; 4] kFloat) (mkTensor [2; 4] kFloat)
                (mkTensor [1; 4] kBool) None) as (_ & Hv & _).
    apply (proj2 (Hv Hn)). left. vm_compute. discriminate.
Defined.

(* ===================================================================== *)
(** * Part VII: the softmax kernels, proofs                               *)
(* ===================================================================== *)

Local Open Scope nat_scope.

(** ** Loop shapes *)

Lemma strided_In (first step stop i : nat) :
  1 <= step ->
  (In i (strided first step stop) <->
   first <= i /\ i < stop /\ (i - first) mod step = 0).
Proof.
  intros Hstep. unfold strided. rewrite in_map_iff.
  pose proof (Nat.div_mod_eq (stop - first + step - 1) step) as Hdm.
  pose proof (Nat.mod_upper_bound (stop - first + step - 1) step ltac:(lia)) as Hr.
  set (q := (stop - first + step - 1) / step) in *.
  set (r := (stop - first + step - 1) mod step) in *.
  split.
  - intros (t & <- & Ht). apply in_seq in Ht. destruct Ht as [_ Ht]. simpl in Ht.
    assert (Hlt : (t + 1) * step <= q * step) by (apply Nat.mul_le_mono_r; lia).
    split; [lia|]. split; [lia|].
    replace (first + t * step - first) with (t * step) by lia.
    apply Nat.Div0.mod_mul.
  - intros (Hf & Hs & Hm).
    exists ((i - first) / step).
    pose proof (Nat.div_mod_eq (i - first) step) as Hdm'. rewrite Hm in Hdm'.
    split; [lia|]. apply in_seq. split; [lia|]. simpl.
    apply Nat.Div0.div_lt_upper_bound.
    destruct (Nat.le_gt_cases (step * q) (i - first)) as [Hc | Hc]; [|exact Hc].
    exfalso. lia.
Qed.

Lemma strided_NoDup (first step stop : nat) :
  1 <= step -> NoDup (strided first step stop).
Proof.
  intros Hstep. unfold strided.
  apply Injective_map_NoDup_in.
  - intros x y _ _ Heq. nia.
  - apply seq_NoDup.
Qed.

Lemma NoDup_flat_map_disjoint {A B : Type} (f : A -> list B) (l : list A) :
  NoDup l ->
  (forall x, In x l -> NoDup (f x)) ->
  (forall x y z, In x l -> In y l -> x <> y -> In z (f x) -> In z (f y) -> False) ->
  NoDup (flat_map f l).
Proof.
  induction l as [| a l IH]; intros Hnd Hf Hdis; simpl.
  - constructor.
  - inversion Hnd as [| ? ? Hnotin Hnd']; subst.
    apply NoDup_app.
    + apply Hf. now left.
    + apply IH; auto.
      * intros x Hx. apply Hf. now right.
      * intros x y z Hx Hy. apply Hdis; now right.
    + intros z Hz Hz'. apply in_flat_map in Hz'. destruct Hz' as (y & Hy & Hzy).
      apply (Hdis a y z); auto; [now left | now right | congruence].
Qed.

(** The strided loops of the [workers] work items visit every index below
    [stop] exactly once. *)
Lemma strided_partition (workers stop : nat) :
  1 <= workers ->
  Permutation (flat_map (fun id => strided id workers stop) (seq 0 workers))
              (seq 0 stop).
Proof.
  intros Hw. apply NoDup_Permutation.
  - apply NoDup_flat_map_disjoint.
    + apply seq_NoDup.
    + intros x _. now apply strided_NoDup.
    + intros x y z Hx Hy Hne Hzx Hzy.
      apply in_seq in Hx, Hy.
      apply strided_In in Hzx, Hzy; try assumption.
      destruct Hzx as (Hx1 & _ & Hx2). destruct Hzy as (Hy1 & _ & Hy2).
      apply Hne.
      pose proof (Nat.div_mod_eq (z - x) workers) as Hdx.
      pose proof (Nat.div_mod_eq (z - y) workers) as Hdy.
      rewrite Hx2 in Hdx. rewrite Hy2 in Hdy.
      set (a := (z - x) / workers) in *. set (b := (z - y) / workers) in *.
      destruct (Nat.lt_trichotomy a b) as [Hab | [Hab | Hab]].
      * assert (workers * (a + 1) <= workers * b)
          by (apply Nat.mul_le_mono_l; lia). lia.
      * rewrite Hab in Hdx. lia.
      * assert (workers * (b + 1) <= workers * a)
          by (apply Nat.mul_le_mono_l; lia). lia.
  - apply seq_NoDup.
  - intros z. rewrite in_flat_map. split.
    + intros (id & Hid & Hz). apply strided_In in Hz; [|assumption].
      apply in_seq. lia.
    + intros Hz. apply in_seq in Hz. exists (z mod workers). split.
      * apply in_seq. pose proof (Nat.mod_upper_bound z workers ltac:(lia)). lia.
      * apply strided_In; [assumption|].
        pose proof (Nat.div_mod_eq z workers) as Hdm.
        pose proof (Nat.mod_upper_bound z workers ltac:(lia)).
        split; [lia|]. split; [lia|].
        replace (z - z mod workers) with (z / workers * workers) by lia.
        apply Nat.Div0.mod_mul.
Qed.

Lemma strided_unfold (first step stop : nat) :
  1 <= step -> first < stop ->
  strided first step stop = first :: strided (first + step) step stop.
Proof.
  intros Hstep Hlt. unfold strided.
  assert (Hn : (stop - first + step - 1) / step
               = S ((stop - (first + step) + step - 1) / step)).
  { destruct (Nat.le_gt_cases (first + step) stop) as [Hle | Hgt].
    - replace (stop - first + step - 1)
        with (1 * step + (stop - (first + step) + step - 1)) by lia.
      rewrite Nat.div_add_l by lia. lia.
    - replace (stop - (first + step) + step - 1) with (step - 1) by lia.
      rewrite (Nat.div_small (step - 1)) by lia.
      assert (Hq : (stop - first + step - 1) / step = 1).
      { symmetry. apply Nat.div_unique with (r := stop - first - 1); lia. }
      rewrite Hq. reflexivity. }
  rewrite Hn. cbn [seq map]. f_equal; [lia|].
  rewrite <- seq_shift, map_map. apply map_ext. intros t. lia.
Qed.

Lemma strided_nil (first step stop : nat) :
  1 <= step -> stop <= first -> strided first step stop = [].
Proof.
  intros Hstep Hle. unfold strided.
  replace (stop - first + step - 1) with (step - 1) by lia.
  rewrite Nat.div_small by lia. reflexivity.
Qed.

(** A loop with an index that grows with the counter breaks where the
    strided loop stops. *)
Lemma until_break_map_seq (g : nat -> nat) (bound : nat) :
  forall k a n,
    k <= n ->
    (forall t, a <= t < a + k -> g t < bound) ->
    (k = n \/ bound <= g (a + k)) ->
    until_break bound (map g (seq a n)) = map g (seq a k).
Proof.
  induction k as [| k IH]; intros a n Hkn Hin Hout.
  - destruct n as [| n]; [reflexivity|]. simpl.
    destruct Hout as [Hout | Hout]; [discriminate|].
    rewrite Nat.add_0_r in Hout.
    destruct (Nat.leb_spec bound (g a)); [reflexivity | lia].
  - destruct n as [| n]; [lia|]. simpl.
    destruct (Nat.leb_spec bound (g a)) as [Hb | Hb].
    + specialize (Hin a ltac:(lia)). lia.
    + f_equal. apply IH; [lia | |].
      * intros t Ht. apply Hin. lia.
      * destruct Hout as [Hout | Hout]; [left; lia | right].
        replace (S a + k) with (a + S k) by lia. assumption.
Qed.

Lemma until_break_strided (lid workers count bound : nat) :
  1 <= workers -> lid < workers -> bound <= workers * count ->
  until_break bound (map (fun i => lid + i * workers) (seq 0 count))
  = strided lid workers bound.
Proof.
  intros Hw Hlid Hcov. unfold strided.
  set (m := (bound - lid + workers - 1) / workers).
  pose proof (Nat.div_mod_eq (bound - lid + workers - 1) workers) as Hdm.
  pose proof (Nat.mod_upper_bound (bound - lid + workers - 1) workers ltac:(lia)) as Hmod.
  fold m in Hdm.
  assert (Hm : m <= count).
  { destruct (Nat.le_gt_cases m count) as [H | H]; [assumption|].
    exfalso. nia. }
  apply until_break_map_seq.
  - exact Hm.
  - intros t Ht. nia.
  - destruct (Nat.eq_dec m count) as [E | E]; [left; assumption | right].
    simpl. nia.
Qed.

Lemma until_break_scale (vec bound : nat) (qs : list nat) :
  1 <= vec ->
  until_break (bound * vec) (map (fun q => q * vec) qs)
  = map (fun q => q * vec) (until_break bound qs).
Proof.
  intros Hv. induction qs as [| q qs IH]; [reflexivity|]. simpl.
  destruct (Nat.leb_spec (bound * vec) (q * vec)) as [H1 | H1];
    destruct (Nat.leb_spec bound q) as [H2 | H2]; try nia.
  - reflexivity.
  - simpl. now rewrite IH.
Qed.

Lemma map_add_seq (a n : nat) : map (fun j => a + j) (seq 0 n) = seq a n.
Proof.
  revert a. induction n as [| n IH]; intros a; [reflexivity|].
  simpl. rewrite Nat.add_0_r. f_equal.
  rewrite <- seq_shift, map_map. rewrite <- (IH (S a)).
  apply map_ext. intros j. lia.
Qed.

(** The vectors [0 .. count-1] laid side by side are the positions
    [0 .. count * vec_size - 1]. *)
Lemma vector_lanes_blocks (vec_size count : nat) :
  flat_map (vector_lanes vec_size) (map (fun q => q * vec_size) (seq 0 count))
  = seq 0 (count * vec_size).
Proof.
  induction count as [| count IH]; [reflexivity|].
  rewrite seq_S, map_app, flat_map_app, IH. simpl.
  rewrite app_nil_r. unfold vector_lanes.
  replace (vec_size + count * vec_size) with (count * vec_size + vec_size) by lia.
  rewrite seq_app. f_equal. apply map_add_seq.
Qed.

Local Open Scope nat_scope.
(** ** Sums *)

Section Sums.
Context {scalar_t accscalar_t : Type} `{E : ExactAccumulation scalar_t accscalar_t}.

Lemma acc_add_zero_r (a : accscalar_t) : acc_add a acc_zero = a.
Proof. rewrite acc_add_comm. apply acc_add_zero_l. Qed.

Lemma acc_sum_app (l1 l2 : list accscalar_t) :
  acc_sum (l1 ++ l2) = acc_add (acc_sum l1) (acc_sum l2).
Proof.
  unfold acc_sum. induction l1 as [| a l1 IH]; simpl.
  - now rewrite acc_add_zero_l.
  - now rewrite IH, acc_add_assoc.
Qed.

Lemma acc_sum_perm (l1 l2 : list accscalar_t) :
  Permutation l1 l2 -> acc_sum l1 = acc_sum l2.
Proof.
  unfold acc_sum. induction 1; simpl.
  - reflexivity.
  - now f_equal.
  - rewrite !acc_add_assoc. f_equal. apply acc_add_comm.
  - congruence.
Qed.

Lemma fold_left_acc_add {X : Type} (term : X -> accscalar_t) (l : list X)
      (a : accscalar_t) :
  fold_left (fun s p => acc_add s (term p)) l a
  = acc_add a (acc_sum (map term l)).
Proof.
  revert a. induction l as [| x l IH]; intros a; simpl.
  - now rewrite acc_add_zero_r.
  - rewrite IH. unfold acc_sum. simpl. now rewrite acc_add_assoc.
Qed.

Lemma fold_left_acc_sum (l : list accscalar_t) (a : accscalar_t) :
  fold_left acc_add l a = acc_add a (acc_sum l).
Proof.
  rewrite <- (map_id l) at 2. apply (fold_left_acc_add (fun x => x)).
Qed.

Lemma acc_sum_flat_map {X Y : Type} (term : Y -> accscalar_t)
      (f : X -> list Y) (l : list X) :
  acc_sum (map (fun x => acc_sum (map term (f x))) l)
  = acc_sum (map term (flat_map f l)).
Proof.
  induction l as [| x l IH]; [reflexivity|].
  simpl. rewrite map_app, acc_sum_app. rewrite <- IH. reflexivity.
Qed.

(** The reduction over the work items of a group, each of which folded its
    own positions, is the sum over all their positions. *)
Lemma group_reduce_sum (term : nat -> accscalar_t)
      (positions : nat -> list nat) (workers : nat) :
  group_reduce acc_add acc_zero
    (map (fun id => fold_left (fun s p => acc_add s (term p))
                              (positions id) acc_zero)
         (seq 0 workers))
  = acc_sum (map term (flat_map positions (seq 0 workers))).
Proof.
  unfold group_reduce. rewrite fold_left_acc_sum, acc_add_zero_l.
  rewrite <- acc_sum_flat_map. f_equal. apply map_ext. intros id.
  now rewrite fold_left_acc_add, acc_add_zero_l.
Qed.

Lemma reduce_over_group_sum (term : nat -> accscalar_t)
      (positions : nat -> list nat) (workers : nat) :
  (1 <= workers)%nat ->
  reduce_over_group acc_add
    (fold_left (fun s p => acc_add s (term p)) (positions 0%nat) acc_zero)
    (map (fun id => fold_left (fun s p => acc_add s (term p))
                              (positions id) acc_zero)
         (seq 1 (workers - 1)))
  = acc_sum (map term (flat_map positions (seq 0 workers))).
Proof.
  intros Hw. rewrite <- group_reduce_sum.
  unfold reduce_over_group, group_reduce.
  destruct workers as [| w]; [lia|].
  replace (S w - 1)%nat with w by lia.
  cbn [seq map fold_left]. now rewrite acc_add_zero_l.
Qed.
End Sums.

(** ** Memory after the writes *)

Lemma apply_writes_found {A : Type} (writes : list (nat * A)) (old : nat -> A)
      (p : nat) (value : nat -> A) :
  (forall q v, In (q, v) writes -> v = value q) ->
  In p (map fst writes) ->
  apply_writes writes old p = value p.
Proof.
  intros Hval Hin. unfold apply_writes.
  destruct (find (fun w => (fst w =? p)%nat) writes) as [[q v] |] eqn:Ef.
  - apply find_some in Ef. destruct Ef as [Hw Hq]. simpl in Hq.
    apply Nat.eqb_eq in Hq. subst q. simpl. now apply Hval.
  - exfalso. apply in_map_iff in Hin. destruct Hin as ([q v] & Hq & Hw).
    simpl in Hq. subst q.
    pose proof (find_none _ _ Ef _ Hw) as Hn. simpl in Hn.
    rewrite Nat.eqb_refl in Hn. discriminate.
Qed.

(** ** Tier 1: the positions of the work items *)

Local Open Scope nat_scope.

Lemma flat_map_ext_in {A B : Type} (f g : A -> list B) (l : list A) :
  (forall x, In x l -> f x = g x) -> flat_map f l = flat_map g l.
Proof.
  induction l as [| a l IH]; intros Hfg; [reflexivity|]. simpl.
  rewrite (Hfg a) by now left. rewrite IH; [reflexivity|].
  intros x Hx. apply Hfg. now right.
Qed.

Lemma flat_map_flat_map {A B C : Type} (f : A -> list B) (g : B -> list C)
      (l : list A) :
  flat_map (fun x => flat_map g (f x)) l = flat_map g (flat_map f l).
Proof.
  induction l as [| a l IH]; [reflexivity|]. simpl.
  now rewrite flat_map_app, IH.
Qed.

Lemma flat_map_map_inner {A B C : Type} (f : A -> list B) (h : B -> C)
      (l : list A) :
  flat_map (fun x => map h (f x)) l = map h (flat_map f l).
Proof.
  induction l as [| a l IH]; [reflexivity|]. simpl.
  now rewrite map_app, IH.
Qed.

(** The work items [0 .. local_size - 1], each loading [count] vectors at
    [index lid i = (lid + i * local_size) * vec_size] until the index leaves
    the row, visit every position of the row exactly once. *)
Lemma register_positions_partition
      (vec_size count dim_size local_size : nat) (index : nat -> nat -> nat) :
  (forall lid i, index lid i = (lid + i * local_size) * vec_size) ->
  1 <= vec_size ->
  dim_size mod vec_size = 0 ->
  dim_size <= vec_size * count * local_size ->
  1 <= dim_size ->
  Permutation
    (flat_map (fun lid =>
                 flat_map (vector_lanes vec_size)
                          (until_break dim_size (map (index lid) (seq 0 count))))
              (seq 0 local_size))
    (seq 0 dim_size).
Proof.
  intros Hindex Hvec Hdiv Hcov Hdim.
  assert (Hls : 1 <= local_size) by (destruct local_size; lia).
  assert (HQ : exists Q, dim_size = Q * vec_size).
  { exists (dim_size / vec_size).
    pose proof (Nat.div_mod_eq dim_size vec_size) as Hq. lia. }
  destruct HQ as [Q ->]. clear Hdiv.
  assert (HcovQ : Q <= local_size * count) by nia.
  rewrite (flat_map_ext_in
             _ (fun lid => flat_map (vector_lanes vec_size)
                                    (map (fun q => q * vec_size)
                                         (strided lid local_size Q)))).
  - rewrite (flat_map_flat_map
               (fun lid => map (fun q => q * vec_size) (strided lid local_size Q))).
    rewrite flat_map_map_inner.
    rewrite <- vector_lanes_blocks.
    apply Permutation_flat_map.
    apply Permutation_map. now apply strided_partition.
  - intros lid Hlid. apply in_seq in Hlid. f_equal.
    rewrite (map_ext _ (fun i => (lid + i * local_size) * vec_size))
      by (intros i; apply Hindex).
    rewrite <- (map_map (fun i => lid + i * local_size) (fun q => q * vec_size)).
    rewrite until_break_scale by assumption.
    f_equal. apply until_break_strided; lia.
Qed.

Lemma flat_map_writes_fst {A : Type} (positions : nat -> list nat)
      (value : nat -> A) (ids : list nat) :
  map fst (flat_map (fun id => map (fun p => (p, value p)) (positions id)) ids)
  = flat_map positions ids.
Proof.
  induction ids as [| id ids IH]; [reflexivity|]. simpl.
  rewrite map_app, IH, map_map. simpl. now rewrite map_id.
Qed.

Lemma flat_map_writes_value {A : Type} (positions : nat -> list nat)
      (value : nat -> A) (ids : list nat) (q : nat) (v : A) :
  In (q, v) (flat_map (fun id => map (fun p => (p, value p)) (positions id)) ids) ->
  v = value q.
Proof.
  intros Hin. apply in_flat_map in Hin. destruct Hin as (id & _ & Hin).
  apply in_map_iff in Hin. destruct Hin as (p & Heq & _).
  injection Heq as <- <-. reflexivity.
Qed.

Section Tier1Backward.
Context {scalar_t accscalar_t : Type} `{E : ExactAccumulation scalar_t accscalar_t}.
Variables (vec_size NUM : nat) (LogSoftMax is_masked : bool).
Variables (dim_size local_size : nat).
Variables (output gradOutput : nat -> scalar_t) (mask_data : nat -> bool).
Hypothesis Hvec : 1 <= vec_size.
Hypothesis Hdiv : dim_size mod vec_size = 0.
Hypothesis Hcov : dim_size <= vec_size * NUM * local_size.
Hypothesis Hdim : 1 <= dim_size.

Lemma bwd_positions_partition :
  Permutation
    (flat_map (bwd_positions vec_size NUM dim_size local_size) (seq 0 local_size))
    (seq 0 dim_size).
Proof.
  unfold bwd_positions.
  apply (register_positions_partition
           vec_size NUM dim_size local_size
           (bwd_vector_index vec_size local_size)); auto.
Qed.

Lemma bwd_sum_value_axis_sum :
  bwd_sum_value vec_size NUM LogSoftMax is_masked dim_size local_size
                output gradOutput mask_data
  = axis_sum (bwd_term LogSoftMax is_masked output gradOutput mask_data) dim_size.
Proof.
  unfold bwd_sum_value, axis_sum.
  assert (Hgroup :
            group_reduce acc_add acc_zero
              (map (bwd_thread_sum vec_size NUM LogSoftMax is_masked dim_size
                                   local_size output gradOutput mask_data)
                   (seq 0 local_size))
            = acc_sum (map (bwd_term LogSoftMax is_masked output gradOutput mask_data)
                           (seq 0 dim_size))).
  { unfold bwd_thread_sum. rewrite group_reduce_sum.
    apply acc_sum_perm, Permutation_map, bwd_positions_partition. }
  destruct (Nat.ltb_spec 1 local_size) as [Hl | Hl]; [exact Hgroup|].
  assert (local_size = 1) by (destruct local_size; lia).
  rewrite <- Hgroup. replace local_size with 1 by lia.
  unfold group_reduce. cbn [seq map fold_left]. now rewrite acc_add_zero_l.
Qed.

Lemma bwd_kernel_value (old : nat -> scalar_t) (p : nat) :
  p < dim_size ->
  apply_writes
    (DispatchSoftmaxBackwardKernelFunctor
       vec_size NUM LogSoftMax is_masked dim_size local_size
       output gradOutput mask_data) old p
  = softmax_backward_value
      LogSoftMax
      (axis_sum (bwd_term LogSoftMax is_masked output gradOutput mask_data) dim_size)
      (bwd_reg_out is_masked output mask_data p) (gradOutput p).
Proof.
  intros Hp. unfold DispatchSoftmaxBackwardKernelFunctor, bwd_thread_writes.
  rewrite bwd_sum_value_axis_sum.
  apply (apply_writes_found
           _ old p
           (fun q => softmax_backward_value
                       LogSoftMax
                       (axis_sum (bwd_term LogSoftMax is_masked output gradOutput
                                           mask_data) dim_size)
                       (bwd_reg_out is_masked output mask_data q) (gradOutput q))).
  - intros q v Hin.
    apply (flat_map_writes_value
             (bwd_positions vec_size NUM dim_size local_size)
             (fun q => bwd_update LogSoftMax _ _ _) _ _ _ Hin).
  - rewrite (flat_map_writes_fst
               (bwd_positions vec_size NUM dim_size local_size)
               (fun q => bwd_update LogSoftMax _ _ _)).
    apply (Permutation_in _ (Permutation_sym bwd_positions_partition)).
    apply in_seq. lia.
Qed.
End Tier1Backward.

(** ** Tier 2: the positions of the work items *)

Local Open Scope nat_scope.

Lemma flat_map_map_arg {A B C : Type} (h : A -> B) (g : B -> list C)
      (l : list A) :
  flat_map g (map h l) = flat_map (fun x => g (h x)) l.
Proof.
  induction l as [| a l IH]; [reflexivity|]. simpl. now rewrite IH.
Qed.

Lemma flat_map_all_nil {A B : Type} (g : A -> list B) (l : list A) :
  (forall x, In x l -> g x = []) -> flat_map g l = [].
Proof.
  induction l as [| a l IH]; intros Hg; [reflexivity|]. simpl.
  rewrite (Hg a) by now left. apply IH. intros x Hx. apply Hg. now right.
Qed.

Lemma flat_map_all_single {A B : Type} (g : A -> list B) (h : A -> B)
      (l : list A) :
  (forall x, In x l -> g x = [h x]) -> flat_map g l = map h l.
Proof.
  induction l as [| a l IH]; intros Hg; [reflexivity|]. simpl.
  rewrite (Hg a) by now left. simpl. f_equal. apply IH.
  intros x Hx. apply Hg. now right.
Qed.

Section StreamingPositions.
Variables (vec_size start local_size dim_size : nat).
Hypothesis Hvec : 1 <= vec_size.
Hypothesis Hstart : start < vec_size.
Hypothesis Hls : 1 <= local_size.

(** The guard of one lane, on the lane number [u = i * vec_size + j] counted
    from the aligned address. *)
Lemma guarded_lanes_window (i : nat) :
  guarded_lanes vec_size start dim_size i
  = flat_map (fun u => if (start <=? u) && (u - start <? dim_size)
                       then [u - start] else [])
             (seq (i * vec_size) vec_size).
Proof.
  unfold guarded_lanes, lane_in_row.
  rewrite <- (map_add_seq (i * vec_size) vec_size), flat_map_map_arg.
  reflexivity.
Qed.

Lemma guarded_lanes_blocks (n : nat) :
  flat_map (guarded_lanes vec_size start dim_size) (seq 0 n)
  = flat_map (fun u => if (start <=? u) && (u - start <? dim_size)
                       then [u - start] else [])
             (seq 0 (n * vec_size)).
Proof.
  induction n as [| n IH]; [reflexivity|].
  rewrite seq_S, flat_map_app, IH. simpl. rewrite app_nil_r.
  replace (vec_size + n * vec_size) with (n * vec_size + vec_size) by lia.
  rewrite seq_app, flat_map_app. f_equal. apply guarded_lanes_window.
Qed.

Lemma guard_window (N : nat) :
  start + dim_size <= N ->
  flat_map (fun u => if (start <=? u) && (u - start <? dim_size)
                     then [u - start] else [])
           (seq 0 N)
  = seq 0 dim_size.
Proof.
  intros HN.
  replace N with (start + (dim_size + (N - start - dim_size))) by lia.
  rewrite seq_app, flat_map_app, seq_app, flat_map_app.
  rewrite (flat_map_all_nil _ (seq 0 start)).
  - rewrite (flat_map_all_nil _ (seq (0 + start + dim_size) _)).
    + rewrite app_nil_r. simpl.
      rewrite (flat_map_all_single _ (fun u => u - start)).
      * rewrite <- (map_add_seq start dim_size), map_map.
        rewrite <- (map_id (seq 0 dim_size)) at 2.
        apply map_ext. intros j. lia.
      * intros u Hu. apply in_seq in Hu.
        destruct (Nat.leb_spec start u); [|lia].
        destruct (Nat.ltb_spec (u - start) dim_size); [reflexivity | lia].
    + intros u Hu. apply in_seq in Hu.
      destruct (Nat.leb_spec start u); [|reflexivity].
      destruct (Nat.ltb_spec (u - start) dim_size); [lia | reflexivity].
  - intros u Hu. apply in_seq in Hu.
    destruct (Nat.leb_spec start u); [lia | reflexivity].
Qed.

Lemma loops_end_covers :
  start + dim_size <= loops_end vec_size start dim_size * vec_size.
Proof.
  unfold loops_end.
  pose proof (Nat.div_mod_eq (dim_size + start + vec_size - 1) vec_size) as Hdm.
  pose proof (Nat.mod_upper_bound (dim_size + start + vec_size - 1) vec_size
                                  ltac:(lia)).
  nia.
Qed.

(** The three passes of the work items of a group visit every position of
    the row exactly once. *)
Lemma stream_positions_partition :
  Permutation
    (flat_map (stream_positions vec_size start local_size dim_size)
              (seq 0 local_size))
    (seq 0 dim_size).
Proof.
  unfold stream_positions.
  rewrite (flat_map_flat_map
             (fun id => strided id local_size (loops_end vec_size start dim_size))).
  rewrite <- (guard_window _ loops_end_covers), <- guarded_lanes_blocks.
  apply Permutation_flat_map. now apply strided_partition.
Qed.

(** Outside the head and the tail every lane of the vector is in the row:
    the vector branch of the update writes what the guarded branch would. *)
Lemma update_lanes_guarded (i : nat) :
  i < loops_end vec_size start dim_size ->
  update_lanes vec_size start dim_size i
  = guarded_lanes vec_size start dim_size i.
Proof.
  intros Hi. unfold update_lanes, head_or_tail.
  destruct (((0 <? start) && (i =? 0))
            || (dim_size + start - i * vec_size <? vec_size)) eqn:Eht;
    [reflexivity|].
  apply orb_false_iff in Eht. destruct Eht as [Ehead Etail].
  apply Nat.ltb_ge in Etail.
  unfold guarded_lanes. symmetry. apply flat_map_all_single.
  intros j Hj. apply in_seq in Hj. unfold lane_in_row.
  assert (Hs : start <= i * vec_size + j).
  { destruct (Nat.eq_dec i 0) as [-> | Hne].
    - rewrite Nat.eqb_refl, andb_true_r in Ehead. apply Nat.ltb_ge in Ehead. lia.
    - destruct i; [congruence|]. nia. }
  destruct (Nat.leb_spec start (i * vec_size + j)); [|lia].
  destruct (Nat.ltb_spec (i * vec_size + j - start) dim_size);
    [reflexivity | lia].
Qed.

Lemma stream_update_positions_eq (local_id : nat) :
  stream_update_positions vec_size start local_size dim_size local_id
  = stream_positions vec_size start local_size dim_size local_id.
Proof.
  unfold stream_update_positions, stream_positions.
  apply flat_map_ext_in. intros i Hi. apply update_lanes_guarded.
  apply strided_In in Hi; [lia | assumption].
Qed.
End StreamingPositions.

Section Tier2Backward.
Context {scalar_t accscalar_t : Type} `{E : ExactAccumulation scalar_t accscalar_t}.
Variables (vec_size start local_size dim_size : nat) (LogSoftMax : bool).
Variables (output gradOutput : nat -> scalar_t).
Hypothesis Hvec : 1 <= vec_size.
Hypothesis Hstart : start < vec_size.
Hypothesis Hls : 1 <= local_size.

Lemma stream_bwd_sum_value_axis_sum :
  stream_bwd_sum_value vec_size start local_size dim_size LogSoftMax
                       output gradOutput
  = axis_sum (stream_bwd_term LogSoftMax output gradOutput) dim_size.
Proof.
  unfold stream_bwd_sum_value, stream_bwd_thread_sum, axis_sum.
  rewrite (reduce_over_group_sum
             (stream_bwd_term LogSoftMax output gradOutput)
             (stream_positions vec_size start local_size dim_size)
             local_size Hls).
  apply acc_sum_perm, Permutation_map.
  now apply stream_positions_partition.
Qed.

Lemma stream_bwd_kernel_value (old : nat -> scalar_t) (p : nat) :
  p < dim_size ->
  apply_writes
    (SoftmaxBackwardKernelFunctor vec_size start local_size dim_size LogSoftMax
                                  output gradOutput) old p
  = softmax_backward_value
      LogSoftMax
      (axis_sum (stream_bwd_term LogSoftMax output gradOutput) dim_size)
      (output p) (gradOutput p).
Proof.
  intros Hp. unfold SoftmaxBackwardKernelFunctor, stream_bwd_thread_writes.
  rewrite (flat_map_ext_in
             _ (fun id => map (fun q => (q, stream_bwd_update
                                              vec_size start local_size dim_size
                                              LogSoftMax output gradOutput
                                              (output q) (gradOutput q)))
                              (stream_positions vec_size start local_size
                                                dim_size id)))
    by (intros id _; now rewrite stream_update_positions_eq).
  apply (apply_writes_found
           _ old p
           (fun q => softmax_backward_value
                       LogSoftMax
                       (axis_sum (stream_bwd_term LogSoftMax output gradOutput)
                                 dim_size)
                       (output q) (gradOutput q))).
  - intros q v Hin.
    apply (flat_map_writes_value
             (stream_positions vec_size start local_size dim_size)
             (fun q => stream_bwd_update _ _ _ _ LogSoftMax output gradOutput
                                         (output q) (gradOutput q))) in Hin.
    subst v. unfold stream_bwd_update, softmax_backward_value.
    now rewrite stream_bwd_sum_value_axis_sum.
  - rewrite (flat_map_writes_fst
               (stream_positions vec_size start local_size dim_size)
               (fun q => stream_bwd_update _ _ _ _ LogSoftMax output gradOutput
                                           (output q) (gradOutput q))).
    assert (Hperm : Permutation
                      (flat_map (stream_positions vec_size start local_size dim_size)
                                (seq 0 local_size))
                      (seq 0 dim_size))
      by now apply stream_positions_partition.
    apply (Permutation_in _ (Permutation_sym Hperm)).
    apply in_seq. lia.
Qed.
End Tier2Backward.

(** ** Tier 3: the tree reduction of [group_reduce_spatial] *)

Local Open Scope nat_scope.

Lemma nth_map_seq {A : Type} (f : nat -> A) (n r : nat) (d : A) :
  r < n -> nth r (map f (seq 0 n)) d = f r.
Proof.
  intros Hr. rewrite (nth_indep _ d (f 0)) by (rewrite length_map, length_seq; lia).
  rewrite map_nth, seq_nth by lia. reflexivity.
Qed.

Lemma firstn_add_split {A : Type} (a b : nat) (l : list A) :
  firstn (a + b) l = firstn a l ++ firstn b (skipn a l).
Proof.
  revert l. induction a as [| a IH]; intros l; [reflexivity|].
  destruct l as [| x l]; simpl.
  - now rewrite firstn_nil.
  - now rewrite IH.
Qed.

Lemma group_reduce_spatial_step_length {A : Type} (bin_op : A -> A -> A)
      (default : A) (block_row k : nat) (data : list A) :
  List.length (group_reduce_spatial_step bin_op default block_row k data)
  = block_row.
Proof.
  unfold group_reduce_spatial_step. now rewrite length_map, length_seq.
Qed.


Section SpatialTree.
Context {scalar_t accscalar_t : Type} `{E : ExactAccumulation scalar_t accscalar_t}.
Variable orig : list accscalar_t.


Lemma range_sum_double (r k : nat) :
  range_sum orig r (2 * k) = acc_add (range_sum orig r k) (range_sum orig (r + k) k).
Proof.
  unfold range_sum. replace (2 * k) with (k + k) by lia.
  rewrite firstn_add_split, acc_sum_app, skipn_skipn.
  now rewrite (Nat.add_comm k r).
Qed.

Lemma range_sum_saturated (r k k' : nat) :
  List.length orig <= r + k -> k <= k' -> range_sum orig r k' = range_sum orig r k.
Proof.
  intros Hlen Hk. unfold range_sum.
  rewrite !firstn_all2; [reflexivity | |]; rewrite length_skipn; lia.
Qed.

Lemma group_reduce_spatial_loop_sum (fuel : nat) :
  forall k data,
    1 <= k ->
    List.length orig <= fuel + k ->
    List.length data = List.length orig ->
    (forall r, r < List.length orig -> r mod k = 0 ->
               nth r data acc_zero = range_sum orig r k) ->
    1 <= List.length orig ->
    nth 0 (group_reduce_spatial_loop fuel acc_add acc_zero
                                     (List.length orig) k data) acc_zero
    = acc_sum orig.
Proof.
  assert (Hexit : forall k data,
             List.length orig <= k ->
             (forall r, r < List.length orig -> r mod k = 0 ->
                        nth r data acc_zero = range_sum orig r k) ->
             1 <= List.length orig ->
             nth 0 data acc_zero = acc_sum orig).
  { intros k data Hk Hinv Hn.
    rewrite Hinv by (try lia; apply Nat.Div0.mod_0_l).
    unfold range_sum. cbn [skipn]. apply f_equal, firstn_all2. lia. }
  induction fuel as [| fuel IH]; intros k data Hk Hfuel Hlen Hinv Hn.
  - cbn [group_reduce_spatial_loop]. apply (Hexit k); auto; lia.
  - cbn [group_reduce_spatial_loop].
    destruct (Nat.ltb_spec k (List.length orig)) as [Hlt | Hge];
      [|apply (Hexit k); auto; lia].
    apply IH; try lia.
    + apply group_reduce_spatial_step_length.
    + intros r Hr Hmod. unfold group_reduce_spatial_step.
      rewrite nth_map_seq by assumption. rewrite Hmod.
      change (0 =? 0) with true. cbn [andb].
      assert (Hmodk : r mod k = 0).
      { pose proof (Nat.div_mod_eq r (2 * k)) as Hdm. rewrite Hmod in Hdm.
        rewrite Hdm, Nat.add_0_r.
        replace (2 * k * (r / (2 * k))) with (2 * (r / (2 * k)) * k) by lia.
        apply Nat.Div0.mod_mul. }
      destruct (Nat.ltb_spec (r + k) (List.length orig)) as [Hin | Hout].
      * rewrite range_sum_double, !Hinv; try lia; try assumption.
        -- reflexivity.
        -- rewrite <- Nat.Div0.add_mod_idemp_l, Hmodk. cbn [Nat.add].
           apply Nat.Div0.mod_same.
      * rewrite Hinv by assumption. symmetry.
        apply range_sum_saturated; lia.
Qed.

(** Under exact accumulation the tree computes the sum of its inputs. *)
Lemma group_reduce_spatial_sum :
  1 <= List.length orig ->
  group_reduce_spatial acc_add acc_zero (List.length orig) orig = acc_sum orig.
Proof.
  intros Hn. unfold group_reduce_spatial.
  apply group_reduce_spatial_loop_sum; try lia.
  intros r Hr _. unfold range_sum.
  assert (Hsk : exists x rest, skipn r orig = x :: rest).
  { destruct (skipn r orig) as [| x rest] eqn:Es; [|eauto].
    assert (Hl : List.length (skipn r orig) = 0) by now rewrite Es.
    rewrite length_skipn in Hl. lia. }
  destruct Hsk as (x & rest & Hsk). rewrite Hsk. simpl.
  unfold acc_sum. simpl. rewrite acc_add_zero_r.
  rewrite <- (firstn_skipn r orig) at 1.
  rewrite app_nth2, length_firstn, Hsk by (rewrite length_firstn; lia).
  replace (r - Nat.min r (List.length orig)) with 0 by lia. reflexivity.
Qed.
End SpatialTree.

(** The loop of [group_reduce_spatial] never runs out of its [block_row]
    iterations: more fuel changes nothing. *)
Lemma group_reduce_spatial_loop_fuel {A : Type} (bin_op : A -> A -> A)
      (default : A) (block_row : nat) (fuel : nat) :
  forall (extra k : nat) (data : list A),
    1 <= k -> block_row <= fuel + k ->
    group_reduce_spatial_loop (fuel + extra) bin_op default block_row k data
    = group_reduce_spatial_loop fuel bin_op default block_row k data.
Proof.
  induction fuel as [| fuel IH]; intros extra k data Hk Hf.
  - cbn [Nat.add]. destruct extra; [reflexivity|].
    cbn [group_reduce_spatial_loop].
    destruct (Nat.ltb_spec k block_row); [lia | reflexivity].
  - cbn [Nat.add group_reduce_spatial_loop].
    destruct (k <? block_row); [|reflexivity].
    apply IH; lia.
Qed.

(** ** Tier 3: the spatial backward kernel *)

Local Open Scope nat_scope.

Section Tier3Backward.
Context {scalar_t accscalar_t : Type} `{E : ExactAccumulation scalar_t accscalar_t}.
Variables (vec_size dim_size inner_size block_row global_cols : nat).
Variable LogSoftMax : bool.
Variables output gradOutput : nat -> scalar_t.
Hypothesis Hvec : 1 <= vec_size.
Hypothesis Hdiv : inner_size mod vec_size = 0.
Hypothesis Hcols : inner_size <= global_cols * vec_size.
Hypothesis Hrow : 1 <= block_row.

Lemma group_reduce_spatial_sum_of (vals : list accscalar_t) :
  List.length vals = block_row ->
  group_reduce_spatial acc_add acc_zero block_row vals = acc_sum vals.
Proof.
  intros Hlen. rewrite <- Hlen. apply group_reduce_spatial_sum. lia.
Qed.

Lemma spatial_rows_partition :
  Permutation (flat_map (spatial_rows dim_size block_row) (seq 0 block_row))
              (seq 0 dim_size).
Proof.
  unfold spatial_rows. now apply strided_partition.
Qed.

Lemma spatial_bwd_sum_value_axis_sum (global_col j : nat) :
  spatial_bwd_sum_value vec_size dim_size inner_size block_row LogSoftMax
                        output gradOutput global_col j
  = axis_sum (fun i => backward_term_acc
                         LogSoftMax output gradOutput
                         (spatial_offset vec_size inner_size i global_col j))
             dim_size.
Proof.
  unfold spatial_bwd_sum_value, axis_sum.
  assert (Htree :
            group_reduce_spatial acc_add acc_zero block_row
              (map (spatial_bwd_thread_sum vec_size dim_size inner_size block_row
                                           LogSoftMax output gradOutput
                                           global_col j)
                   (seq 0 block_row))
            = acc_sum
                (map (fun i => backward_term_acc
                                 LogSoftMax output gradOutput
                                 (spatial_offset vec_size inner_size i global_col j))
                     (seq 0 dim_size))).
  { rewrite group_reduce_spatial_sum_of
      by (now rewrite length_map, length_seq).
    unfold spatial_bwd_thread_sum.
    rewrite (map_ext
               _ (fun r => acc_sum
                             (map (spatial_bwd_term vec_size inner_size LogSoftMax
                                                    output gradOutput global_col j)
                                  (spatial_rows dim_size block_row r))))
      by (intros r; now rewrite fold_left_acc_add, acc_add_zero_l).
    rewrite acc_sum_flat_map.
    apply acc_sum_perm, Permutation_map, spatial_rows_partition. }
  destruct (Nat.ltb_spec 1 block_row) as [Hb | Hb]; [exact Htree|].
  assert (Hone : block_row = 1) by lia.
  rewrite <- Htree. rewrite Hone. unfold group_reduce_spatial.
  cbn [seq map group_reduce_spatial_loop]. reflexivity.
Qed.

(** Where a write of the kernel lands and what it stores. *)
Lemma spatial_bwd_writes_inv (o : nat) (v : scalar_t) :
  In (o, v) (SpatialSoftmaxBackwardKernelFunctor
               vec_size dim_size inner_size block_row global_cols LogSoftMax
               output gradOutput) ->
  exists i global_col j,
    i < dim_size /\ j < vec_size /\ global_col * vec_size + j < inner_size /\
    o = spatial_offset vec_size inner_size i global_col j /\
    v = spatial_bwd_update vec_size dim_size inner_size block_row LogSoftMax
                           output gradOutput global_col j
                           (output o) (gradOutput o).
Proof.
  unfold SpatialSoftmaxBackwardKernelFunctor, spatial_bwd_thread_writes.
  intros Hin.
  apply in_flat_map in Hin. destruct Hin as (gc & _ & Hin).
  apply in_flat_map in Hin. destruct Hin as (r & _ & Hin).
  destruct (Nat.ltb_spec (gc * vec_size) inner_size) as [Hgc | Hgc]; [|contradiction].
  apply in_flat_map in Hin. destruct Hin as (i & Hi & Hin).
  apply in_map_iff in Hin. destruct Hin as (j & Heq & Hj).
  injection Heq as <- <-. apply in_seq in Hj.
  apply strided_In in Hi; [|assumption].
  exists i, gc, j. repeat split; try lia.
  pose proof (Nat.div_mod_eq inner_size vec_size) as Hdm. rewrite Hdiv in Hdm.
  assert (gc < inner_size / vec_size) by nia. nia.
Qed.

Lemma spatial_bwd_writes_cover (i c : nat) :
  i < dim_size -> c < inner_size ->
  In (i * inner_size + c)
     (map fst (SpatialSoftmaxBackwardKernelFunctor
                 vec_size dim_size inner_size block_row global_cols LogSoftMax
                 output gradOutput)).
Proof.
  intros Hi Hc.
  pose proof (Nat.div_mod_eq c vec_size) as Hdm.
  pose proof (Nat.mod_upper_bound c vec_size ltac:(lia)) as Hmod.
  apply in_map_iff.
  exists (spatial_offset vec_size inner_size i (c / vec_size) (c mod vec_size),
          spatial_bwd_update vec_size dim_size inner_size block_row LogSoftMax
                             output gradOutput (c / vec_size) (c mod vec_size)
                             (output (spatial_offset vec_size inner_size i
                                                     (c / vec_size) (c mod vec_size)))
                             (gradOutput (spatial_offset vec_size inner_size i
                                                         (c / vec_size)
                                                         (c mod vec_size)))).
  split; [unfold spatial_offset; simpl; lia|].
  unfold SpatialSoftmaxBackwardKernelFunctor, spatial_bwd_thread_writes.
  apply in_flat_map. exists (c / vec_size). split.
  { apply in_seq. split; [lia|]. simpl.
    apply Nat.Div0.div_lt_upper_bound. lia. }
  apply in_flat_map. exists (i mod block_row). split.
  { apply in_seq. pose proof (Nat.mod_upper_bound i block_row ltac:(lia)). lia. }
  destruct (Nat.ltb_spec (c / vec_size * vec_size) inner_size) as [Hgc | Hgc]; [|lia].
  apply in_flat_map. exists i. split.
  { apply strided_In; [assumption|].
    pose proof (Nat.div_mod_eq i block_row) as Hdi.
    pose proof (Nat.mod_upper_bound i block_row ltac:(lia)).
    split; [lia|]. split; [lia|].
    replace (i - i mod block_row) with (i / block_row * block_row) by lia.
    apply Nat.Div0.mod_mul. }
  apply in_map_iff. exists (c mod vec_size). split; [reflexivity|].
  apply in_seq. lia.
Qed.

Lemma spatial_bwd_kernel_value (old : nat -> scalar_t) (i c : nat) :
  i < dim_size -> c < inner_size ->
  apply_writes
    (SpatialSoftmaxBackwardKernelFunctor
       vec_size dim_size inner_size block_row global_cols LogSoftMax
       output gradOutput) old (i * inner_size + c)
  = softmax_backward_value
      LogSoftMax
      (axis_sum (fun i' => backward_term_acc LogSoftMax output gradOutput
                                             (i' * inner_size + c))
                dim_size)
      (output (i * inner_size + c)) (gradOutput (i * inner_size + c)).
Proof.
  intros Hi Hc.
  set (value := fun q =>
                  softmax_backward_value
                    LogSoftMax
                    (axis_sum (fun i' => backward_term_acc
                                           LogSoftMax output gradOutput
                                           (i' * inner_size + q mod inner_size))
                              dim_size)
                    (output q) (gradOutput q)).
  assert (Hval : value (i * inner_size + c)
                 = softmax_backward_value
                     LogSoftMax
                     (axis_sum (fun i' => backward_term_acc
                                            LogSoftMax output gradOutput
                                            (i' * inner_size + c))
                               dim_size)
                     (output (i * inner_size + c))
                     (gradOutput (i * inner_size + c))).
  { unfold value.
    replace ((i * inner_size + c) mod inner_size) with c; [reflexivity|].
    rewrite Nat.add_comm, Nat.Div0.mod_add. symmetry. now apply Nat.mod_small. }
  rewrite <- Hval.
  apply apply_writes_found; [|now apply spatial_bwd_writes_cover].
  intros q v Hin. apply spatial_bwd_writes_inv in Hin.
  destruct Hin as (i' & gc & j & Hi' & Hj & Hgc & -> & ->).
  unfold value, spatial_bwd_update, softmax_backward_value.
  rewrite spatial_bwd_sum_value_axis_sum.
  assert (Hmod : spatial_offset vec_size inner_size i' gc j mod inner_size
                 = gc * vec_size + j).
  { unfold spatial_offset. rewrite <- Nat.add_assoc, Nat.add_comm.
    rewrite Nat.Div0.mod_add. now apply Nat.mod_small. }
  rewrite Hmod.
  assert (Hterm : forall a,
             backward_term_acc LogSoftMax output gradOutput
                               (spatial_offset vec_size inner_size a gc j)
             = backward_term_acc LogSoftMax output gradOutput
                                 (a * inner_size + (gc * vec_size + j))).
  { intros a. unfold spatial_offset. now rewrite Nat.add_assoc. }
  unfold axis_sum.
  rewrite (map_ext _ _ Hterm). reflexivity.
Qed.
End Tier3Backward.

(** ** The backward formulas in the three tiers *)

Local Open Scope nat_scope.

Lemma IntegerArithmetic_exact :
  @ExactAccumulation Z Z IntegerArithmetic.
Proof.
  constructor; simpl; intros; lia.
Qed.

(** C3: for every slice along the reduced axis, softmax backward computes
    gradInput = output * (gradOutput - sum(output * gradOutput)) and
    log-softmax backward computes
    gradInput = gradOutput - exp(output) * sum(gradOutput), the sum being
    taken over the reduced axis in the accumulation type, in the
    register-resident, the streaming and the spatial kernel. *)
Theorem softmax_backward_all_tiers :
  forall (scalar_t accscalar_t : Type) (N : SoftmaxNumerics scalar_t accscalar_t)
         (E : ExactAccumulation scalar_t accscalar_t)
         (LogSoftMax : bool) (output gradOutput old : nat -> scalar_t)
         (dim_size : nat),
    1 <= dim_size ->
    (forall vec_size NUM local_size p,
        1 <= vec_size ->
        dim_size mod vec_size = 0 ->
        dim_size <= vec_size * NUM * local_size ->
        p < dim_size ->
        apply_writes
          (DispatchSoftmaxBackwardKernelFunctor
             vec_size NUM LogSoftMax false dim_size local_size
             output gradOutput (fun _ => false)) old p
        = softmax_backward_value
            LogSoftMax
            (axis_sum (backward_term LogSoftMax output gradOutput) dim_size)
            (output p) (gradOutput p)) /\
    (forall vec_size start local_size p,
        1 <= vec_size ->
        start < vec_size ->
        1 <= local_size ->
        p < dim_size ->
        apply_writes
          (SoftmaxBackwardKernelFunctor
             vec_size start local_size dim_size LogSoftMax output gradOutput)
          old p
        = softmax_backward_value
            LogSoftMax
            (axis_sum (backward_term LogSoftMax output gradOutput) dim_size)
            (output p) (gradOutput p)) /\
    (forall vec_size inner_size block_row global_cols i c,
        1 <= vec_size ->
        inner_size mod vec_size = 0 ->
        inner_size <= global_cols * vec_size ->
        1 <= block_row ->
        i < dim_size ->
        c < inner_size ->
        apply_writes
          (SpatialSoftmaxBackwardKernelFunctor
             vec_size dim_size inner_size block_row global_cols LogSoftMax
             output gradOutput)
          old (i * inner_size + c)
        = softmax_backward_value
            LogSoftMax
            (axis_sum (fun i' => backward_term_acc LogSoftMax output gradOutput
                                                   (i' * inner_size + c))
                      dim_size)
            (output (i * inner_size + c)) (gradOutput (i * inner_size + c))).
Proof.
  intros scalar_t accscalar_t N E LogSoftMax output gradOutput old dim_size Hdim.
  split; [|split].
  - intros vec_size NUM local_size p Hvec Hdiv Hcov Hp.
    now apply (bwd_kernel_value vec_size NUM LogSoftMax false dim_size local_size
                                output gradOutput (fun _ => false)).
  - intros vec_size start local_size p Hvec Hstart Hls Hp.
    now apply stream_bwd_kernel_value.
  - intros vec_size inner_size block_row global_cols i c
           Hvec Hdiv Hcols Hrow Hi Hc.
    now apply spatial_bwd_kernel_value.
Qed.

Lemma softmax_backward_all_tiers_witness :
  1 <= 6 /\
  apply_writes
    (@DispatchSoftmaxBackwardKernelFunctor
       Z Z IntegerArithmetic 2 1 false false 6 3
       (fun p => Z.of_nat p) (fun p => Z.of_nat (2 * p)) (fun _ => false))
    (fun _ => 0%Z) 4
  = @softmax_backward_value
      Z Z IntegerArithmetic false
      (@axis_sum Z Z IntegerArithmetic
                 (@backward_term Z Z IntegerArithmetic false
                                 (fun p => Z.of_nat p)
                                 (fun p => Z.of_nat (2 * p))) 6)
      4%Z 8%Z.
Proof.
  split; [lia|].
  apply (proj1 (softmax_backward_all_tiers
                  Z Z IntegerArithmetic IntegerArithmetic_exact false
                  (fun p => Z.of_nat p) (fun p => Z.of_nat (2 * p))
                  (fun _ => 0%Z) 6 ltac:(lia)) 2 1 3 4); try lia.
  reflexivity.
Defined.

(** The three kernels on a row of six elements (two inner offsets for the
    spatial one): the same values. *)
Example backward_tier1_row :
  map (apply_writes
         (@DispatchSoftmaxBackwardKernelFunctor
            Z Z IntegerArithmetic 2 1 false false 6 3
            (fun p => Z.of_nat p) (fun p => Z.of_nat (2 * p)) (fun _ => false))
         (fun _ => 0%Z)) (seq 0 6)
  = [0; -108; -212; -312; -408; -500]%Z.
Proof. reflexivity. Qed.

Example backward_tier2_row :
  map (apply_writes
         (@SoftmaxBackwardKernelFunctor
            Z Z IntegerArithmetic 4 3 2 6 false
            (fun p => Z.of_nat p) (fun p => Z.of_nat (2 * p)))
         (fun _ => 0%Z)) (seq 0 6)
  = [0; -108; -212; -312; -408; -500]%Z.
Proof. reflexivity. Qed.

(** ** The forward kernels: what is stored where *)

Local Open Scope nat_scope.

Section ForwardValues.
Context {scalar_t accscalar_t : Type} `{N : SoftmaxNumerics scalar_t accscalar_t}.

Section Tier1.
Variables (vec_size outer_loop : nat) (LogSoftMax is_masked : bool).
Variables (dim_size local_size : nat).
Variables (in_data : nat -> scalar_t) (mask_data : nat -> bool).
Hypothesis Hvec : 1 <= vec_size.
Hypothesis Hdiv : dim_size mod vec_size = 0.
Hypothesis Hcov : dim_size <= vec_size * outer_loop * local_size.
Hypothesis Hdim : 1 <= dim_size.

Lemma fwd_positions_partition :
  Permutation
    (flat_map (fwd_positions vec_size outer_loop dim_size local_size)
              (seq 0 local_size))
    (seq 0 dim_size).
Proof.
  unfold fwd_positions.
  apply (register_positions_partition
           vec_size outer_loop dim_size local_size
           (fwd_vector_index vec_size local_size)); auto.
  intros lid i. unfold fwd_vector_index. lia.
Qed.


Lemma fwd_kernel_value (old : nat -> scalar_t) (p : nat) :
  p < dim_size ->
  apply_writes
    (DispatchSoftmaxForwardKernelFunctor
       vec_size outer_loop LogSoftMax is_masked dim_size local_size
       in_data mask_data) old p
  = fwd_update vec_size outer_loop LogSoftMax is_masked dim_size local_size
               in_data mask_data
               (fwd_reg_in is_masked in_data mask_data p).
Proof.
  intros Hp. unfold DispatchSoftmaxForwardKernelFunctor, fwd_thread_writes.
  apply (apply_writes_found
           _ old p
           (fun q => fwd_update vec_size outer_loop LogSoftMax is_masked dim_size
                                local_size in_data mask_data
                                (fwd_reg_in is_masked in_data mask_data q))).
  - intros q v Hin.
    apply (flat_map_writes_value
             (fwd_positions vec_size outer_loop dim_size local_size)
             (fun q => fwd_update _ _ _ _ _ _ _ _ _) _ _ _ Hin).
  - rewrite (flat_map_writes_fst
               (fwd_positions vec_size outer_loop dim_size local_size)
               (fun q => fwd_update _ _ _ _ _ _ _ _ _)).
    apply (Permutation_in _ (Permutation_sym fwd_positions_partition)).
    apply in_seq. lia.
Qed.
End Tier1.

Section Tier2.
Variables (vec_size start local_size dim_size : nat) (LogSoftMax : bool).
Variable in_data : nat -> scalar_t.
Hypothesis Hvec : 1 <= vec_size.
Hypothesis Hstart : start < vec_size.
Hypothesis Hls : 1 <= local_size.


Lemma stream_kernel_value (old : nat -> scalar_t) (p : nat) :
  p < dim_size ->
  apply_writes
    (SoftmaxForwardKernelFunctor vec_size start local_size dim_size LogSoftMax
                                 in_data) old p
  = stream_update vec_size start local_size dim_size LogSoftMax in_data
                  (in_data p).
Proof.
  intros Hp. unfold SoftmaxForwardKernelFunctor, stream_thread_writes.
  rewrite (flat_map_ext_in
             _ (fun id => map (fun q => (q, stream_update
                                              vec_size start local_size dim_size
                                              LogSoftMax in_data (in_data q)))
                              (stream_positions vec_size start local_size
                                                dim_size id)))
    by (intros id _; now rewrite stream_update_positions_eq).
  apply (apply_writes_found
           _ old p
           (fun q => stream_update vec_size start local_size dim_size LogSoftMax
                                   in_data (in_data q))).
  - intros q v Hin.
    apply (flat_map_writes_value
             (stream_positions vec_size start local_size dim_size)
             (fun q => stream_update _ _ _ _ LogSoftMax in_data (in_data q))
             _ _ _ Hin).
  - rewrite (flat_map_writes_fst
               (stream_positions vec_size start local_size dim_size)
               (fun q => stream_update _ _ _ _ LogSoftMax in_data (in_data q))).
    assert (Hperm : Permutation
                      (flat_map (stream_positions vec_size start local_size dim_size)
                                (seq 0 local_size))
                      (seq 0 dim_size))
      by now apply stream_positions_partition.
    apply (Permutation_in _ (Permutation_sym Hperm)).
    apply in_seq. lia.
Qed.
End Tier2.

Section Tier3.
Variables (vec_size dim_size inner_size block_row global_cols : nat).
Variable LogSoftMax : bool.
Variable in_data : nat -> scalar_t.
Hypothesis Hvec : 1 <= vec_size.
Hypothesis Hdiv : inner_size mod vec_size = 0.
Hypothesis Hcols : inner_size <= global_cols * vec_size.
Hypothesis Hrow : 1 <= block_row.

Lemma spatial_writes_inv (o : nat) (v : scalar_t) :
  In (o, v) (SpatialSoftmaxForwardKernelFunctor
               vec_size dim_size inner_size block_row global_cols LogSoftMax
               in_data) ->
  exists i global_col j,
    i < dim_size /\ j < vec_size /\ global_col * vec_size + j < inner_size /\
    o = spatial_offset vec_size inner_size i global_col j /\
    v = spatial_update vec_size dim_size inner_size block_row LogSoftMax in_data
                       global_col j (in_data o).
Proof.
  unfold SpatialSoftmaxForwardKernelFunctor, spatial_thread_writes.
  intros Hin.
  apply in_flat_map in Hin. destruct Hin as (gc & _ & Hin).
  apply in_flat_map in Hin. destruct Hin as (r & _ & Hin).
  destruct (Nat.ltb_spec (gc * vec_size) inner_size) as [Hgc | Hgc]; [|contradiction].
  apply in_flat_map in Hin. destruct Hin as (i & Hi & Hin).
  apply in_map_iff in Hin. destruct Hin as (j & Heq & Hj).
  injection Heq as <- <-. apply in_seq in Hj.
  apply strided_In in Hi; [|assumption].
  exists i, gc, j. repeat split; try lia.
  pose proof (Nat.div_mod_eq inner_size vec_size) as Hdm. rewrite Hdiv in Hdm.
  assert (gc < inner_size / vec_size) by nia. nia.
Qed.

Lemma spatial_writes_cover (i c : nat) :
  i < dim_size -> c < inner_size ->
  In (i * inner_size + c)
     (map fst (SpatialSoftmaxForwardKernelFunctor
                 vec_size dim_size inner_size block_row global_cols LogSoftMax
                 in_data)).
Proof.
  intros Hi Hc.
  pose proof (Nat.div_mod_eq c vec_size) as Hdm.
  pose proof (Nat.mod_upper_bound c vec_size ltac:(lia)) as Hmod.
  apply in_map_iff.
  exists (spatial_offset vec_size inner_size i (c / vec_size) (c mod vec_size),
          spatial_update vec_size dim_size inner_size block_row LogSoftMax in_data
                         (c / vec_size) (c mod vec_size)
                         (in_data (spatial_offset vec_size inner_size i
                                                  (c / vec_size) (c mod vec_size)))).
  split; [unfold spatial_offset; simpl; lia|].
  unfold SpatialSoftmaxForwardKernelFunctor, spatial_thread_writes.
  apply in_flat_map. exists (c / vec_size). split.
  { apply in_seq. split; [lia|]. simpl.
    apply Nat.Div0.div_lt_upper_bound. lia. }
  apply in_flat_map. exists (i mod block_row). split.
  { apply in_seq. pose proof (Nat.mod_upper_bound i block_row ltac:(lia)). lia. }
  destruct (Nat.ltb_spec (c / vec_size * vec_size) inner_size) as [Hgc | Hgc]; [|lia].
  apply in_flat_map. exists i. split.
  { apply strided_In; [assumption|].
    pose proof (Nat.div_mod_eq i block_row) as Hdi.
    pose proof (Nat.mod_upper_bound i block_row ltac:(lia)).
    split; [lia|]. split; [lia|].
    replace (i - i mod block_row) with (i / block_row * block_row) by lia.
    apply Nat.Div0.mod_mul. }
  apply in_map_iff. exists (c mod vec_size). split; [reflexivity|].
  apply in_seq. lia.
Qed.

Lemma spatial_kernel_value (old : nat -> scalar_t) (i global_col j : nat) :
  i < dim_size -> j < vec_size -> global_col * vec_size + j < inner_size ->
  apply_writes
    (SpatialSoftmaxForwardKernelFunctor
       vec_size dim_size inner_size block_row global_cols LogSoftMax in_data)
    old (spatial_offset vec_size inner_size i global_col j)
  = spatial_update vec_size dim_size inner_size block_row LogSoftMax in_data
                   global_col j
                   (in_data (spatial_offset vec_size inner_size i global_col j)).
Proof.
  intros Hi Hj Hc.
  set (value := fun q =>
                  spatial_update vec_size dim_size inner_size block_row LogSoftMax
                                 in_data
                                 ((q mod inner_size) / vec_size)
                                 ((q mod inner_size) mod vec_size) (in_data q)).
  assert (Hdecode : forall i' gc' j',
             j' < vec_size -> gc' * vec_size + j' < inner_size ->
             (spatial_offset vec_size inner_size i' gc' j' mod inner_size) / vec_size
             = gc' /\
             (spatial_offset vec_size inner_size i' gc' j' mod inner_size)
               mod vec_size = j').
  { intros i' gc' j' Hj' Hc'. unfold spatial_offset.
    rewrite <- Nat.add_assoc, Nat.add_comm, Nat.Div0.mod_add.
    rewrite (Nat.mod_small _ inner_size) by assumption.
    split.
    - rewrite Nat.add_comm, Nat.div_add by lia.
      rewrite Nat.div_small by assumption. reflexivity.
    - rewrite Nat.add_comm, Nat.Div0.mod_add. now apply Nat.mod_small. }
  assert (Hval : value (spatial_offset vec_size inner_size i global_col j)
                 = spatial_update
                     vec_size dim_size inner_size block_row LogSoftMax in_data
                     global_col j
                     (in_data (spatial_offset vec_size inner_size i global_col j))).
  { unfold value. destruct (Hdecode i global_col j Hj Hc) as [-> ->]. reflexivity. }
  rewrite <- Hval.
  apply apply_writes_found.
  - intros q v Hin. apply spatial_writes_inv in Hin.
    destruct Hin as (i' & gc & j' & Hi' & Hj' & Hgc & -> & ->).
    unfold value. destruct (Hdecode i' gc j' Hj' Hgc) as [-> ->]. reflexivity.
  - unfold spatial_offset. rewrite <- Nat.add_assoc.
    apply spatial_writes_cover; assumption.
Qed.
End Tier3.
End ForwardValues.

(** ** IEEE arithmetic: the zero-sum case of the forward kernels *)

Local Open Scope nat_scope.







Section IEEEForward.
Variables exp_finite log_finite : spec_float -> spec_float.
Variable in_data : nat -> spec_float.


End IEEEForward.

Local Open Scope nat_scope.



(** ** Masked softmax: the masked positions *)

Local Open Scope nat_scope.




Section Tier1BackwardRaw.
Context {scalar_t accscalar_t : Type} `{N : SoftmaxNumerics scalar_t accscalar_t}.
Variables (vec_size NUM : nat) (LogSoftMax is_masked : bool).
Variables (dim_size local_size : nat).
Variables (output gradOutput : nat -> scalar_t) (mask_data : nat -> bool).
Hypothesis Hvec : 1 <= vec_size.
Hypothesis Hdiv : dim_size mod vec_size = 0.
Hypothesis Hcov : dim_size <= vec_size * NUM * local_size.
Hypothesis Hdim : 1 <= dim_size.

End Tier1BackwardRaw.

Section FullyMaskedRow.
Variables exp_finite log_finite : spec_float -> spec_float.
Variables (vec_size outer_loop dim_size local_size : nat).
Variables (in_data : nat -> spec_float) (mask_data : nat -> bool).
Hypothesis Hvec : 1 <= vec_size.
Hypothesis Hdiv : dim_size mod vec_size = 0.
Hypothesis Hcov : dim_size <= vec_size * outer_loop * local_size.
Hypothesis Hdim : 1 <= dim_size.
Hypothesis Hmask : forall q, q < dim_size -> mask_data q = true.




End FullyMaskedRow.

Local Open Scope nat_scope.

(** The launch of masked softmax on a float row of one element: the
    register-resident kernel with vec_size 1 and 16 loads per work item, in
    a work group of one work item per row. *)
Example masked_launch_single_element :
  MaskedSoftMaxForward_launch Float (mkDevice 1024 32 65536)
                              (mkSoftmaxArgs 1 1 1 0 0 true)
  = masked_dispatch_softmax_forward_kernel 8 1 16 16 /\
  option_map local_size_col (get_wgroup_size 16 1 16 1024 1 1) = Some 1%Z.
Proof. split; reflexivity. Qed.





Example masked_forward_row :
  map (apply_writes
         (@DispatchSoftmaxForwardKernelFunctor
            _ _ (Float32 (fun x => x) (fun x => x))
            1 16 false true 2 1 (fun _ => S754_zero false) mask_data_example)
         (fun _ => S754_nan)) (seq 0 2)
  = [f32_one; S754_zero false].
Proof. reflexivity. Qed.

(** Log-softmax of a row of two -infinity values in the register-resident
    kernel: the -infinity of log(0) meets the -infinity of the shifted input
    and the stored value is NaN. *)
Example log_softmax_all_neginf_row :
  map (apply_writes
         (@DispatchSoftmaxForwardKernelFunctor
            _ _ (Float32 (fun x => x) (fun x => x))
            1 2 true false 2 1 (fun _ => S754_infinity true) (fun _ => false))
         (fun _ => S754_zero false)) (seq 0 2)
  = [S754_nan; S754_nan].
Proof. reflexivity. Qed.

(* ===================================================================== *)
(** * Part VI: further properties of the indexed min/max operators        *)
(* ===================================================================== *)

Local Open Scope Z_scope.

Section CombineAlgebra.
Context {scalar_t : Type} `{N : Numerics scalar_t}.
Variable lt : scalar_t -> scalar_t -> bool.
Hypothesis lt_ok : StrictOrNan lt.
Hypothesis eq_symm : forall a b : scalar_t, num_eq a b = num_eq b a.
Hypothesis eq_nan_r : forall a b : scalar_t, isnan b = true -> num_eq a b = false.

Lemma before_not_nan (a b : arg_t scalar_t) :
  isnan (first a) = false ->
  before lt a b = true ->
  isnan (first b) = false /\
  (num_eq (first a) (first b) = true /\ second a < second b
   \/ num_eq (first a) (first b) = false /\ lt (first a) (first b) = true).
Proof.
  unfold before, or_nan. intros Ha. rewrite Ha.
  destruct (num_eq (first a) (first b)) eqn:Eeq.
  - intros Hidx. split.
    + eapply num_eq_not_nan_r; eauto.
    + left. split; [reflexivity | now apply Z.ltb_lt].
  - intros Hlt. split.
    + eapply lt_not_nan_r; eauto.
    + right. split; [reflexivity | assumption].
Qed.

Lemma before_intro_eq (a b : arg_t scalar_t) :
  num_eq (first a) (first b) = true -> second a < second b ->
  before lt a b = true.
Proof.
  intros Heq Hidx. unfold before, or_nan.
  rewrite (num_eq_not_nan_l eq_symm eq_nan_r _ _ Heq), Heq.
  now apply Z.ltb_lt.
Qed.

Lemma before_intro_lt (a b : arg_t scalar_t) :
  lt (first a) (first b) = true -> before lt a b = true.
Proof.
  intros Hlt. unfold before, or_nan.
  rewrite (lt_not_nan_l lt lt_ok _ _ Hlt), (lt_not_eq lt lt_ok _ _ Hlt).
  assumption.
Qed.

Lemma before_nan_l (a b : arg_t scalar_t) :
  isnan (first a) = true ->
  before lt a b = (if isnan (first b) then second a <? second b else true).
Proof. intros Ha. unfold before, or_nan. now rewrite Ha. Qed.

Lemma before_nan_r (a b : arg_t scalar_t) :
  isnan (first a) = false -> isnan (first b) = true -> before lt a b = false.
Proof.
  intros Ha Hb. unfold before, or_nan.
  now rewrite Ha, (eq_nan_r _ _ Hb), (son_nan_r lt lt_ok _ _ Hb).
Qed.

Lemma before_asym (a b : arg_t scalar_t) :
  before lt a b = true -> before lt b a = false.
Proof.
  intros Hab. destruct (isnan (first a)) eqn:Ea.
  - rewrite before_nan_l in Hab by assumption.
    destruct (isnan (first b)) eqn:Eb.
    + rewrite before_nan_l, Ea by assumption.
      apply Z.ltb_lt in Hab. apply Z.ltb_ge. lia.
    + now apply before_nan_r.
  - destruct (before_not_nan a b Ea Hab) as [Eb [[Heq Hidx] | [Hne Hlt]]].
    + unfold before, or_nan. rewrite Eb, eq_symm, Heq. apply Z.ltb_ge. lia.
    + unfold before, or_nan. rewrite Eb, eq_symm, Hne.
      now apply (son_asym lt lt_ok).
Qed.

Lemma before_trans (a b c : arg_t scalar_t) :
  before lt a b = true -> before lt b c = true -> before lt a c = true.
Proof.
  intros Hab Hbc. destruct (isnan (first a)) eqn:Ea.
  - rewrite before_nan_l in * by assumption.
    destruct (isnan (first c)) eqn:Ec; [|reflexivity].
    destruct (isnan (first b)) eqn:Eb.
    + rewrite before_nan_l, Ec in Hbc by assumption.
      apply Z.ltb_lt in Hab, Hbc. apply Z.ltb_lt. lia.
    + rewrite before_nan_r in Hbc by assumption. discriminate.
  - destruct (before_not_nan a b Ea Hab) as [Eb Hab'].
    destruct (before_not_nan b c Eb Hbc) as [Ec Hbc'].
    destruct Hab' as [[Heq Hidx] | [Hne Hlt]],
             Hbc' as [[Heq' Hidx'] | [Hne' Hlt']].
    + apply before_intro_eq; [|lia].
      eapply (num_eq_trans lt lt_ok eq_symm eq_nan_r); eauto.
    + apply before_intro_lt.
      eapply (eq_lt_trans lt lt_ok eq_symm eq_nan_r); eauto.
    + apply before_intro_lt. eapply (son_lt_eq lt lt_ok); eauto.
    + apply before_intro_lt. eapply (son_trans lt lt_ok); eauto.
Qed.

(** Two accumulators with different indices are always ordered. *)
Lemma before_total (a b : arg_t scalar_t) :
  second a <> second b -> before lt a b = true \/ before lt b a = true.
Proof.
  intros Hidx.
  assert (Hord : second a < second b \/ second b < second a) by lia.
  destruct (isnan (first a)) eqn:Ea, (isnan (first b)) eqn:Eb.
  - rewrite !before_nan_l, Ea, Eb by assumption.
    destruct Hord; [left | right]; now apply Z.ltb_lt.
  - left. now rewrite before_nan_l, Eb.
  - right. now rewrite before_nan_l, Ea.
  - destruct (son_total lt lt_ok _ _ Ea Eb) as [E | [E | E]].
    + destruct Hord; [left | right]; apply before_intro_eq; auto.
      now rewrite eq_symm.
    + left. now apply before_intro_lt.
    + right. now apply before_intro_lt.
Qed.

Lemma before_neg_trans (a b c : arg_t scalar_t) :
  before lt a b = false -> before lt b c = false -> before lt a c = false.
Proof.
  intros Hab Hbc. destruct (before lt a c) eqn:Hac; [|reflexivity]. exfalso.
  destruct (isnan (first a)) eqn:Ea.
  - rewrite before_nan_l in Hab, Hac by assumption.
    destruct (isnan (first b)) eqn:Eb; [|discriminate].
    rewrite before_nan_l in Hbc by assumption.
    destruct (isnan (first c)) eqn:Ec; [|discriminate].
    apply Z.ltb_lt in Hac. apply Z.ltb_ge in Hab, Hbc. lia.
  - destruct (before_not_nan a c Ea Hac) as [Ec Hac'].
    destruct (isnan (first b)) eqn:Eb.
    { rewrite before_nan_l, Ec in Hbc by assumption. discriminate. }
    destruct (son_total lt lt_ok _ _ Ea Eb) as [E | [E | E]].
    + (* a == b *)
      assert (Hidx : second b <= second a).
      { destruct (Z.lt_ge_cases (second a) (second b)) as [Hlt | Hge]; [|lia].
        rewrite (before_intro_eq a b E Hlt) in Hab. discriminate. }
      rewrite eq_symm in E.
      destruct Hac' as [[Heq Hi] | [Hne Hlt]].
      * rewrite before_intro_eq in Hbc; [discriminate | | lia].
        eapply (num_eq_trans lt lt_ok eq_symm eq_nan_r); eauto.
      * rewrite before_intro_lt in Hbc; [discriminate|].
        eapply (eq_lt_trans lt lt_ok eq_symm eq_nan_r); eauto.
    + rewrite (before_intro_lt a b E) in Hab. discriminate.
    + (* b < a *)
      destruct Hac' as [[Heq Hi] | [Hne Hlt]].
      * rewrite before_intro_lt in Hbc; [discriminate|].
        eapply (son_lt_eq lt lt_ok); eauto.
      * rewrite before_intro_lt in Hbc; [discriminate|].
        eapply (son_trans lt lt_ok); eauto.
Qed.

Lemma combine_before (a b : arg_t scalar_t) :
  MinMaxReductionOps.combine (or_nan lt) a b = if before lt a b then a else b.
Proof. reflexivity. Qed.

Lemma combine_assoc_or_nan (a b c : arg_t scalar_t) :
  MinMaxReductionOps.combine (or_nan lt) (MinMaxReductionOps.combine (or_nan lt) a b) c
  = MinMaxReductionOps.combine (or_nan lt) a (MinMaxReductionOps.combine (or_nan lt) b c).
Proof.
  rewrite !combine_before.
  destruct (before lt a b) eqn:Hab, (before lt b c) eqn:Hbc;
    rewrite ?combine_before, ?Hab, ?Hbc; try reflexivity.
  - now rewrite (before_trans a b c Hab Hbc).
  - now rewrite (before_neg_trans a b c Hab Hbc).
Qed.

Lemma combine_comm_or_nan (a b : arg_t scalar_t) :
  second a <> second b ->
  MinMaxReductionOps.combine (or_nan lt) a b
  = MinMaxReductionOps.combine (or_nan lt) b a.
Proof.
  intros Hidx. rewrite !combine_before.
  destruct (before_total a b Hidx) as [H | H].
  - now rewrite H, (before_asym a b H).
  - now rewrite H, (before_asym b a H).
Qed.

(** The extreme of a slice satisfies the invariant of the fold. *)
Lemma extreme_fold_inv (slice : list scalar_t) (r : arg_t scalar_t) :
  extreme_at lt slice r -> fold_inv lt slice r.
Proof.
  intros (k & Hk & Hnth & Hcase). exists k. split; [assumption|].
  split; [assumption|].
  destruct (existsb isnan slice) eqn:Eex.
  - left. assumption.
  - right.
    assert (Hnone : forall y, In y slice -> isnan y = false).
    { intros y Hy. destruct (isnan y) eqn:E; auto.
      assert (existsb isnan slice = true) by (apply existsb_exists; eauto).
      congruence. }
    destruct Hcase as [Hmin Hno].
    assert (Hr : isnan (first r) = false).
    { apply Hnone. eapply nth_error_In; eauto. }
    assert (Hrel : forall y, In y slice ->
              lt (first r) y = true \/ num_eq (first r) y = true).
    { intros y Hy.
      destruct (son_total lt lt_ok _ _ Hr (Hnone y Hy)) as [E | [E | E]]; auto.
      rewrite (Hmin y Hy) in E. discriminate. }
    split; [assumption|]. split; [assumption|]. split.
    + intros j y Hj Hy.
      destruct (Hrel y (nth_error_In _ _ Hy)) as [E | E]; [assumption|].
      rewrite eq_symm, (Hno j y Hj Hy) in E. discriminate.
    + intros j y _ Hy. apply Hrel. eapply nth_error_In; eauto.
Qed.

Lemma combine_extreme_or_nan (c0 c1 : list scalar_t) (r0 r1 : arg_t scalar_t) :
  extreme_at lt c0 r0 -> extreme_at lt c1 r1 ->
  extreme_at lt (c0 ++ c1)
    (MinMaxReductionOps.combine (or_nan lt) r0
       (MinMaxReductionOps.translate_idx r1 (Z.of_nat (List.length c0)))).
Proof.
  intros H0 H1. apply (fold_inv_extreme lt lt_ok eq_symm).
  apply (fold_inv_combine lt lt_ok eq_symm eq_nan_r); now apply extreme_fold_inv.
Qed.
End CombineAlgebra.

(** X1: the partial results of two adjacent chunks of a slice, each with
    indices local to its chunk, are merged by [translate_idx] and [combine]
    into the result for the whole slice: if [r0] is the indexed minimum
    (maximum) of [c0] and [r1] that of [c1], then combining [r0] with [r1]
    moved by the length of [c0] is the indexed minimum (maximum) of
    [c0 ++ c1], NaN rule and lowest-index rule included. *)
Theorem combine_merges_adjacent_chunks :
  forall (scalar_t : Type) (N : Numerics scalar_t) (L : NumericsLaws scalar_t)
         (c0 c1 : list scalar_t) (r0 r1 : arg_t scalar_t),
    (extreme_at num_lt c0 r0 -> extreme_at num_lt c1 r1 ->
     extreme_at num_lt (c0 ++ c1)
       (MinOps.combine r0 (MinOps.translate_idx r1 (Z.of_nat (List.length c0)))))
    /\
    (extreme_at num_gt c0 r0 -> extreme_at num_gt c1 r1 ->
     extreme_at num_gt (c0 ++ c1)
       (MaxOps.combine r0 (MaxOps.translate_idx r1 (Z.of_nat (List.length c0))))).
Proof.
  intros scalar_t N L c0 c1 r0 r1. split; intros H0 H1.
  - unfold MinOps.combine, MinOps.translate_idx. rewrite LessOrNan_or_nan.
    apply combine_extreme_or_nan;
      auto using StrictOrNan_lt, eq_sym, nan_eq_r.
  - unfold MaxOps.combine, MaxOps.translate_idx. rewrite GreaterOrNan_or_nan.
    apply combine_extreme_or_nan;
      auto using StrictOrNan_gt, eq_sym, nan_eq_r.
Qed.

Lemma combine_merges_adjacent_chunks_witness :
  extreme_at num_lt [f32_of_Z 3; f32_of_Z 2] (mk_arg (f32_of_Z 2) 1) /\
  extreme_at num_lt [f32_of_Z 1; S754_nan] (mk_arg S754_nan 1) /\
  extreme_at num_lt ([f32_of_Z 3; f32_of_Z 2] ++ [f32_of_Z 1; S754_nan])
             (mk_arg S754_nan 3).
Proof.
  assert (H0 : extreme_at num_lt [f32_of_Z 3; f32_of_Z 2] (mk_arg (f32_of_Z 2) 1)).
  { exact (proj1 (min_max_slice_extreme [f32_of_Z 3; f32_of_Z 2]
                                         ltac:(discriminate))). }
  assert (H1 : extreme_at num_lt [f32_of_Z 1; S754_nan] (mk_arg S754_nan 1)).
  { exact (proj1 (min_max_slice_extreme [f32_of_Z 1; S754_nan]
                                         ltac:(discriminate))). }
  split; [exact H0|]. split; [exact H1|].
  exact (proj1 (combine_merges_adjacent_chunks
                  spec_float Numerics_float NumericsLaws_float
                  [f32_of_Z 3; f32_of_Z 2] [f32_of_Z 1; S754_nan]
                  (mk_arg (f32_of_Z 2) 1) (mk_arg S754_nan 1)) H0 H1).
Defined.

(** X2: [combine] is associative, for indexed-min and for indexed-max:
    merging three partial results gives the same accumulator whichever pair
    is merged first, NaN values and equal indices included. *)
Theorem combine_is_associative :
  forall (scalar_t : Type) (N : Numerics scalar_t) (L : NumericsLaws scalar_t)
         (a b c : arg_t scalar_t),
    MinOps.combine (MinOps.combine a b) c = MinOps.combine a (MinOps.combine b c)
    /\
    MaxOps.combine (MaxOps.combine a b) c = MaxOps.combine a (MaxOps.combine b c).
Proof.
  intros scalar_t N L a b c. split.
  - unfold MinOps.combine. rewrite LessOrNan_or_nan.
    apply combine_assoc_or_nan; auto using StrictOrNan_lt, eq_sym, nan_eq_r.
  - unfold MaxOps.combine. rewrite GreaterOrNan_or_nan.
    apply combine_assoc_or_nan; auto using StrictOrNan_gt, eq_sym, nan_eq_r.
Qed.

Lemma combine_is_associative_witness :
  MinOps.combine (MinOps.combine (mk_arg (f32_of_Z 3) 0) (mk_arg S754_nan 1))
                 (mk_arg (f32_of_Z 1) 2)
  = MinOps.combine (mk_arg (f32_of_Z 3) 0)
                   (MinOps.combine (mk_arg S754_nan 1) (mk_arg (f32_of_Z 1) 2)).
Proof.
  exact (proj1 (combine_is_associative
                  spec_float Numerics_float NumericsLaws_float
                  (mk_arg (f32_of_Z 3) 0) (mk_arg S754_nan 1)
                  (mk_arg (f32_of_Z 1) 2))).
Defined.

(** X3: [combine] is commutative on accumulators that carry different
    indices, for indexed-min and for indexed-max: the merged result does not
    depend on which partial result is passed first. *)
Theorem combine_is_commutative :
  forall (scalar_t : Type) (N : Numerics scalar_t) (L : NumericsLaws scalar_t)
         (a b : arg_t scalar_t),
    second a <> second b ->
    MinOps.combine a b = MinOps.combine b a /\
    MaxOps.combine a b = MaxOps.combine b a.
Proof.
  intros scalar_t N L a b Hidx. split.
  - unfold MinOps.combine. rewrite LessOrNan_or_nan.
    apply combine_comm_or_nan; auto using StrictOrNan_lt, eq_sym, nan_eq_r.
  - unfold MaxOps.combine. rewrite GreaterOrNan_or_nan.
    apply combine_comm_or_nan; auto using StrictOrNan_gt, eq_sym, nan_eq_r.
Qed.

Lemma combine_is_commutative_witness :
  second (mk_arg S754_nan 4) <> second (mk_arg (f32_of_Z 1) 2) /\
  MinOps.combine (mk_arg S754_nan 4) (mk_arg (f32_of_Z 1) 2)
  = MinOps.combine (mk_arg (f32_of_Z 1) 2) (mk_arg S754_nan 4) /\
  MaxOps.combine (mk_arg S754_nan 4) (mk_arg (f32_of_Z 1) 2)
  = MaxOps.combine (mk_arg (f32_of_Z 1) 2) (mk_arg S754_nan 4).
Proof.
  split; [simpl; lia|].
  apply (combine_is_commutative spec_float Numerics_float NumericsLaws_float).
  simpl. lia.
Defined.

(** With equal indices the order of the arguments can matter: of two
    accumulators that compare equal, [combine] returns the second. *)
Example combine_equal_indices :
  MinOps.combine (mk_arg (S754_zero false) 0) (mk_arg (S754_zero true) 0)
  <> MinOps.combine (mk_arg (S754_zero true) 0) (mk_arg (S754_zero false) 0).
Proof. vm_compute. discriminate. Qed.

(* ===================================================================== *)
(** * Part VII: further properties of the launch configuration            *)
(* ===================================================================== *)

Local Open Scope Z_scope.




(** Without the divisibility the work group can exceed the limit: with a
    limit of 40 work items and sub-groups of 32, a row of 400 elements is
    given 64 work items. *)
Example get_wgroup_size_exceeds_limit :
  get_wgroup_size 32 1 8 40 400 1 = Some (mk_wgroup 2 (Some 2) 1 1 64).
Proof. reflexivity. Qed.

Lemma backward_fast_path_is_dispatch (t : FloatingType) (SIMD : Z)
      (a : SoftmaxBackwardArgs) :
  exists v s, backward_fast_path t SIMD a = (v, s).
Proof.
  destruct (backward_fast_path t SIMD a) as [v s]. eauto.
Qed.

(** X5: the backward dispatcher selects the register-resident kernel exactly
    when inner_size == 1, 32-bit indexing is possible for the three tensors
    and max_work_group_size * max_vec_size >= dim_size (the backward
    INNER_LOOP is max_vec_size, half of the forward one); the streaming
    kernel exactly when inner_size == 1 and one of the other two conditions
    fails; the spatial kernel exactly when inner_size > 1. *)
Theorem backward_dispatch_strategy :
  forall (t : FloatingType) (dev : Device) (a : SoftmaxBackwardArgs),
    1 <= bw_inner_size a ->
    let fits := bw_can_use_32bit_index a = true /\
                dpcppMaxWorkGroupSize dev * max_vec_size t >= bw_dim_size a in
    let launch := SpatialSoftMaxBackward t dev a in
    (backward_strategy_of launch = register_resident
     <-> bw_inner_size a = 1 /\ fits) /\
    (backward_strategy_of launch = streaming
     <-> bw_inner_size a = 1 /\ ~ fits) /\
    (backward_strategy_of launch = spatial <-> bw_inner_size a > 1).
Proof.
  intros t dev a Hinner fits launch.
  subst launch fits. unfold SpatialSoftMaxBackward.
  destruct (backward_fast_path_is_dispatch
              t (decide_SIMD dev (bw_dim_size a) (max_vec_size t)) a)
    as (v & s & Hfast).
  rewrite Hfast.
  destruct (Z.eqb_spec (bw_inner_size a) 1) as [E1 | E1];
    destruct (bw_can_use_32bit_index a) eqn:E32;
    destruct (Z.geb_spec (dpcppMaxWorkGroupSize dev * max_vec_size t)
                         (bw_dim_size a)) as [Eg | Eg];
    destruct ((gradin_start a =? bw_output_start a)
              && (gradin_start a =? gradoutput_start a));
    destruct (Z.rem (bw_inner_size a) (max_vec_size t) =? 0);
    simpl; strategy_cases.
Qed.

Lemma backward_dispatch_strategy_witness :
  1 <= bw_inner_size (mkSoftmaxBackwardArgs 1 5000 64 0 0 0 true) /\
  backward_strategy_of
    (SpatialSoftMaxBackward Float (mkDevice 1024 32 65536)
                            (mkSoftmaxBackwardArgs 1 5000 64 0 0 0 true))
  = streaming.
Proof.
  split; [simpl; lia|].
  apply (proj1 (proj2 (backward_dispatch_strategy
                         Float (mkDevice 1024 32 65536)
                         (mkSoftmaxBackwardArgs 1 5000 64 0 0 0 true)
                         ltac:(simpl; lia)))).
  simpl. split; [reflexivity|]. intros [_ H]. vm_compute in H. apply H. reflexivity.
Defined.

Local Open Scope Z_scope.

Lemma rem_multiple_of_4 (d m : Z) :
  m = 4 \/ m = 8 -> Z.rem d m = 0 -> Z.rem d 4 = 0.
Proof.
  intros Hm Hrem.
  assert (Hq : d = m * Z.quot d m).
  { pose proof (Z.quot_rem' d m). lia. }
  destruct Hm as [-> | ->]; rewrite Hq.
  - rewrite Z.mul_comm. apply Z.rem_mul. lia.
  - replace (8 * Z.quot d 8) with (2 * Z.quot d 8 * 4) by lia.
    apply Z.rem_mul. lia.
Qed.

(** X7: the vector width a dispatcher passes to a kernel is 1 unless the
    tensors allow vector accesses.  Register-resident kernels: the width
    divides [dim_size], and is above 1 only when every data pointer is
    aligned.  Streaming kernels: the width is [max_vec_size] exactly when
    the data pointers share their misalignment, else 1.  Spatial kernels:
    the width divides [inner_size], and is [max_vec_size] only when the data
    pointers share their misalignment. *)
Theorem vector_width_follows_alignment :
  forall (t : FloatingType) (dev : Device),
    (forall a : SoftmaxArgs,
        match SpatialSoftMaxForward t dev a with
        | dispatch_softmax_forward_kernel _ vec_size _ _ =>
            Z.rem (dim_size a) vec_size = 0 /\
            (vec_size = 1 \/
             (vec_size = 4 \/ vec_size = max_vec_size t) /\
             input_start a = 0 /\ output_start a = 0)
        | softmax_forward_kernel vec_size _ =>
            vec_size = max_vec_size t /\ input_start a = output_start a \/
            vec_size = 1 /\ input_start a <> output_start a
        | spatial_softmax_forward vec_size _ =>
            Z.rem (inner_size a) vec_size = 0 /\
            (vec_size = 1 \/
             vec_size = max_vec_size t /\ input_start a = output_start a)
        end) /\
    (forall a : SoftmaxBackwardArgs,
        let same_start := gradin_start a = bw_output_start a /\
                          gradin_start a = gradoutput_start a in
        match SpatialSoftMaxBackward t dev a with
        | dispatch_softmax_backward_kernel _ vec_size _ =>
            Z.rem (bw_dim_size a) vec_size = 0 /\
            (vec_size = 1 \/
             vec_size = max_vec_size t /\
             gradin_start a = 0 /\ bw_output_start a = 0 /\
             gradoutput_start a = 0)
        | softmax_backward_kernel vec_size =>
            vec_size = max_vec_size t /\ same_start \/
            vec_size = 1 /\ ~ same_start
        | spatial_softmax_backward_kernel vec_size =>
            Z.rem (bw_inner_size a) vec_size = 0 /\
            (vec_size = 1 \/ vec_size = max_vec_size t /\ same_start)
        end).
Proof.
  intros t dev. split.
  - intros a. unfold SpatialSoftMaxForward, forward_fast_path.
    destruct (inner_size a =? 1).
    + destruct (can_use_32bit_index a
                && (dpcppMaxWorkGroupSize dev * (max_vec_size t * 2) >=? dim_size a)).
      * destruct (Z.eqb_spec (input_start a) 0) as [Hi | Hi];
          destruct (Z.eqb_spec (output_start a) 0) as [Ho | Ho];
          destruct (Z.eqb_spec (Z.rem (dim_size a) (max_vec_size t)) 0) as [Hr | Hr];
          cbn [andb];
          destruct (decide_SIMD dev (dim_size a) (max_vec_size t * 2) =? SIMD32);
          try (split; [apply Z.rem_1_r | now left]);
          try (split; [assumption | right; auto]).
        destruct (Z.geb_spec (max_vec_size t) 4) as [Hge | Hlt]; cbn [andb].
        -- destruct (dim_size a <=? 4 * decide_SIMD dev (dim_size a) (max_vec_size t * 2)).
           ++ split; [|right; auto].
              apply (rem_multiple_of_4 _ (max_vec_size t)); [|assumption].
              destruct (max_vec_size_cases t) as [E | [E | E]]; lia.
           ++ destruct (dim_size a <=? max_vec_size t * decide_SIMD dev (dim_size a) (max_vec_size t * 2));
                (split; [assumption | right; auto]).
        -- destruct (dim_size a <=? max_vec_size t * decide_SIMD dev (dim_size a) (max_vec_size t * 2));
             (split; [assumption | right; auto]).
      * destruct (can_use_32bit_index a);
          destruct (Z.eqb_spec (input_start a) (output_start a)); auto.
    + destruct (can_use_32bit_index a);
        destruct (Z.eqb_spec (input_start a) (output_start a));
        destruct (Z.eqb_spec (Z.rem (inner_size a) (max_vec_size t)) 0);
        cbn [andb];
        try (split; [apply Z.rem_1_r | now left]);
        (split; [assumption | right; auto]).
  - intros a same_start. subst same_start.
    unfold SpatialSoftMaxBackward, backward_fast_path.
    destruct (Z.eqb_spec (gradin_start a) (bw_output_start a)) as [H1 | H1];
      destruct (Z.eqb_spec (gradin_start a) (gradoutput_start a)) as [H2 | H2];
      cbn [andb];
      (destruct (bw_inner_size a =? 1);
       [ destruct (bw_can_use_32bit_index a
                   && (dpcppMaxWorkGroupSize dev * max_vec_size t >=? bw_dim_size a));
         [ destruct (Z.eqb_spec (gradin_start a) 0);
           destruct (Z.eqb_spec (bw_output_start a) 0);
           destruct (Z.eqb_spec (gradoutput_start a) 0);
           destruct (Z.eqb_spec (Z.rem (bw_dim_size a) (max_vec_size t)) 0);
           cbn [andb];
           destruct (decide_SIMD dev (bw_dim_size a) (max_vec_size t) =? SIMD32);
           try (split; [apply Z.rem_1_r | now left]);
           (split; [assumption | right; auto])
         | try (left; split; [reflexivity | split; assumption]);
           (right; split; [reflexivity | intros [? ?]; contradiction]) ]
       | destruct (Z.eqb_spec (Z.rem (bw_inner_size a) (max_vec_size t)) 0);
         try (split; [apply Z.rem_1_r | now left]);
         (split; [assumption | right; auto]) ]).
Qed.

(** The vector width, sub-group width and loop count chosen by
    [forward_fast_path] under the capacity test give a work group that
    covers the row. *)
Lemma forward_fast_path_covers (t : FloatingType) (dev : Device)
      (a : SoftmaxArgs) (vec_size SIMD outer_loop : Z) :
  subgroup_sizes_1 dev = SIMD16 \/ subgroup_sizes_1 dev = SIMD32 ->
  1 <= dpcppMaxWorkGroupSize dev ->
  1 <= dim_size a ->
  outer_size a < 2 ^ 31 ->
  dpcppMaxWorkGroupSize dev * (max_vec_size t * 2) >= dim_size a ->
  forward_fast_path t (decide_SIMD dev (dim_size a) (max_vec_size t * 2)) a
  = (vec_size, SIMD, outer_loop) ->
  exists w,
    get_wgroup_size SIMD vec_size outer_loop (dpcppMaxWorkGroupSize dev)
                    (dim_size a) (outer_size a) = Some w /\
    vec_size * outer_loop * local_size_col w >= dim_size a.
Proof.
  intros Hdev HW Hd Ho Hfit Hsel.
  assert (Ho' : outer_size a < 2 ^ 32).
  { eapply Z.lt_trans; [exact Ho | reflexivity]. }
  assert (Hsimd : decide_SIMD dev (dim_size a) (max_vec_size t * 2) = SIMD32
                  \/ decide_SIMD dev (dim_size a) (max_vec_size t * 2) = SIMD16).
  { unfold decide_SIMD. destruct Hdev as [-> | ->].
    - right. reflexivity.
    - change (SIMD32 =? SIMD32) with true. cbv iota.
      destruct (dim_size a <? SIMD16 * (max_vec_size t * 2)); auto. }
  unfold forward_fast_path in Hsel.
  set (aligned := (input_start a =? 0) && (output_start a =? 0)
                  && (Z.rem (dim_size a) (max_vec_size t) =? 0)) in Hsel.
  destruct Hsimd as [HS | HS]; rewrite HS in Hsel;
    destruct (max_vec_size_cases t) as [E | [E | E]]; rewrite E in *;
    unfold SIMD16, SIMD32 in *; simpl in Hsel;
    destruct aligned;
    repeat match type of Hsel with
           | context [Z.leb ?x ?y] => destruct (Z.leb_spec x y); simpl in Hsel
           end;
    injection Hsel as <- <- <-;
    apply get_wgroup_size_covers; try assumption;
    try (split; reflexivity); try reflexivity;
    repeat match goal with
           | |- context [Z.quot ?x ?y] =>
               let v := eval vm_compute in (Z.quot x y) in
               change (Z.quot x y) with v
           end;
    try (left; lia); try (right; lia).
Qed.

Lemma backward_fast_path_covers (t : FloatingType) (dev : Device)
      (a : SoftmaxBackwardArgs) (vec_size SIMD : Z) :
  subgroup_sizes_1 dev = SIMD16 \/ subgroup_sizes_1 dev = SIMD32 ->
  1 <= dpcppMaxWorkGroupSize dev ->
  1 <= bw_dim_size a ->
  bw_outer_size a < 2 ^ 31 ->
  dpcppMaxWorkGroupSize dev * max_vec_size t >= bw_dim_size a ->
  backward_fast_path t (decide_SIMD dev (bw_dim_size a) (max_vec_size t)) a
  = (vec_size, SIMD) ->
  exists w,
    get_wgroup_size SIMD vec_size (backward_NUM (max_vec_size t) vec_size SIMD)
                    (dpcppMaxWorkGroupSize dev) (bw_dim_size a) (bw_outer_size a)
    = Some w /\
    vec_size * backward_NUM (max_vec_size t) vec_size SIMD * local_size_col w
    >= bw_dim_size a.
Proof.
  intros Hdev HW Hd Ho Hfit Hsel.
  assert (Ho' : bw_outer_size a < 2 ^ 32).
  { eapply Z.lt_trans; [exact Ho | reflexivity]. }
  assert (Hsimd : decide_SIMD dev (bw_dim_size a) (max_vec_size t) = SIMD32
                  \/ decide_SIMD dev (bw_dim_size a) (max_vec_size t) = SIMD16).
  { unfold decide_SIMD. destruct Hdev as [-> | ->].
    - right. reflexivity.
    - change (SIMD32 =? SIMD32) with true. cbv iota.
      destruct (bw_dim_size a <? SIMD16 * max_vec_size t); auto. }
  unfold backward_fast_path in Hsel.
  destruct ((gradin_start a =? 0) && (bw_output_start a =? 0)
            && (gradoutput_start a =? 0)
            && (Z.rem (bw_dim_size a) (max_vec_size t) =? 0));
    destruct Hsimd as [HS | HS]; rewrite HS in Hsel;
    destruct (max_vec_size_cases t) as [E | [E | E]]; rewrite E in *;
    unfold SIMD16, SIMD32 in *; simpl in Hsel;
    injection Hsel as <- <-;
    apply get_wgroup_size_covers; try assumption;
    try (split; reflexivity); try reflexivity;
    unfold backward_NUM, SIMD32;
    repeat match goal with
           | |- context [Z.quot ?x ?y] =>
               let v := eval vm_compute in (Z.quot x y) in
               change (Z.quot x y) with v
           end;
    try (left; lia); try (right; lia).
Qed.

(** X8: the masked forward, the fused add-softmax and the masked backward
    dispatchers launch their register-resident kernels only with parameters
    that cover the row: [get_wgroup_size] returns, and the vector width
    times the vectors per work item times the work items of a row is at
    least [dim_size] (on a device whose sub-group width is 16 or 32).  When
    the capacity test fails they fall back to the unfused operators. *)
Theorem masked_and_fused_launches_cover_row :
  forall (t : FloatingType) (dev : Device),
    subgroup_sizes_1 dev = SIMD16 \/ subgroup_sizes_1 dev = SIMD32 ->
    1 <= dpcppMaxWorkGroupSize dev ->
    (forall (a : SoftmaxArgs) (INNER_LOOP vec_size SIMD outer_loop : Z),
        1 <= dim_size a -> outer_size a < 2 ^ 31 ->
        MaskedSoftMaxForward_launch t dev a
        = masked_dispatch_softmax_forward_kernel INNER_LOOP vec_size SIMD outer_loop
        \/ add_view_softmax_impl t dev a
           = dispatch_softmax_forward_add_kernel INNER_LOOP vec_size SIMD outer_loop ->
        exists w,
          get_wgroup_size SIMD vec_size outer_loop (dpcppMaxWorkGroupSize dev)
                          (dim_size a) (outer_size a) = Some w /\
          vec_size * outer_loop * local_size_col w >= dim_size a) /\
    (forall (a : SoftmaxBackwardArgs) (INNER_LOOP vec_size SIMD : Z),
        1 <= bw_dim_size a -> bw_outer_size a < 2 ^ 31 ->
        MaskedSoftMaxBackward_launch t dev a
        = masked_dispatch_softmax_backward_kernel INNER_LOOP vec_size SIMD ->
        exists w,
          get_wgroup_size SIMD vec_size (backward_NUM INNER_LOOP vec_size SIMD)
                          (dpcppMaxWorkGroupSize dev) (bw_dim_size a)
                          (bw_outer_size a) = Some w /\
          vec_size * backward_NUM INNER_LOOP vec_size SIMD * local_size_col w
          >= bw_dim_size a) /\
    (forall a : SoftmaxArgs,
        ~ (inner_size a = 1 /\ can_use_32bit_index a = true /\
           dpcppMaxWorkGroupSize dev * (max_vec_size t * 2) >= dim_size a) ->
        MaskedSoftMaxForward_launch t dev a = masked_fill_then_softmax_out /\
        add_view_softmax_impl t dev a = add_then_softmax_out).
Proof.
  intros t dev Hdev HW. split; [|split].
  - intros a INNER_LOOP vec_size SIMD outer_loop Hd Ho Hsel.
    assert (Hfast : dpcppMaxWorkGroupSize dev * (max_vec_size t * 2) >= dim_size a /\
                    forward_fast_path
                      t (decide_SIMD dev (dim_size a) (max_vec_size t * 2)) a
                    = (vec_size, SIMD, outer_loop)).
    { unfold MaskedSoftMaxForward_launch, add_view_softmax_impl in Hsel.
      destruct (inner_size a =? 1); cbn [andb] in Hsel;
        [| destruct Hsel; discriminate].
      destruct (can_use_32bit_index a); cbn [andb] in Hsel;
        [| destruct Hsel; discriminate].
      destruct (Z.geb_spec (dpcppMaxWorkGroupSize dev * (max_vec_size t * 2))
                           (dim_size a)) as [Hfit | Hfit];
        [| destruct Hsel; discriminate].
      split; [lia|].
      destruct (forward_fast_path
                  t (decide_SIMD dev (dim_size a) (max_vec_size t * 2)) a)
        as [[v s] o].
      destruct Hsel as [Hsel | Hsel]; injection Hsel as _ <- <- <-; reflexivity. }
    destruct Hfast as [Hfit Hfast].
    now apply (forward_fast_path_covers t dev a).
  - intros a INNER_LOOP vec_size SIMD Hd Ho Hsel.
    assert (Hfast : dpcppMaxWorkGroupSize dev * max_vec_size t >= bw_dim_size a /\
                    INNER_LOOP = max_vec_size t /\
                    backward_fast_path
                      t (decide_SIMD dev (bw_dim_size a) (max_vec_size t)) a
                    = (vec_size, SIMD)).
    { unfold MaskedSoftMaxBackward_launch in Hsel.
      destruct (bw_inner_size a =? 1); cbn [andb] in Hsel; [|discriminate].
      destruct (bw_can_use_32bit_index a); cbn [andb] in Hsel; [|discriminate].
      destruct (Z.geb_spec (dpcppMaxWorkGroupSize dev * max_vec_size t)
                           (bw_dim_size a)) as [Hfit | Hfit]; [|discriminate].
      split; [lia|].
      destruct (backward_fast_path
                  t (decide_SIMD dev (bw_dim_size a) (max_vec_size t)) a)
        as [v s].
      injection Hsel as <- <- <-. auto. }
    destruct Hfast as (Hfit & -> & Hfast).
    now apply (backward_fast_path_covers t dev a).
  - intros a Hno. unfold MaskedSoftMaxForward_launch, add_view_softmax_impl.
    destruct (Z.eqb_spec (inner_size a) 1) as [E1 | E1]; cbn [andb]; [|auto].
    destruct (can_use_32bit_index a) eqn:E32; cbn [andb]; [|auto].
    destruct (Z.geb_spec (dpcppMaxWorkGroupSize dev * (max_vec_size t * 2))
                         (dim_size a)) as [Hfit | Hfit]; [|auto].
    exfalso. apply Hno. repeat split; auto; lia.
Qed.

Lemma masked_and_fused_launches_cover_row_witness :
  (subgroup_sizes_1 (mkDevice 1024 32 65536) = SIMD16
   \/ subgroup_sizes_1 (mkDevice 1024 32 65536) = SIMD32) /\
  1 <= dpcppMaxWorkGroupSize (mkDevice 1024 32 65536) /\
  MaskedSoftMaxForward_launch Half (mkDevice 1024 32 65536)
                              (mkSoftmaxArgs 1 77 8 0 0 true)
  = masked_dispatch_softmax_forward_kernel 16 1 16 32 /\
  exists w,
    get_wgroup_size 16 1 32 1024 77 8 = Some w /\
    1 * 32 * local_size_col w >= 77.
Proof.
  split; [right; reflexivity|]. split; [simpl; lia|]. split; [reflexivity|].
  apply (proj1 (masked_and_fused_launches_cover_row
                  Half (mkDevice 1024 32 65536)
                  ltac:(right; reflexivity) ltac:(simpl; lia))
               (mkSoftmaxArgs 1 77 8 0 0 true) 16 1 16 32).
  - simpl. lia.
  - reflexivity.
  - left. reflexivity.
Defined.

Local Open Scope Z_scope.




Example spatial_nd_range_example :
  spatial_nd_range 4 (mkDevice 1024 32 4096) 10 100 8
  = Some (mk_nd_range_3 (8, 10, 25) (1, 10, 25)).
Proof. reflexivity. Qed.

(* ===================================================================== *)
(** * Part VIII: the host functions and the operator entry points         *)
(* ===================================================================== *)

Local Open Scope Z_scope.

Lemma maybe_wrap_dim_range (d n r : Z) :
  maybe_wrap_dim d n = Some r ->
  let m := if n <=? 0 then 1 else n in
  0 <= r < m /\ (r = d \/ r = d + m) /\ - m <= d < m.
Proof.
  intros H m. unfold maybe_wrap_dim in H. cbv zeta in H.
  change (if n <=? 0 then 1 else n) with m in H.
  destruct (Z.ltb_spec d (- m)); cbn [orb] in H; [discriminate|].
  destruct (Z.ltb_spec (m - 1) d); [discriminate|].
  injection H as <-.
  destruct (Z.ltb_spec d 0); repeat split; auto; lia.
Qed.

Lemma dim_view1_if_scalar (t : Tensor) :
  dim (view1_if_scalar t) = (if dim t <=? 0 then 1 else dim t).
Proof.
  unfold view1_if_scalar.
  assert (H : 0 <= dim t) by (unfold dim; lia).
  destruct (Z.eqb_spec (dim t) 0) as [E | E].
  - rewrite E. reflexivity.
  - destruct (Z.leb_spec (dim t) 0); [lia | reflexivity].
Qed.

Lemma scalar_type_view1_if_scalar (t : Tensor) :
  scalar_type (view1_if_scalar t) = scalar_type t.
Proof. unfold view1_if_scalar. now destruct (dim t =? 0). Qed.

Lemma numel_view1_if_scalar (t : Tensor) :
  numel (view1_if_scalar t) = numel t.
Proof.
  unfold view1_if_scalar. destruct (Z.eqb_spec (dim t) 0) as [E | E]; [|reflexivity].
  unfold dim in E. destruct t as [[| s sz] ty]; [reflexivity | simpl in E; lia].
Qed.

(** X10: [host_softmax].  The axis it passes on has been normalised into
    [0, number of dimensions): the explicit range check that follows
    [maybe_wrap_dim] never fails.  A kernel is dispatched only for a
    contiguous floating-point input with at least one element and without
    half-to-float conversion; a 0-dim input is passed as a one-element 1-D
    tensor; an input without elements is returned as it is.  Reached through
    [_softmax_out] and [_log_softmax_out], which make the input contiguous
    first, no check of [host_softmax] fails at all. *)
Theorem host_softmax_paths :
  forall (LogSoftMax : bool) (input_ : Tensor) (input_is_contiguous : bool)
         (dim_ : Z) (half_to_float : bool),
    let o := host_softmax LogSoftMax input_ input_is_contiguous dim_
                          half_to_float in
    is_dim_range_failure o = false /\
    (numel input_ = 0 -> host_launches o = false) /\
    (forall L sz d,
        o = host_SpatialSoftMaxForward L sz d ->
        L = LogSoftMax /\
        sz = sizes (view1_if_scalar input_) /\
        0 <= d < Z.of_nat (List.length sz) /\
        (d = dim_ \/ d = dim_ + Z.of_nat (List.length sz)) /\
        0 < numel input_ /\
        half_to_float = false /\ input_is_contiguous = true /\
        dispatch_floating_types_and2 (scalar_type input_) = true) /\
    (forall is_softmax_valid chosen_is_onednn msg,
        _softmax_out input_ dim_ half_to_float is_softmax_valid chosen_is_onednn
        <> sycl_path (host_check_failed msg) /\
        _log_softmax_out input_ dim_ half_to_float
        <> sycl_path (host_check_failed msg)).
Proof.
  intros LogSoftMax input_ c dim_ h o.
  assert (Hdim := dim_view1_if_scalar input_).
  assert (Hty := scalar_type_view1_if_scalar input_).
  assert (Hnum := numel_view1_if_scalar input_).
  assert (Hcore : forall L c',
             let o' := host_softmax L input_ c' dim_ h in
             is_dim_range_failure o' = false /\
             (c' = true -> forall msg, o' <> host_check_failed msg) /\
             (numel input_ = 0 -> host_launches o' = false) /\
             (forall L' sz d,
                 o' = host_SpatialSoftMaxForward L' sz d ->
                 L' = L /\
                 sz = sizes (view1_if_scalar input_) /\
                 0 <= d < Z.of_nat (List.length sz) /\
                 (d = dim_ \/ d = dim_ + Z.of_nat (List.length sz)) /\
                 0 < numel input_ /\
                 h = false /\ c' = true /\
                 dispatch_floating_types_and2 (scalar_type input_) = true)).
  { intros L c' o'. subst o'. unfold host_softmax.
    destruct h; cbn [negb].
    { repeat split; try reflexivity; try discriminate. }
    destruct c'; cbn [negb].
    2:{ repeat split; try reflexivity; try discriminate. }
    destruct (maybe_wrap_dim dim_ (dim (view1_if_scalar input_))) as [d |] eqn:Hw.
    2:{ repeat split; try reflexivity; try discriminate. }
    apply maybe_wrap_dim_range in Hw. cbv zeta in Hw.
    assert (Hpos : (dim (view1_if_scalar input_) <=? 0) = false).
    { rewrite Hdim. destruct (Z.leb_spec (dim input_) 0); apply Z.leb_gt; lia. }
    rewrite Hpos in Hw. destruct Hw as (Hr & Hor & Hd).
    replace ((d >=? 0) && (d <? dim (view1_if_scalar input_))) with true
      by (symmetry; apply andb_true_intro; split;
          [apply Z.geb_le | apply Z.ltb_lt]; lia).
    cbn [negb]. rewrite Hnum, Hty.
    destruct (Z.gtb_spec (numel input_) 0) as [Hn | Hn].
    - destruct (dispatch_floating_types_and2 (scalar_type input_)) eqn:Hfl.
      + split; [reflexivity|]. split; [discriminate|]. split; [lia|].
        intros L' sz d' Heq. injection Heq as <- <- <-.
        fold (dim (view1_if_scalar input_)).
        repeat split; auto; lia.
      + repeat split; try reflexivity; try discriminate.
    - repeat split; try reflexivity; try discriminate. }
  destruct (Hcore LogSoftMax c) as (H1 & _ & H3 & H4).
  split; [exact H1|]. split; [exact H3|]. split; [exact H4|].
  intros valid chosen msg. split.
  - unfold _softmax_out.
    destruct (if negb valid then false else chosen); [discriminate|].
    intros Heq. injection Heq as Heq.
    destruct (Hcore false true) as (_ & H2 & _). exact (H2 eq_refl msg Heq).
  - unfold _log_softmax_out. intros Heq. injection Heq as Heq.
    destruct (Hcore true true) as (_ & H2 & _). exact (H2 eq_refl msg Heq).
Qed.

Lemma host_softmax_paths_witness :
  host_softmax false (mkTensor [2; 3] kFloat) true (-1) false
  = host_SpatialSoftMaxForward false [2; 3] 1 /\
  0 < numel (mkTensor [2; 3] kFloat) /\
  dispatch_floating_types_and2 (scalar_type (mkTensor [2; 3] kFloat)) = true.
Proof.
  split; [reflexivity|].
  destruct (host_softmax_paths false (mkTensor [2; 3] kFloat) true (-1) false)
    as (_ & _ & H & _).
  destruct (H false [2; 3] 1 eq_refl) as (_ & _ & _ & _ & Hn & _ & _ & Hf).
  exact (conj Hn Hf).
Defined.

(** A 0-dim input is dispatched as a one-element vector, with axis 0 for
    both axis arguments the framework accepts. *)
Example host_softmax_scalar_input :
  host_softmax false (mkTensor [] kFloat) true (-1) false
  = host_SpatialSoftMaxForward false [1] 0.
Proof. reflexivity. Qed.

(** X11: [host_softmax_backward].  When [output_] has no element no
    kernel is launched.  The explicit range check that follows
    [maybe_wrap_dim] never fails.  A kernel is dispatched only for
    contiguous tensors, a floating-point grad, an output with elements and
    no half-to-float conversion; its axis lies in [0, number of dimensions
    of grad), and 0-dim tensors are passed as one-element 1-D tensors.  The
    entry points [_softmax_backward_data_out] and
    [_log_softmax_backward_data_out] raise whenever the element type of the
    gradient differs from [input_dtype], before anything else is looked
    at. *)
Theorem host_softmax_backward_paths :
  forall (LogSoftMax : bool) (grad_ output_ : Tensor)
         (grad_is_contiguous output_is_contiguous : bool)
         (dim_ : Z) (half_to_float : bool),
    let o := host_softmax_backward LogSoftMax grad_ output_ grad_is_contiguous
                                   output_is_contiguous dim_ half_to_float in
    is_dim_range_failure o = false /\
    (numel output_ = 0 -> host_launches o = false) /\
    (forall L osz gsz d,
        o = host_SpatialSoftMaxBackward L osz gsz d ->
        L = LogSoftMax /\
        osz = sizes (view1_if_scalar output_) /\
        gsz = sizes (view1_if_scalar grad_) /\
        0 <= d < Z.of_nat (List.length gsz) /\
        (d = dim_ \/ d = dim_ + Z.of_nat (List.length gsz)) /\
        numel output_ <> 0 /\
        half_to_float = false /\
        grad_is_contiguous = true /\ output_is_contiguous = true /\
        dispatch_floating_types_and2 (scalar_type grad_) = true) /\
    (forall input_dtype onednn_applies,
        scalar_type grad_ <> input_dtype ->
        (exists msg, _softmax_backward_data_out grad_ output_ dim_ input_dtype
                                                onednn_applies
                     = entry_check_failed msg) /\
        (exists msg, _log_softmax_backward_data_out grad_ output_ dim_
                                                    input_dtype
                     = entry_check_failed msg)).
Proof.
  intros LogSoftMax grad_ output_ gc oc dim_ h o. subst o.
  assert (Hdim := dim_view1_if_scalar grad_).
  assert (Hty := scalar_type_view1_if_scalar grad_).
  assert (Hentry : forall input_dtype onednn_applies,
             scalar_type grad_ <> input_dtype ->
             (exists msg, _softmax_backward_data_out grad_ output_ dim_
                            input_dtype onednn_applies
                          = entry_check_failed msg) /\
             (exists msg, _log_softmax_backward_data_out grad_ output_ dim_
                            input_dtype
                          = entry_check_failed msg)).
  { intros input_dtype onednn Hne.
    assert (Hneq : ScalarType_eqb (scalar_type grad_) input_dtype = false).
    { destruct (ScalarType_eqb (scalar_type grad_) input_dtype) eqn:E; auto.
      apply ScalarType_eqb_eq in E. contradiction. }
    unfold _softmax_backward_data_out, _log_softmax_backward_data_out.
    rewrite Hneq. cbn [negb]. split; eexists; reflexivity. }
  unfold host_softmax_backward. cbv zeta.
  destruct h; cbn [negb]; [(split; [reflexivity|]; split; [intros; reflexivity|];
     split; [intros; discriminate | exact Hentry])|].
  destruct gc; cbn [negb]; [|(split; [reflexivity|]; split; [intros; reflexivity|];
     split; [intros; discriminate | exact Hentry])].
  destruct oc; cbn [negb]; [|(split; [reflexivity|]; split; [intros; reflexivity|];
     split; [intros; discriminate | exact Hentry])].
  destruct (maybe_wrap_dim dim_ (dim grad_)) as [d |] eqn:Hw;
    [|(split; [reflexivity|]; split; [intros; reflexivity|];
     split; [intros; discriminate | exact Hentry])].
  apply maybe_wrap_dim_range in Hw. cbv zeta in Hw.
  rewrite <- Hdim in Hw. destruct Hw as (Hr & Hor & Hd).
  destruct (Z.eqb_spec (numel output_) 0) as [Hn | Hn]; [(split; [reflexivity|]; split; [intros; reflexivity|];
     split; [intros; discriminate | exact Hentry])|].
  replace ((d >=? 0) && (d <? dim (view1_if_scalar grad_))) with true
    by (symmetry; apply andb_true_intro; split;
        [apply Z.geb_le | apply Z.ltb_lt]; lia).
  cbn [negb]. rewrite Hty.
  destruct (dispatch_floating_types_and2 (scalar_type grad_)) eqn:Hfl;
    [|(split; [reflexivity|]; split; [intros; reflexivity|];
     split; [intros; discriminate | exact Hentry])].
  split; [reflexivity|]. split; [intros; contradiction|]. split; [|exact Hentry].
  intros L osz gsz d' Heq. injection Heq as <- <- <- <-.
  fold (dim (view1_if_scalar grad_)). repeat split; auto; lia.
Qed.

Lemma host_softmax_backward_paths_witness :
  scalar_type (mkTensor [2; 3] kFloat) <> kHalf /\
  (exists msg, _softmax_backward_data_out (mkTensor [2; 3] kFloat)
                 (mkTensor [2; 3] kFloat) 1 kHalf false
               = entry_check_failed msg).
Proof.
  assert (Hne : scalar_type (mkTensor [2; 3] kFloat) <> kHalf) by discriminate.
  split; [exact Hne|].
  destruct (host_softmax_backward_paths false (mkTensor [2; 3] kFloat)
              (mkTensor [2; 3] kFloat) true true 1 false)
    as (_ & _ & _ & H).
  exact (proj1 (H kHalf false Hne)).
Defined.

(** The emptiness test of the backward looks at [output_] only, and comes
    after the axis was wrapped: an empty output with an axis out of range is
    an error, not an early return. *)
Example host_softmax_backward_empty_bad_axis :
  host_softmax_backward false (mkTensor [0; 3] kFloat) (mkTensor [0; 3] kFloat)
                        true true 2 false
  = host_wrap_dim_failed.
Proof. reflexivity. Qed.

Local Open Scope Z_scope.

Lemma broadcast_aligned_refl (l : list Z) : broadcast_aligned l l = true.
Proof.
  induction l as [| x l IH]; [reflexivity|]. simpl.
  now rewrite Z.eqb_refl, IH.
Qed.

Lemma sizes_of_dim_0 (t : Tensor) : dim t = 0 -> sizes t = [].
Proof.
  unfold dim. destruct (sizes t); [reflexivity | simpl; lia].
Qed.

Lemma sizes_of_dim_2 (t : Tensor) :
  dim t = 2 -> sizes t = [size t 0; size t 1].
Proof.
  unfold dim, size. destruct (sizes t) as [| a [| b [| c l]]]; simpl; try lia.
  reflexivity.
Qed.

Lemma sizes_of_dim_4 (t : Tensor) :
  dim t = 4 -> sizes t = [size t 0; size t 1; size t 2; size t 3].
Proof.
  unfold dim, size.
  destruct (sizes t) as [| a [| b [| c [| d [| e l]]]]]; simpl; try lia.
  reflexivity.
Qed.

Ltac masked_accept Ebool broadcast type2 :=
  split; [exact Ebool|];
  split; [subst; auto|];
  split; [reflexivity|];
  split; [broadcast|];
  split; [type2|];
  match goal with
  | |- context [match ?x with Some _ => _ | None => _ end] =>
      destruct x; reflexivity
  end.

(** X12: every mask that [_masked_softmax] passes on is a Bool tensor whose
    sizes can be broadcast to the sizes of the input, as the dispatch code
    assumes: the sizes are those of the input, or the input is 4-D
    [B, H, T, T] and the mask is [B, T] passed as [B, 1, 1, T] (mask type 1)
    or [T, T] (mask type 0).  The mask type must be given and be 0, 1 or 2,
    and with mask type 2 only a mask of the input's sizes is accepted. *)
Theorem masked_softmax_mask_is_broadcastable :
  forall (input_ mask_ : Tensor) (dim_ mask_type_ : option Z)
         (input_sizes mask_sizes : list Z) (d : Z),
    _masked_softmax input_ mask_ dim_ mask_type_
    = MaskedSoftMaxForward input_sizes mask_sizes d ->
    scalar_type mask_ = kBool /\
    (mask_type_ = Some 0 \/ mask_type_ = Some 1 \/ mask_type_ = Some 2) /\
    input_sizes = sizes (view1_if_scalar input_) /\
    broadcastable_to mask_sizes input_sizes = true /\
    (mask_type_ = Some 2 -> sizes mask_ = sizes input_) /\
    d = match dim_ with
        | Some v => v
        | None => Z.of_nat (List.length input_sizes) - 1
        end.
Proof.
  intros input_ mask_ dim_ mask_type_ isz msz d. unfold _masked_softmax.
  destruct (ScalarType_eqb (scalar_type mask_) kBool) eqn:Ebool;
    cbn [negb]; [|discriminate].
  apply ScalarType_eqb_eq in Ebool.
  destruct mask_type_ as [mask_type |]; [|discriminate].
  assert (Hsame : sizes mask_ = sizes input_ ->
                  broadcastable_to (sizes (view1_if_scalar mask_))
                                   (sizes (view1_if_scalar input_)) = true).
  { intros Esz. unfold broadcastable_to, view1_if_scalar, dim. rewrite Esz.
    destruct (Z.of_nat (List.length (sizes input_)) =? 0); cbn [sizes];
      [| rewrite Esz]; apply broadcast_aligned_refl. }
  destruct (Z.eqb_spec mask_type 0) as [T0 | T0];
    destruct (Z.eqb_spec mask_type 1) as [T1 | T1];
    destruct (Z.eqb_spec mask_type 2) as [T2 | T2];
    cbn [orb andb negb]; try discriminate; try lia.
  - (* mask_type = 0: same sizes, or a TxT mask *)
    destruct (sizes_eqb (sizes mask_) (sizes input_)) eqn:Esz; cbn [orb negb].
    + apply sizes_eqb_eq in Esz.
      destruct (dispatch_floating_types_and2
                  (scalar_type (view1_if_scalar input_))); [|discriminate].
      intros Heq. injection Heq as <- <- <-.
      masked_accept Ebool ltac:(exact (Hsame Esz))
                    ltac:(intros H; injection H as H; lia).
    + destruct (Z.eqb_spec (dim input_) 4) as [D4 | D4]; cbn [andb negb];
        [|discriminate].
      destruct (Z.eqb_spec (dim mask_) 2) as [D2 | D2]; cbn [andb negb];
        [|discriminate].
      destruct (Z.eqb_spec (size input_ 3) (size mask_ 1)) as [S3 | S3];
        cbn [andb negb]; [|discriminate].
      destruct (Z.eqb_spec (size input_ 2) (size mask_ 0)) as [S2 | S2];
        cbn [andb negb]; [|discriminate].
      destruct (Z.eqb_spec (size mask_ 0) (size mask_ 1)) as [S0 | S0];
        cbn [andb negb]; [|discriminate].
      destruct (dispatch_floating_types_and2
                  (scalar_type (view1_if_scalar input_))); [|discriminate].
      intros Heq. injection Heq as <- <- <-.
      assert (Hi : sizes (view1_if_scalar input_) = sizes input_).
      { unfold view1_if_scalar. rewrite D4. reflexivity. }
      assert (Hm : sizes (view1_if_scalar mask_) = sizes mask_).
      { unfold view1_if_scalar. rewrite D2. reflexivity. }
      masked_accept Ebool
        ltac:(unfold broadcastable_to; rewrite Hi, Hm;
              rewrite (sizes_of_dim_4 _ D4), (sizes_of_dim_2 _ D2);
              cbn [rev app broadcast_aligned];
              rewrite S3, S2, !Z.eqb_refl; reflexivity)
        ltac:(intros H; injection H as H; lia).
  - (* mask_type = 1: same sizes, or a BxT mask *)
    destruct (sizes_eqb (sizes mask_) (sizes input_)) eqn:Esz; cbn [orb negb].
    + apply sizes_eqb_eq in Esz.
      assert (Hnot : (dim input_ =? 4) && (dim mask_ =? 2) = false).
      { unfold dim. rewrite Esz.
        destruct (Z.eqb_spec (Z.of_nat (List.length (sizes input_))) 4) as [E | E];
          [rewrite E; reflexivity | reflexivity]. }
      destruct (Z.eqb_spec (dim input_) 4) as [D4 | D4];
        destruct (Z.eqb_spec (dim mask_) 2) as [D2 | D2];
        cbn [andb] in Hnot |- *; try discriminate;
        (destruct (dispatch_floating_types_and2
                     (scalar_type (view1_if_scalar input_))); [|discriminate];
         intros Heq; injection Heq as <- <- <-;
         masked_accept Ebool ltac:(exact (Hsame Esz))
                       ltac:(intros H; injection H as H; lia)).
    + destruct (Z.eqb_spec (dim input_) 4) as [D4 | D4]; cbn [andb negb];
        [|discriminate].
      destruct (Z.eqb_spec (dim mask_) 2) as [D2 | D2]; cbn [andb negb];
        [|discriminate].
      destruct (Z.eqb_spec (size input_ 0) (size mask_ 0)) as [S0 | S0];
        cbn [andb negb]; [|discriminate].
      destruct (Z.eqb_spec (size input_ 2) (size mask_ 1)) as [S2 | S2];
        cbn [andb negb]; [|discriminate].
      destruct (Z.eqb_spec (size input_ 3) (size mask_ 1)) as [S3 | S3];
        cbn [andb negb]; [|discriminate].
      destruct (dispatch_floating_types_and2
                  (scalar_type (view1_if_scalar input_))); [|discriminate].
      intros Heq. injection Heq as <- <- <-.
      assert (Hi : sizes (view1_if_scalar input_) = sizes input_).
      { unfold view1_if_scalar. rewrite D4. reflexivity. }
      masked_accept Ebool
        ltac:(unfold broadcastable_to; rewrite Hi; cbn [sizes];
              rewrite (sizes_of_dim_4 _ D4);
              cbn [rev app broadcast_aligned];
              rewrite S3, S0, !Z.eqb_refl, !orb_true_r; reflexivity)
        ltac:(intros H; injection H as H; lia).
  - (* mask_type = 2: same sizes only *)
    rewrite !orb_false_r.
    destruct (sizes_eqb (sizes mask_) (sizes input_)) eqn:Esz; cbn [negb];
      [|discriminate].
    apply sizes_eqb_eq in Esz.
    destruct (dispatch_floating_types_and2
                (scalar_type (view1_if_scalar input_))); [|discriminate].
    intros Heq. injection Heq as <- <- <-.
    masked_accept Ebool ltac:(exact (Hsame Esz)) ltac:(intros _; exact Esz).
Qed.

Lemma masked_softmax_mask_is_broadcastable_witness :
  _masked_softmax (mkTensor [2; 3; 5; 5] kFloat) (mkTensor [2; 5] kBool)
                  None (Some 1)
  = MaskedSoftMaxForward [2; 3; 5; 5] [2; 1; 1; 5] 3 /\
  broadcastable_to [2; 1; 1; 5] [2; 3; 5; 5] = true.
Proof.
  split; [reflexivity|].
  apply (masked_softmax_mask_is_broadcastable
           (mkTensor [2; 3; 5; 5] kFloat) (mkTensor [2; 5] kBool)
           None (Some 1) [2; 3; 5; 5] [2; 1; 1; 5] 3 eq_refl).
Defined.

(** The axis given to the forward is passed on as it is, not wrapped. *)
Example masked_softmax_negative_axis :
  _masked_softmax (mkTensor [2; 3] kFloat) (mkTensor [2; 3] kBool)
                  (Some (-1)) (Some 2)
  = MaskedSoftMaxForward [2; 3] [2; 3] (-1).
Proof. reflexivity. Qed.

(* ===================================================================== *)
(** * Part IX: further properties of the kernels                          *)
(* ===================================================================== *)

Local Open Scope nat_scope.

Section AssociativeTree.
Context {A : Type}.
Variable op : A -> A -> A.
Hypothesis op_assoc : forall a b c, op a (op b c) = op (op a b) c.

Lemma option_op_assoc (a b c : option A) :
  option_op op a (option_op op b c) = option_op op (option_op op a b) c.
Proof.
  destruct a, b, c; simpl; try reflexivity. now rewrite op_assoc.
Qed.

Lemma option_op_none_r (a : option A) : option_op op a None = a.
Proof. now destruct a. Qed.

Lemma option_reduce_app (l1 l2 : list A) :
  option_reduce op (l1 ++ l2)
  = option_op op (option_reduce op l1) (option_reduce op l2).
Proof.
  induction l1 as [| x l1 IH]; [reflexivity|].
  cbn [app option_reduce fold_right]. fold (option_reduce op (l1 ++ l2)).
  fold (option_reduce op l1). rewrite IH. apply option_op_assoc.
Qed.

Lemma option_reduce_fold_left (l : list A) (x : A) :
  option_reduce op (x :: l) = Some (fold_left op l x).
Proof.
  revert x. induction l as [| y l IH]; intros x; [reflexivity|].
  cbn [fold_left]. rewrite <- IH.
  change (option_reduce op (x :: y :: l))
    with (option_op op (Some x) (option_op op (Some y) (option_reduce op l))).
  rewrite option_op_assoc. reflexivity.
Qed.

Variable orig : list A.
Variable default : A.

Lemma range_reduce_double (r k : nat) :
  range_reduce op orig r (2 * k)
  = option_op op (range_reduce op orig r k) (range_reduce op orig (r + k) k).
Proof.
  unfold range_reduce. replace (2 * k) with (k + k) by lia.
  rewrite firstn_add_split, option_reduce_app, skipn_skipn.
  now rewrite (Nat.add_comm k r).
Qed.

Lemma range_reduce_saturated (r k k' : nat) :
  List.length orig <= r + k -> k <= k' ->
  range_reduce op orig r k' = range_reduce op orig r k.
Proof.
  intros Hlen Hk. unfold range_reduce.
  rewrite !firstn_all2; [reflexivity | |]; rewrite length_skipn; lia.
Qed.

Lemma group_reduce_spatial_loop_reduce (fuel : nat) :
  forall k data,
    1 <= k ->
    List.length orig <= fuel + k ->
    List.length data = List.length orig ->
    (forall r, r < List.length orig -> r mod k = 0 ->
               Some (nth r data default) = range_reduce op orig r k) ->
    1 <= List.length orig ->
    Some (nth 0 (group_reduce_spatial_loop fuel op default
                                           (List.length orig) k data) default)
    = option_reduce op orig.
Proof.
  assert (Hexit : forall k data,
             List.length orig <= k ->
             (forall r, r < List.length orig -> r mod k = 0 ->
                        Some (nth r data default) = range_reduce op orig r k) ->
             1 <= List.length orig ->
             Some (nth 0 data default) = option_reduce op orig).
  { intros k data Hk Hinv Hn.
    rewrite Hinv by (try lia; apply Nat.Div0.mod_0_l).
    unfold range_reduce. cbn [skipn]. apply f_equal, firstn_all2. lia. }
  induction fuel as [| fuel IH]; intros k data Hk Hfuel Hlen Hinv Hn.
  - cbn [group_reduce_spatial_loop]. apply (Hexit k); auto; lia.
  - cbn [group_reduce_spatial_loop].
    destruct (Nat.ltb_spec k (List.length orig)) as [Hlt | Hge];
      [|apply (Hexit k); auto; lia].
    apply IH; try lia.
    + apply group_reduce_spatial_step_length.
    + intros r Hr Hmod. unfold group_reduce_spatial_step.
      rewrite nth_map_seq by assumption. rewrite Hmod.
      change (0 =? 0) with true. cbn [andb].
      assert (Hmodk : r mod k = 0).
      { pose proof (Nat.div_mod_eq r (2 * k)) as Hdm. rewrite Hmod in Hdm.
        rewrite Hdm, Nat.add_0_r.
        replace (2 * k * (r / (2 * k))) with (2 * (r / (2 * k)) * k) by lia.
        apply Nat.Div0.mod_mul. }
      destruct (Nat.ltb_spec (r + k) (List.length orig)) as [Hin | Hout].
      * rewrite range_reduce_double, <- !Hinv; try lia; try assumption.
        -- reflexivity.
        -- rewrite <- Nat.Div0.add_mod_idemp_l, Hmodk. cbn [Nat.add].
           apply Nat.Div0.mod_same.
      * rewrite Hinv by assumption. symmetry.
        apply range_reduce_saturated; lia.
Qed.

Lemma group_reduce_spatial_reduce :
  1 <= List.length orig ->
  Some (group_reduce_spatial op default (List.length orig) orig)
  = option_reduce op orig.
Proof.
  intros Hn. unfold group_reduce_spatial.
  apply group_reduce_spatial_loop_reduce; try lia.
  intros r Hr _. unfold range_reduce.
  assert (Hsk : exists x rest, skipn r orig = x :: rest).
  { destruct (skipn r orig) as [| x rest] eqn:Es; [|eauto].
    assert (Hl : List.length (skipn r orig) = 0) by now rewrite Es.
    rewrite length_skipn in Hl. lia. }
  destruct Hsk as (x & rest & Hsk). rewrite Hsk. simpl.
  rewrite <- (firstn_skipn r orig) at 1.
  rewrite app_nth2, length_firstn, Hsk by (rewrite length_firstn; lia).
  replace (r - Nat.min r (List.length orig)) with 0 by lia. reflexivity.
Qed.
End AssociativeTree.

(** X13: [group_reduce_spatial] reduces the values of all row workers, in
    the order of the workers: for an associative operator and [block_row]
    >= 1 values, the value left in [local_data[0]] after the tree of
    pairwise merges is the left fold of the operator over the values,
    whatever [block_row] is (a power of two or not). *)
Theorem group_reduce_spatial_folds_all :
  forall (A : Type) (bin_op : A -> A -> A) (default first : A) (rest : list A),
    (forall a b c, bin_op a (bin_op b c) = bin_op (bin_op a b) c) ->
    group_reduce_spatial bin_op default (List.length (first :: rest))
                         (first :: rest)
    = fold_left bin_op rest first.
Proof.
  intros A bin_op default first rest Hassoc.
  assert (H := group_reduce_spatial_reduce bin_op Hassoc (first :: rest) default).
  rewrite option_reduce_fold_left in H by assumption.
  assert (Hn : 1 <= List.length (first :: rest)) by (simpl; lia).
  specialize (H Hn). now injection H.
Qed.

Lemma group_reduce_spatial_folds_all_witness :
  (forall a b c : Z, Z.max a (Z.max b c) = Z.max (Z.max a b) c) /\
  group_reduce_spatial Z.max 0%Z 5 [3; 9; 2; 7; 4]%Z
  = fold_left Z.max [9; 2; 7; 4]%Z 3%Z.
Proof.
  split; [intros; lia|].
  apply (group_reduce_spatial_folds_all Z Z.max 0%Z 3%Z [9; 2; 7; 4]%Z).
  intros; lia.
Defined.

Local Open Scope nat_scope.

(** ** Loops that fold an associative and commutative operator *)
Section ACFold.
Context {A : Type}.
Variable op : A -> A -> A.
Hypothesis op_assoc : forall a b c, op a (op b c) = op (op a b) c.
Hypothesis op_comm : forall a b, op a b = op b a.

Lemma fold_left_op_acc (l : list A) (x y : A) :
  fold_left op l (op x y) = op x (fold_left op l y).
Proof.
  revert y. induction l as [| z l IH]; intros y; [reflexivity|].
  cbn [fold_left]. rewrite <- op_assoc. apply IH.
Qed.

Lemma fold_left_op_perm (l1 l2 : list A) :
  Permutation l1 l2 -> forall a, fold_left op l1 a = fold_left op l2 a.
Proof.
  induction 1 as [| x l1 l2 _ IH | x y l | l1 l2 l3 _ IH1 _ IH2]; intros a.
  - reflexivity.
  - cbn [fold_left]. apply IH.
  - cbn [fold_left]. f_equal.
    rewrite <- !op_assoc. f_equal. apply op_comm.
  - now rewrite IH1.
Qed.

Lemma fold_left_term {X : Type} (term : X -> A) (l : list X) (a : A) :
  fold_left (fun m p => op m (term p)) l a = fold_left op (map term l) a.
Proof.
  revert a. induction l as [| x l IH]; intros a; [reflexivity|].
  cbn [fold_left map]. apply IH.
Qed.

Lemma fold_left_term_swapped {X : Type} (term : X -> A) (l : list X) (a : A) :
  fold_left (fun m p => op (term p) m) l a = fold_left op (map term l) a.
Proof.
  revert a. induction l as [| x l IH]; intros a; [reflexivity|].
  cbn [fold_left map]. rewrite (op_comm (term x) a). apply IH.
Qed.

(** Partial results that fold their own positions from the seed [e], merged
    into an accumulator that absorbs [e], fold all the positions. *)
Lemma fold_left_seeded_partials {X Y : Type} (e : A) (term : Y -> A)
      (positions : X -> list Y) (partial : X -> A) (ids : list X) :
  (forall id, In id ids ->
              partial id = fold_left op (map term (positions id)) e) ->
  forall a, op a e = a ->
            fold_left op (map partial ids) a
            = fold_left op (map term (flat_map positions ids)) a.
Proof.
  induction ids as [| id ids IH]; intros Hp a Ha; [reflexivity|].
  cbn [map flat_map fold_left]. rewrite map_app, fold_left_app.
  assert (Hstep : op a (partial id) = fold_left op (map term (positions id)) a).
  { rewrite Hp by now left. rewrite <- fold_left_op_acc. now rewrite Ha. }
  assert (Habs : op (op a (partial id)) e = op a (partial id)).
  { rewrite <- op_assoc, (op_comm (partial id) e), op_assoc. now rewrite Ha. }
  rewrite Hstep in *. apply IH; [|exact Habs].
  intros id' Hin. apply Hp. now right.
Qed.

(** Partial results that fold their own, non-empty, lists of positions from
    the first of them, merged into any accumulator, fold all the positions. *)
Lemma fold_left_unseeded_partials {X Y : Type} (term : Y -> A)
      (head : X -> Y) (tail : X -> list Y) (partial : X -> A) (ids : list X) :
  (forall id, In id ids ->
              partial id = fold_left op (map term (tail id)) (term (head id))) ->
  forall a,
    fold_left op (map partial ids) a
    = fold_left op (map term (flat_map (fun id => head id :: tail id) ids)) a.
Proof.
  induction ids as [| id ids IH]; intros Hp a; [reflexivity|].
  cbn [map flat_map fold_left app]. rewrite map_app, fold_left_app.
  rewrite Hp by now left. rewrite <- fold_left_op_acc.
  apply IH. intros id' Hin. apply Hp. now right.
Qed.
End ACFold.

Local Open Scope nat_scope.

(** ** The forward kernels compute the softmax of the row *)

Section Tier1ForwardExact.
Context {scalar_t accscalar_t : Type} `{E : ExactAccumulation scalar_t accscalar_t}.
Context {M : ExactMaximum scalar_t accscalar_t}.
Variables (vec_size outer_loop : nat) (LogSoftMax is_masked : bool).
Variables (dim_size local_size : nat).
Variables (in_data : nat -> scalar_t) (mask_data : nat -> bool).
Hypothesis Hvec : 1 <= vec_size.
Hypothesis Hdiv : dim_size mod vec_size = 0.
Hypothesis Hcov : dim_size <= vec_size * outer_loop * local_size.
Hypothesis Hdim : 1 <= dim_size.

Lemma fwd_max_value_axis_max :
  fwd_max_value vec_size outer_loop is_masked dim_size local_size
                in_data mask_data
  = axis_max_seeded acc_lowest
                    (fun p => to_acc (fwd_reg_in is_masked in_data mask_data p))
                    dim_size.
Proof.
  unfold fwd_max_value, axis_max_seeded.
  set (term := fun p => to_acc (fwd_reg_in is_masked in_data mask_data p)).
  assert (Hperm : Permutation
                    (flat_map (fwd_positions vec_size outer_loop dim_size local_size)
                              (seq 0 local_size))
                    (seq 0 dim_size))
    by now apply fwd_positions_partition.
  assert (Hthread : forall lid,
             fwd_thread_max vec_size outer_loop is_masked dim_size local_size
                            in_data mask_data lid
             = fold_left acc_max
                         (map term (fwd_positions vec_size outer_loop dim_size
                                                  local_size lid))
                         acc_lowest).
  { intros lid. unfold fwd_thread_max. apply (fold_left_term acc_max term). }
  assert (Hgroup :
            group_reduce acc_max acc_lowest
              (map (fwd_thread_max vec_size outer_loop is_masked dim_size
                                   local_size in_data mask_data)
                   (seq 0 local_size))
            = fold_left acc_max (map term (seq 0 dim_size)) acc_lowest).
  { unfold group_reduce.
    rewrite (fold_left_seeded_partials
               acc_max acc_max_assoc acc_max_comm acc_lowest term
               (fwd_positions vec_size outer_loop dim_size local_size))
      by (auto using acc_max_idem).
    apply (fold_left_op_perm acc_max acc_max_assoc acc_max_comm).
    now apply Permutation_map. }
  destruct (Nat.ltb_spec 1 local_size) as [Hl | Hl]; [exact Hgroup|].
  assert (Hone : local_size = 1) by (destruct local_size; lia).
  assert (Hseq : seq 0 local_size = [0]) by (rewrite Hone; reflexivity).
  rewrite <- Hgroup, Hseq. unfold group_reduce. cbn [map fold_left].
  rewrite Hthread, <- (fold_left_op_acc acc_max acc_max_assoc).
  now rewrite acc_max_idem.
Qed.

Lemma fwd_sum_reduced_axis_sum :
  fwd_sum_reduced vec_size outer_loop is_masked dim_size local_size
                  in_data mask_data
  = axis_sum (forward_exp_term
                (fwd_reg_in is_masked in_data mask_data)
                (fwd_max_value vec_size outer_loop is_masked dim_size local_size
                               in_data mask_data))
             dim_size.
Proof.
  unfold fwd_sum_reduced, axis_sum.
  set (term := forward_exp_term
                 (fwd_reg_in is_masked in_data mask_data)
                 (fwd_max_value vec_size outer_loop is_masked dim_size local_size
                                in_data mask_data)).
  assert (Hperm : Permutation
                    (flat_map (fwd_positions vec_size outer_loop dim_size local_size)
                              (seq 0 local_size))
                    (seq 0 dim_size))
    by now apply fwd_positions_partition.
  assert (Hgroup :
            group_reduce acc_add acc_zero
              (map (fwd_thread_sum vec_size outer_loop is_masked dim_size
                                   local_size in_data mask_data)
                   (seq 0 local_size))
            = acc_sum (map term (seq 0 dim_size))).
  { unfold fwd_thread_sum.
    rewrite (group_reduce_sum
               term (fwd_positions vec_size outer_loop dim_size local_size)).
    now apply acc_sum_perm, Permutation_map. }
  destruct (Nat.ltb_spec 1 local_size) as [Hl | Hl]; [exact Hgroup|].
  assert (Hone : local_size = 1) by (destruct local_size; lia).
  assert (Hseq : seq 0 local_size = [0]) by (rewrite Hone; reflexivity).
  rewrite <- Hgroup, Hseq. unfold group_reduce. cbn [map fold_left].
  now rewrite acc_add_zero_l.
Qed.

Lemma fwd_kernel_softmax (old : nat -> scalar_t) (p : nat) :
  let x := fwd_reg_in is_masked in_data mask_data in
  let max_value := axis_max_seeded acc_lowest (fun q => to_acc (x q)) dim_size in
  let sum := axis_sum (forward_exp_term x max_value) dim_size in
  p < dim_size ->
  LogSoftMax = true \/
  acc_eq_zero sum = false /\ acc_eq_zero (acc_div acc_one sum) = false ->
  apply_writes
    (DispatchSoftmaxForwardKernelFunctor
       vec_size outer_loop LogSoftMax is_masked dim_size local_size
       in_data mask_data) old p
  = softmax_forward_value LogSoftMax max_value sum (x p).
Proof.
  intros x max_value sum Hp Hguard.
  rewrite fwd_kernel_value by assumption.
  unfold fwd_update, fwd_sum_value, softmax_forward_value.
  rewrite fwd_sum_reduced_axis_sum, fwd_max_value_axis_max.
  fold x. fold max_value. fold sum.
  destruct LogSoftMax; [reflexivity|].
  destruct Hguard as [Hlog | [Hs Hr]]; [discriminate|].
  rewrite Hs. cbn [negb]. now rewrite Hr.
Qed.
End Tier1ForwardExact.

Local Open Scope nat_scope.

Lemma fold_left_ext_op {A B : Type} (f g : A -> B -> A) (l : list B) (a : A) :
  (forall x y, f x y = g x y) -> fold_left f l a = fold_left g l a.
Proof.
  intros Hfg. revert a. induction l as [| x l IH]; intros a; [reflexivity|].
  cbn [fold_left]. now rewrite Hfg, IH.
Qed.

Lemma seq_0_unfold (n : nat) : 1 <= n -> seq 0 n = 0 :: seq 1 (n - 1).
Proof.
  intros Hn. destruct n; [lia|]. replace (S n - 1) with n by lia. reflexivity.
Qed.

Section Tier2ForwardExact.
Context {scalar_t accscalar_t : Type} `{E : ExactAccumulation scalar_t accscalar_t}.
Context {M : ExactMaximum scalar_t accscalar_t}.
Variables (vec_size start local_size dim_size : nat) (LogSoftMax : bool).
Variable in_data : nat -> scalar_t.
Hypothesis Hvec : 1 <= vec_size.
Hypothesis Hstart : start < vec_size.
Hypothesis Hls : 1 <= local_size.

Lemma stream_max_value_axis_max :
  stream_max_value vec_size start local_size dim_size in_data
  = axis_max_seeded acc_lowest (fun p => to_acc (in_data p)) dim_size.
Proof.
  unfold stream_max_value, reduce_over_group, axis_max_seeded.
  set (term := fun p => to_acc (in_data p)).
  set (positions := stream_positions vec_size start local_size dim_size).
  assert (Hperm : Permutation (flat_map positions (seq 0 local_size))
                              (seq 0 dim_size))
    by now apply stream_positions_partition.
  assert (Hthread : forall id,
             stream_thread_max vec_size start local_size dim_size in_data id
             = fold_left acc_max (map term (positions id)) acc_lowest).
  { intros id. unfold stream_thread_max.
    apply (fold_left_term_swapped acc_max acc_max_comm term). }
  rewrite (fold_left_ext_op sycl_maximum acc_max) by apply sycl_maximum_is_max.
  rewrite (fold_left_seeded_partials
             acc_max acc_max_assoc acc_max_comm acc_lowest term positions).
  - rewrite Hthread, <- fold_left_app, <- map_app.
    apply (fold_left_op_perm acc_max acc_max_assoc acc_max_comm).
    apply Permutation_map.
    rewrite (seq_0_unfold local_size Hls) in Hperm. exact Hperm.
  - intros id _. apply Hthread.
  - rewrite Hthread, acc_max_comm.
    rewrite <- (fold_left_op_acc acc_max acc_max_assoc).
    now rewrite acc_max_idem.
Qed.

Lemma stream_sum_reduced_axis_sum :
  stream_sum_reduced vec_size start local_size dim_size in_data
  = axis_sum (forward_exp_term
                in_data
                (stream_max_value vec_size start local_size dim_size in_data))
             dim_size.
Proof.
  unfold stream_sum_reduced, axis_sum.
  set (term := forward_exp_term
                 in_data
                 (stream_max_value vec_size start local_size dim_size in_data)).
  set (positions := stream_positions vec_size start local_size dim_size).
  transitivity (acc_sum (map term (flat_map positions (seq 0 local_size)))).
  - exact (reduce_over_group_sum term positions local_size Hls).
  - apply acc_sum_perm, Permutation_map.
    now apply stream_positions_partition.
Qed.

Lemma stream_kernel_softmax (old : nat -> scalar_t) (p : nat) :
  let max_value :=
    axis_max_seeded acc_lowest (fun q => to_acc (in_data q)) dim_size in
  let sum := axis_sum (forward_exp_term in_data max_value) dim_size in
  p < dim_size ->
  apply_writes
    (SoftmaxForwardKernelFunctor vec_size start local_size dim_size LogSoftMax
                                 in_data) old p
  = softmax_forward_value LogSoftMax max_value sum (in_data p).
Proof.
  intros max_value sum Hp.
  rewrite stream_kernel_value by assumption.
  unfold stream_update, stream_sum_value, softmax_forward_value.
  rewrite stream_sum_reduced_axis_sum, stream_max_value_axis_max.
  destruct LogSoftMax; reflexivity.
Qed.
End Tier2ForwardExact.

(** The two reductions of the spatial kernels: every row worker folds its
    rows from the first one, and the tree merges the row workers. *)
Section SpatialReduction.
Context {A : Type}.
Variable op : A -> A -> A.
Hypothesis op_assoc : forall a b c, op a (op b c) = op (op a b) c.
Hypothesis op_comm : forall a b, op a b = op b a.
Variables (dim_size block_row : nat) (term : nat -> A) (default : A).
Hypothesis Hrow : 1 <= block_row <= dim_size.

Lemma spatial_rows_unfold (r : nat) :
  r < block_row ->
  spatial_rows dim_size block_row r
  = r :: spatial_rows_after dim_size block_row r.
Proof.
  intros Hr. unfold spatial_rows, spatial_rows_after.
  apply strided_unfold; lia.
Qed.

Lemma spatial_rows_after_partition :
  Permutation
    (spatial_rows_after dim_size block_row 0
     ++ flat_map (fun r => r :: spatial_rows_after dim_size block_row r)
                 (seq 1 (block_row - 1)))
    (seq 1 (dim_size - 1)).
Proof.
  assert (Hperm : Permutation
                    (flat_map (spatial_rows dim_size block_row) (seq 0 block_row))
                    (seq 0 dim_size))
    by (apply spatial_rows_partition; lia).
  rewrite (flat_map_ext_in
             _ (fun r => r :: spatial_rows_after dim_size block_row r)) in Hperm
    by (intros r Hr; apply in_seq in Hr; apply spatial_rows_unfold; lia).
  rewrite (seq_0_unfold block_row), (seq_0_unfold dim_size) in Hperm by lia.
  cbn [flat_map app] in Hperm.
  now apply Permutation_cons_inv in Hperm.
Qed.

Lemma spatial_tree_fold :
  let thread := fun r =>
    fold_left (fun m i => op m (term i))
              (spatial_rows_after dim_size block_row r) (term r) in
  (if 1 <? block_row
   then group_reduce_spatial op default block_row (map thread (seq 0 block_row))
   else thread 0)
  = fold_left op (map term (seq 1 (dim_size - 1))) (term 0).
Proof.
  intros thread.
  assert (Hthread : forall r,
             thread r = fold_left op (map term (spatial_rows_after
                                                  dim_size block_row r))
                                  (term r)).
  { intros r. apply (fold_left_term op term). }
  assert (Hall :
            fold_left op (map thread (seq 1 (block_row - 1))) (thread 0)
            = fold_left op (map term (seq 1 (dim_size - 1))) (term 0)).
  { rewrite (fold_left_unseeded_partials
               op op_assoc term (fun r => r)
               (spatial_rows_after dim_size block_row) thread)
      by (intros; apply Hthread).
    rewrite Hthread, <- fold_left_app, <- map_app.
    apply (fold_left_op_perm op op_assoc op_comm).
    apply Permutation_map, spatial_rows_after_partition. }
  destruct (Nat.ltb_spec 1 block_row) as [Hb | Hb].
  - assert (Hlen : List.length (map thread (seq 0 block_row)) = block_row)
      by now rewrite length_map, length_seq.
    assert (Htree := group_reduce_spatial_reduce
                       op op_assoc (map thread (seq 0 block_row)) default).
    rewrite Hlen in Htree. specialize (Htree ltac:(lia)).
    rewrite (seq_0_unfold block_row) in Htree at 2 by lia.
    cbn [map] in Htree. rewrite (option_reduce_fold_left op op_assoc) in Htree.
    injection Htree as Htree. rewrite Htree. exact Hall.
  - assert (Hone : block_row - 1 = 0) by lia.
    rewrite <- Hall, Hone. reflexivity.
Qed.
End SpatialReduction.

Section Tier3ForwardExact.
Context {scalar_t accscalar_t : Type} `{E : ExactAccumulation scalar_t accscalar_t}.
Context {M : ExactMaximum scalar_t accscalar_t}.
Variables (vec_size dim_size inner_size block_row global_cols : nat).
Variable LogSoftMax : bool.
Variable in_data : nat -> scalar_t.
Hypothesis Hvec : 1 <= vec_size.
Hypothesis Hdiv : inner_size mod vec_size = 0.
Hypothesis Hcols : inner_size <= global_cols * vec_size.
Hypothesis Hrow : 1 <= block_row <= dim_size.

Lemma spatial_max_value_axis_max (global_col j : nat) :
  spatial_max_value vec_size dim_size inner_size block_row in_data global_col j
  = axis_max (fun i => to_acc (in_data (spatial_offset vec_size inner_size
                                                       i global_col j)))
             dim_size.
Proof.
  unfold spatial_max_value, axis_max.
  apply (spatial_tree_fold
           acc_max acc_max_assoc acc_max_comm dim_size block_row
           (fun i => to_acc (in_data (spatial_offset vec_size inner_size
                                                     i global_col j)))
           acc_zero Hrow).
Qed.

Lemma spatial_sum_reduced_axis_sum (global_col j : nat) :
  spatial_sum_reduced vec_size dim_size inner_size block_row in_data global_col j
  = axis_sum (spatial_exp_term vec_size dim_size inner_size block_row in_data
                               global_col j)
             dim_size.
Proof.
  unfold spatial_sum_reduced, axis_sum.
  set (term := spatial_exp_term vec_size dim_size inner_size block_row in_data
                                global_col j).
  transitivity (fold_left acc_add (map term (seq 1 (dim_size - 1))) (term 0)).
  - exact (spatial_tree_fold
             acc_add acc_add_assoc acc_add_comm dim_size block_row term
             acc_zero Hrow).
  - rewrite fold_left_acc_sum, (seq_0_unfold dim_size) by lia. reflexivity.
Qed.

Lemma spatial_kernel_softmax (old : nat -> scalar_t) (i global_col j : nat) :
  let x := fun i' => in_data (spatial_offset vec_size inner_size i' global_col j) in
  let max_value := axis_max (fun i' => to_acc (x i')) dim_size in
  let sum := axis_sum (forward_exp_term x max_value) dim_size in
  i < dim_size -> j < vec_size -> global_col * vec_size + j < inner_size ->
  apply_writes
    (SpatialSoftmaxForwardKernelFunctor
       vec_size dim_size inner_size block_row global_cols LogSoftMax in_data)
    old (spatial_offset vec_size inner_size i global_col j)
  = softmax_forward_value LogSoftMax max_value sum (x i).
Proof.
  intros x max_value sum Hi Hj Hc.
  rewrite spatial_kernel_value by (assumption || lia).
  unfold spatial_update, spatial_sum_value, softmax_forward_value.
  rewrite spatial_sum_reduced_axis_sum.
  unfold spatial_exp_term. rewrite spatial_max_value_axis_max.
  destruct LogSoftMax; reflexivity.
Qed.
End Tier3ForwardExact.

Local Open Scope nat_scope.

Lemma IntegerArithmetic_maximum : @ExactMaximum Z Z IntegerArithmetic.
Proof.
  constructor; simpl; intros; lia.
Qed.

(** X14: the forward kernels compute the softmax of the row in every
    dispatch tier.  With exact accumulation and a lattice maximum, the value
    stored at every position of the reduced axis is
    exp(x - max) * (1 / sum) for softmax and (x - max) - log(sum) for
    log-softmax, where max is the maximum over the whole axis (seeded with
    the lowest value in the register-resident and streaming kernels) and sum
    is the sum of exp(x - max) over the whole axis.  In the register-resident
    kernel x is the input with the masked positions set to -infinity, and
    the softmax formula holds when neither the sum nor its reciprocal
    compares equal to zero (the kernel stores NaN otherwise). *)
Theorem softmax_forward_all_tiers :
  forall (scalar_t accscalar_t : Type) (N : SoftmaxNumerics scalar_t accscalar_t)
         (E : ExactAccumulation scalar_t accscalar_t)
         (M : ExactMaximum scalar_t accscalar_t)
         (LogSoftMax : bool) (in_data old : nat -> scalar_t) (dim_size : nat),
    1 <= dim_size ->
    (forall vec_size outer_loop local_size is_masked mask_data p,
        1 <= vec_size ->
        dim_size mod vec_size = 0 ->
        dim_size <= vec_size * outer_loop * local_size ->
        p < dim_size ->
        let x := fwd_reg_in is_masked in_data mask_data in
        let max_value :=
          axis_max_seeded acc_lowest (fun q => to_acc (x q)) dim_size in
        let sum := axis_sum (forward_exp_term x max_value) dim_size in
        LogSoftMax = true \/
        acc_eq_zero sum = false /\ acc_eq_zero (acc_div acc_one sum) = false ->
        apply_writes
          (DispatchSoftmaxForwardKernelFunctor
             vec_size outer_loop LogSoftMax is_masked dim_size local_size
             in_data mask_data) old p
        = softmax_forward_value LogSoftMax max_value sum (x p)) /\
    (forall vec_size start local_size p,
        1 <= vec_size ->
        start < vec_size ->
        1 <= local_size ->
        p < dim_size ->
        let max_value :=
          axis_max_seeded acc_lowest (fun q => to_acc (in_data q)) dim_size in
        let sum := axis_sum (forward_exp_term in_data max_value) dim_size in
        apply_writes
          (SoftmaxForwardKernelFunctor
             vec_size start local_size dim_size LogSoftMax in_data) old p
        = softmax_forward_value LogSoftMax max_value sum (in_data p)) /\
    (forall vec_size inner_size block_row global_cols i global_col j,
        1 <= vec_size ->
        inner_size mod vec_size = 0 ->
        inner_size <= global_cols * vec_size ->
        1 <= block_row <= dim_size ->
        i < dim_size ->
        j < vec_size ->
        global_col * vec_size + j < inner_size ->
        let x := fun i' =>
                   in_data (spatial_offset vec_size inner_size i' global_col j) in
        let max_value := axis_max (fun i' => to_acc (x i')) dim_size in
        let sum := axis_sum (forward_exp_term x max_value) dim_size in
        apply_writes
          (SpatialSoftmaxForwardKernelFunctor
             vec_size dim_size inner_size block_row global_cols LogSoftMax
             in_data)
          old (spatial_offset vec_size inner_size i global_col j)
        = softmax_forward_value LogSoftMax max_value sum (x i)).
Proof.
  intros scalar_t accscalar_t N E M LogSoftMax in_data old dim_size Hdim.
  split; [|split].
  - intros vec_size outer_loop local_size is_masked mask_data p
           Hvec Hdiv Hcov Hp x max_value sum Hguard.
    now apply fwd_kernel_softmax.
  - intros vec_size start local_size p Hvec Hstart Hls Hp max_value sum.
    now apply stream_kernel_softmax.
  - intros vec_size inner_size block_row global_cols i global_col j
           Hvec Hdiv Hcols Hrow Hi Hj Hc x max_value sum.
    now apply spatial_kernel_softmax.
Qed.

Lemma softmax_forward_all_tiers_witness :
  1 <= 4 /\
  apply_writes
    (@SoftmaxForwardKernelFunctor
       Z Z IntegerArithmetic 4 3 2 4 true (fun p => Z.of_nat p))
    (fun _ => 0%Z) 1
  = (-2)%Z.
Proof.
  split; [lia|].
  apply (proj1 (proj2 (softmax_forward_all_tiers
                         Z Z IntegerArithmetic IntegerArithmetic_exact
                         IntegerArithmetic_maximum true
                         (fun p => Z.of_nat p) (fun _ => 0%Z) 4
                         ltac:(lia)))
               4 3 2 1); lia.
Defined.

(** Rows computed by the three forward kernels on the integer instance
    (2^x for the exponential, log2 for the logarithm): log-softmax of
    (0, 1, 2, 3), whose maximum is 3 and whose sum of 2^(x - 3) is 1. *)
Example forward_tier1_row :
  map (apply_writes
         (@DispatchSoftmaxForwardKernelFunctor
            Z Z IntegerArithmetic 2 1 true false 4 2
            (fun p => Z.of_nat p) (fun _ => false))
         (fun _ => 0%Z)) (seq 0 4)
  = [-3; -2; -1; 0]%Z.
Proof. reflexivity. Qed.

Example forward_tier2_row :
  map (apply_writes
         (@SoftmaxForwardKernelFunctor
            Z Z IntegerArithmetic 4 3 2 4 true (fun p => Z.of_nat p))
         (fun _ => 0%Z)) (seq 0 4)
  = [-3; -2; -1; 0]%Z.
Proof. reflexivity. Qed.

Example forward_tier3_column :
  map (fun i => apply_writes
                  (@SpatialSoftmaxForwardKernelFunctor
                     Z Z IntegerArithmetic 1 4 2 3 2 true
                     (fun p => Z.of_nat (p / 2)))
                  (fun _ => 0%Z) (i * 2 + 1)) (seq 0 4)
  = [-3; -2; -1; 0]%Z.
Proof. reflexivity. Qed.

Local Open Scope nat_scope.

(** ** The fused add + softmax kernel *)
Section FusedAddKernel.
Context {scalar_t accscalar_t : Type} `{N : SoftmaxNumerics scalar_t accscalar_t}.
Variable sc_add : scalar_t -> scalar_t -> scalar_t.
Variables (vec_size outer_loop : nat) (LogSoftMax : bool).
Variables (dim_size local_size : nat).
Variable group_offset : nat.
Variables (in_data other_data : nat -> scalar_t) (alpha : scalar_t).
Variables input_calc_0 input_calc_1 : nat -> nat.

Lemma add_max_value_plain :
  add_max_value sc_add vec_size outer_loop dim_size local_size group_offset
                in_data other_data alpha input_calc_0 input_calc_1
  = fwd_max_value vec_size outer_loop false dim_size local_size
                  (add_reg_in sc_add group_offset in_data other_data alpha
                              input_calc_0 input_calc_1)
                  (fun _ => false).
Proof. reflexivity. Qed.

Lemma add_sum_reduced_plain :
  add_sum_reduced sc_add vec_size outer_loop dim_size local_size group_offset
                  in_data other_data alpha input_calc_0 input_calc_1
  = fwd_sum_reduced vec_size outer_loop false dim_size local_size
                    (add_reg_in sc_add group_offset in_data other_data alpha
                                input_calc_0 input_calc_1)
                    (fun _ => false).
Proof. reflexivity. Qed.

Lemma add_kernel_plain :
  LogSoftMax = true \/
  (acc_eq_zero
     (fwd_sum_reduced vec_size outer_loop false dim_size local_size
                      (add_reg_in sc_add group_offset in_data other_data alpha
                                  input_calc_0 input_calc_1)
                      (fun _ => false)) = false /\
   acc_eq_zero
     (acc_div acc_one
              (fwd_sum_reduced vec_size outer_loop false dim_size local_size
                               (add_reg_in sc_add group_offset in_data other_data
                                           alpha input_calc_0 input_calc_1)
                               (fun _ => false))) = false) ->
  DispatchSoftmaxForwardAddKernelFunctor
    sc_add vec_size outer_loop LogSoftMax dim_size local_size group_offset
    in_data other_data alpha input_calc_0 input_calc_1
  = DispatchSoftmaxForwardKernelFunctor
      vec_size outer_loop LogSoftMax false dim_size local_size
      (add_reg_in sc_add group_offset in_data other_data alpha
                  input_calc_0 input_calc_1)
      (fun _ => false).
Proof.
  intros Hguard.
  unfold DispatchSoftmaxForwardAddKernelFunctor,
    DispatchSoftmaxForwardKernelFunctor.
  apply flat_map_ext_in. intros lid _.
  unfold add_thread_writes, fwd_thread_writes.
  change (add_positions vec_size outer_loop dim_size local_size lid)
    with (fwd_positions vec_size outer_loop dim_size local_size lid).
  apply map_ext. intros p. f_equal.
  change (fwd_reg_in false
                     (add_reg_in sc_add group_offset in_data other_data alpha
                                 input_calc_0 input_calc_1)
                     (fun _ => false) p)
    with (add_reg_in sc_add group_offset in_data other_data alpha
                     input_calc_0 input_calc_1 p).
  unfold add_update, fwd_update, add_sum_value, fwd_sum_value.
  rewrite add_max_value_plain, add_sum_reduced_plain.
  destruct LogSoftMax; [reflexivity|].
  destruct Hguard as [Hlog | [Hs Hr]]; [discriminate|].
  rewrite Hs. cbn [negb]. now rewrite Hr.
Qed.

Hypothesis Hvec : 1 <= vec_size.
Hypothesis Hdiv : dim_size mod vec_size = 0.
Hypothesis Hcov : dim_size <= vec_size * outer_loop * local_size.
Hypothesis Hdim : 1 <= dim_size.

Lemma add_kernel_value (old : nat -> scalar_t) (p : nat) :
  p < dim_size ->
  apply_writes
    (DispatchSoftmaxForwardAddKernelFunctor
       sc_add vec_size outer_loop LogSoftMax dim_size local_size group_offset
       in_data other_data alpha input_calc_0 input_calc_1) old p
  = add_update sc_add vec_size outer_loop LogSoftMax dim_size local_size
               group_offset in_data other_data alpha input_calc_0 input_calc_1
               (add_reg_in sc_add group_offset in_data other_data alpha
                           input_calc_0 input_calc_1 p).
Proof.
  intros Hp. unfold DispatchSoftmaxForwardAddKernelFunctor, add_thread_writes.
  assert (Hperm : Permutation
                    (flat_map (fwd_positions vec_size outer_loop dim_size local_size)
                              (seq 0 local_size))
                    (seq 0 dim_size))
    by now apply fwd_positions_partition.
  apply (apply_writes_found
           _ old p
           (fun q => add_update sc_add vec_size outer_loop LogSoftMax dim_size
                                local_size group_offset in_data other_data alpha
                                input_calc_0 input_calc_1
                                (add_reg_in sc_add group_offset in_data other_data
                                            alpha input_calc_0 input_calc_1 q))).
  - intros q v Hin.
    apply (flat_map_writes_value
             (add_positions vec_size outer_loop dim_size local_size)
             (fun q => add_update _ _ _ _ _ _ _ _ _ _ _ _ _) _ _ _ Hin).
  - rewrite (flat_map_writes_fst
               (add_positions vec_size outer_loop dim_size local_size)
               (fun q => add_update _ _ _ _ _ _ _ _ _ _ _ _ _)).
    apply (Permutation_in _ (Permutation_sym Hperm)).
    apply in_seq. lia.
Qed.
End FusedAddKernel.

(** X15: the fused add + softmax kernel computes the softmax of
    [input + alpha * other].  With exact accumulation and a lattice maximum
    the value it stores at every position of the row is
    exp(x - max) * (1 / sum), or (x - max) - log(sum) for the log variant,
    with x = input + alpha * other read through the offset calculator, and
    max and sum taken over the whole row.  Its stores are those of the plain
    register-resident kernel run on the materialised row x, except where the
    plain kernel replaces the result by NaN (sum or reciprocal equal to
    zero): the fused kernel has no such replacement. *)
Theorem fused_add_softmax_kernel :
  forall (scalar_t accscalar_t : Type) (N : SoftmaxNumerics scalar_t accscalar_t)
         (sc_add : scalar_t -> scalar_t -> scalar_t)
         (vec_size outer_loop : nat) (LogSoftMax : bool)
         (dim_size local_size group_offset : nat)
         (in_data other_data : nat -> scalar_t) (alpha : scalar_t)
         (input_calc_0 input_calc_1 : nat -> nat),
    let x := add_reg_in sc_add group_offset in_data other_data alpha
                        input_calc_0 input_calc_1 in
    let fused := DispatchSoftmaxForwardAddKernelFunctor
                   sc_add vec_size outer_loop LogSoftMax dim_size local_size
                   group_offset in_data other_data alpha
                   input_calc_0 input_calc_1 in
    (forall (E : ExactAccumulation scalar_t accscalar_t)
            (M : ExactMaximum scalar_t accscalar_t)
            (old : nat -> scalar_t) (p : nat),
        1 <= vec_size ->
        dim_size mod vec_size = 0 ->
        dim_size <= vec_size * outer_loop * local_size ->
        p < dim_size ->
        let max_value :=
          axis_max_seeded acc_lowest (fun q => to_acc (x q)) dim_size in
        let sum := axis_sum (forward_exp_term x max_value) dim_size in
        apply_writes fused old p
        = softmax_forward_value LogSoftMax max_value sum (x p)) /\
    (let plain_sum := fwd_sum_reduced vec_size outer_loop false dim_size
                                      local_size x (fun _ => false) in
     LogSoftMax = true \/
     (acc_eq_zero plain_sum = false /\
      acc_eq_zero (acc_div acc_one plain_sum) = false) ->
     fused = DispatchSoftmaxForwardKernelFunctor
               vec_size outer_loop LogSoftMax false dim_size local_size
               x (fun _ => false)).
Proof.
  intros scalar_t accscalar_t N sc_add vec_size outer_loop LogSoftMax
         dim_size local_size group_offset in_data other_data alpha
         input_calc_0 input_calc_1 x fused.
  split.
  - intros E M old p Hvec Hdiv Hcov Hp max_value sum.
    subst fused. rewrite add_kernel_value by (assumption || lia).
    unfold add_update, add_sum_value, softmax_forward_value.
    rewrite add_sum_reduced_plain, add_max_value_plain.
    rewrite fwd_sum_reduced_axis_sum by (assumption || lia).
    rewrite fwd_max_value_axis_max by (assumption || lia).
    destruct LogSoftMax; reflexivity.
  - intros plain_sum Hguard. now apply add_kernel_plain.
Qed.

(** On the integer instance: the fused kernel on input (0, 1, 2, 3), other
    (1, 1, 1, 1) broadcast from one element and alpha = 2 stores the
    log-softmax of (2, 3, 4, 5). *)
Example fused_add_row :
  map (apply_writes
         (@DispatchSoftmaxForwardAddKernelFunctor
            Z Z IntegerArithmetic Z.add 2 1 true 4 2 0
            (fun p => Z.of_nat p) (fun _ => 1%Z) 2%Z (fun o => o) (fun _ => 0))
         (fun _ => 0%Z)) (seq 0 4)
  = [-3; -2; -1; 0]%Z.
Proof. reflexivity. Qed.

Lemma fused_add_softmax_kernel_witness :
  apply_writes
    (@DispatchSoftmaxForwardAddKernelFunctor
       Z Z IntegerArithmetic Z.add 2 1 true 4 2 0
       (fun p => Z.of_nat p) (fun _ => 1%Z) 2%Z (fun o => o) (fun _ => 0))
    (fun _ => 0%Z) 1
  = (-2)%Z.
Proof.
  apply (proj1 (fused_add_softmax_kernel
                  Z Z IntegerArithmetic Z.add 2 1 true 4 2 0
                  (fun p => Z.of_nat p) (fun _ => 1%Z) 2%Z
                  (fun o => o) (fun _ => 0))
               IntegerArithmetic_exact IntegerArithmetic_maximum
               (fun _ => 0%Z) 1);
    try lia; reflexivity.
Defined.

Local Open Scope nat_scope.

(** ** Every element is stored exactly once *)

Lemma map_fst_flat_map {A B C : Type} (f : A -> list (B * C)) (l : list A) :
  map fst (flat_map f l) = flat_map (fun x => map fst (f x)) l.
Proof. symmetry. apply flat_map_map_inner. Qed.

Section SpatialStores.
Variables (vec_size dim_size inner_size block_row global_cols : nat).
Hypothesis Hvec : 1 <= vec_size.
Hypothesis Hdiv : inner_size mod vec_size = 0.
Hypothesis Hcols : inner_size <= global_cols * vec_size.
Hypothesis Hrow : 1 <= block_row.

(** The offsets one work item stores to. *)
Lemma spatial_update_offsets_In (r gc o : nat) :
  In o (spatial_update_offsets vec_size dim_size inner_size block_row r gc) <->
  exists i j,
    i < dim_size /\ i mod block_row = r mod block_row /\ r <= i /\
    j < vec_size /\ gc * vec_size + j < inner_size /\
    o = i * inner_size + (gc * vec_size + j).
Proof.
  unfold spatial_update_offsets, spatial_rows, spatial_offset.
  pose proof (Nat.div_mod_eq inner_size vec_size) as Hdm. rewrite Hdiv in Hdm.
  destruct (Nat.ltb_spec (gc * vec_size) inner_size) as [Hgc | Hgc].
  - assert (Hfull : gc * vec_size + vec_size <= inner_size).
    { assert (gc < inner_size / vec_size) by nia. nia. }
    split.
    + intros Hin. apply in_flat_map in Hin. destruct Hin as (i & Hi & Hin).
      apply in_map_iff in Hin. destruct Hin as (j & <- & Hj).
      apply in_seq in Hj. apply strided_In in Hi; [|assumption].
      destruct Hi as (Hri & Hid & Hmod).
      exists i, j. repeat split; try lia.
      replace i with (r + (i - r)) at 1 by lia.
      rewrite <- Nat.Div0.add_mod_idemp_r, Hmod, Nat.add_0_r. reflexivity.
    + intros (i & j & Hi & Hmod & Hri & Hj & Hc & ->).
      apply in_flat_map. exists i. split.
      * apply strided_In; [assumption|]. repeat split; try lia.
        pose proof (Nat.div_mod_eq i block_row) as Hdi.
        pose proof (Nat.div_mod_eq r block_row) as Hdr.
        rewrite Hmod in Hdi.
        assert (Hq : r / block_row <= i / block_row).
        { apply Nat.Div0.div_le_mono. assumption. }
        replace (i - r)
          with ((i / block_row - r / block_row) * block_row) by nia.
        apply Nat.Div0.mod_mul.
      * apply in_map_iff. exists j. split; [lia|]. apply in_seq. lia.
  - split; [intros []|].
    intros (i & j & _ & _ & _ & _ & Hc & _). lia.
Qed.

Lemma spatial_update_offsets_NoDup (r gc : nat) :
  NoDup (spatial_update_offsets vec_size dim_size inner_size block_row r gc).
Proof.
  unfold spatial_update_offsets.
  pose proof (Nat.div_mod_eq inner_size vec_size) as Hdm. rewrite Hdiv in Hdm.
  destruct (Nat.ltb_spec (gc * vec_size) inner_size) as [Hgc | Hgc];
    [|constructor].
  assert (Hfull : gc * vec_size + vec_size <= inner_size).
  { assert (gc < inner_size / vec_size) by nia. nia. }
  apply NoDup_flat_map_disjoint.
  - unfold spatial_rows. now apply strided_NoDup.
  - intros i _. apply Injective_map_NoDup; [|apply seq_NoDup].
    intros j1 j2. unfold spatial_offset. lia.
  - intros i1 i2 o _ _ Hne H1 H2.
    apply in_map_iff in H1. destruct H1 as (j1 & <- & Hj1).
    apply in_map_iff in H2. destruct H2 as (j2 & Heq & Hj2).
    apply in_seq in Hj1, Hj2. unfold spatial_offset in Heq.
    apply Hne. nia.
Qed.

(** All the offsets the work items store to, in the order of the kernel's
    write list. *)
Lemma spatial_stores_partition :
  Permutation
    (flat_map (fun gc =>
                 flat_map (fun r => spatial_update_offsets
                                      vec_size dim_size inner_size block_row r gc)
                          (seq 0 block_row))
              (seq 0 global_cols))
    (seq 0 (dim_size * inner_size)).
Proof.
  pose proof (Nat.div_mod_eq inner_size vec_size) as Hdm. rewrite Hdiv in Hdm.
  apply NoDup_Permutation; [| apply seq_NoDup |].
  - apply NoDup_flat_map_disjoint; [apply seq_NoDup | |].
    + intros gc _. apply NoDup_flat_map_disjoint; [apply seq_NoDup | |].
      * intros r _. apply spatial_update_offsets_NoDup.
      * intros r1 r2 o Hr1 Hr2 Hne H1 H2.
        apply in_seq in Hr1, Hr2.
        apply spatial_update_offsets_In in H1, H2.
        destruct H1 as (i1 & j1 & Hi1 & Hm1 & _ & Hj1 & Hc1 & ->).
        destruct H2 as (i2 & j2 & Hi2 & Hm2 & _ & Hj2 & Hc2 & Heq).
        assert (Hi : i1 = i2) by nia. subst i2.
        rewrite Hm1 in Hm2. rewrite !Nat.mod_small in Hm2 by lia.
        contradiction.
    + intros gc1 gc2 o _ _ Hne H1 H2.
      apply in_flat_map in H1. destruct H1 as (r1 & _ & H1).
      apply in_flat_map in H2. destruct H2 as (r2 & _ & H2).
      apply spatial_update_offsets_In in H1, H2.
      destruct H1 as (i1 & j1 & Hi1 & _ & _ & Hj1 & Hc1 & ->).
      destruct H2 as (i2 & j2 & Hi2 & _ & _ & Hj2 & Hc2 & Heq).
      assert (Hi : i1 = i2) by nia. subst i2.
      assert (Hc : gc1 * vec_size + j1 = gc2 * vec_size + j2) by lia.
      apply Hne. nia.
  - intros o. rewrite in_seq. split.
    + intros Hin. apply in_flat_map in Hin. destruct Hin as (gc & _ & Hin).
      apply in_flat_map in Hin. destruct Hin as (r & _ & Hin).
      apply spatial_update_offsets_In in Hin.
      destruct Hin as (i & j & Hi & _ & _ & Hj & Hc & ->). nia.
    + intros [_ Ho].
      assert (Hinner : 1 <= inner_size) by (destruct inner_size; lia).
      pose proof (Nat.div_mod_eq o inner_size) as Hdo.
      pose proof (Nat.mod_upper_bound o inner_size ltac:(lia)) as Hmo.
      set (i := o / inner_size) in *. set (c := o mod inner_size) in *.
      assert (Hi : i < dim_size).
      { apply Nat.Div0.div_lt_upper_bound. lia. }
      pose proof (Nat.div_mod_eq c vec_size) as Hdc.
      pose proof (Nat.mod_upper_bound c vec_size ltac:(lia)) as Hmc.
      apply in_flat_map. exists (c / vec_size). split.
      { apply in_seq. split; [lia|]. cbn [Nat.add].
        apply Nat.Div0.div_lt_upper_bound. lia. }
      apply in_flat_map. exists (i mod block_row). split.
      { apply in_seq.
        pose proof (Nat.mod_upper_bound i block_row ltac:(lia)). lia. }
      apply spatial_update_offsets_In.
      exists i, (c mod vec_size). repeat split; try lia.
      * now rewrite Nat.Div0.mod_mod.
      * apply Nat.Div0.mod_le.
Qed.
End SpatialStores.

Local Open Scope nat_scope.

Lemma spatial_writes_fst {A : Type} (vec_size inner_size : nat)
      (rows : list nat) (gc : nat) (value : nat -> nat -> A) :
  map fst (flat_map (fun i => map (fun j => (spatial_offset vec_size inner_size i gc j,
                                             value i j))
                                  (seq 0 vec_size)) rows)
  = flat_map (fun i => map (spatial_offset vec_size inner_size i gc)
                           (seq 0 vec_size)) rows.
Proof.
  rewrite map_fst_flat_map. apply flat_map_ext_in. intros i _.
  rewrite map_map. reflexivity.
Qed.

(** X16: every kernel stores each element of its row exactly once and
    stores nothing else.  The positions written by the work items of a row
    (register-resident, fused and streaming kernels, forward and backward)
    are a permutation of 0 .. dim_size - 1; the offsets written by the work
    items of a batch entry of the spatial kernels are a permutation of
    0 .. dim_size * inner_size - 1.  No two work items store to the same
    element and no store leaves the row. *)
Theorem kernels_store_each_element_once :
  forall (scalar_t accscalar_t : Type) (N : SoftmaxNumerics scalar_t accscalar_t)
         (LogSoftMax : bool) (dim_size : nat)
         (in_data output gradOutput : nat -> scalar_t),
    1 <= dim_size ->
    (forall vec_size outer_loop local_size is_masked mask_data,
        1 <= vec_size ->
        dim_size mod vec_size = 0 ->
        dim_size <= vec_size * outer_loop * local_size ->
        Permutation
          (map fst (DispatchSoftmaxForwardKernelFunctor
                      vec_size outer_loop LogSoftMax is_masked dim_size
                      local_size in_data mask_data))
          (seq 0 dim_size) /\
        Permutation
          (map fst (DispatchSoftmaxBackwardKernelFunctor
                      vec_size outer_loop LogSoftMax is_masked dim_size
                      local_size output gradOutput mask_data))
          (seq 0 dim_size) /\
        (forall sc_add group_offset other_data alpha input_calc_0 input_calc_1,
            Permutation
              (map fst (DispatchSoftmaxForwardAddKernelFunctor
                          sc_add vec_size outer_loop LogSoftMax dim_size
                          local_size group_offset in_data other_data alpha
                          input_calc_0 input_calc_1))
              (seq 0 dim_size))) /\
    (forall vec_size start local_size,
        1 <= vec_size ->
        start < vec_size ->
        1 <= local_size ->
        Permutation
          (map fst (SoftmaxForwardKernelFunctor
                      vec_size start local_size dim_size LogSoftMax in_data))
          (seq 0 dim_size) /\
        Permutation
          (map fst (SoftmaxBackwardKernelFunctor
                      vec_size start local_size dim_size LogSoftMax
                      output gradOutput))
          (seq 0 dim_size)) /\
    (forall vec_size inner_size block_row global_cols,
        1 <= vec_size ->
        inner_size mod vec_size = 0 ->
        inner_size <= global_cols * vec_size ->
        1 <= block_row ->
        Permutation
          (map fst (SpatialSoftmaxForwardKernelFunctor
                      vec_size dim_size inner_size block_row global_cols
                      LogSoftMax in_data))
          (seq 0 (dim_size * inner_size)) /\
        Permutation
          (map fst (SpatialSoftmaxBackwardKernelFunctor
                      vec_size dim_size inner_size block_row global_cols
                      LogSoftMax output gradOutput))
          (seq 0 (dim_size * inner_size))).
Proof.
  intros scalar_t accscalar_t N LogSoftMax dim_size in_data output gradOutput
         Hdim.
  split; [|split].
  - intros vec_size outer_loop local_size is_masked mask_data Hvec Hdiv Hcov.
    assert (Hfwd : Permutation
                     (flat_map (fwd_positions vec_size outer_loop dim_size
                                              local_size) (seq 0 local_size))
                     (seq 0 dim_size))
      by now apply fwd_positions_partition.
    assert (Hbwd : Permutation
                     (flat_map (bwd_positions vec_size outer_loop dim_size
                                              local_size) (seq 0 local_size))
                     (seq 0 dim_size))
      by now apply bwd_positions_partition.
    split; [|split].
    + unfold DispatchSoftmaxForwardKernelFunctor, fwd_thread_writes.
      rewrite (flat_map_writes_fst
                 (fwd_positions vec_size outer_loop dim_size local_size)
                 (fun p => fwd_update _ _ _ _ _ _ _ _ _)).
      exact Hfwd.
    + unfold DispatchSoftmaxBackwardKernelFunctor, bwd_thread_writes.
      rewrite (flat_map_writes_fst
                 (bwd_positions vec_size outer_loop dim_size local_size)
                 (fun p => bwd_update _ _ _ _)).
      exact Hbwd.
    + intros sc_add group_offset other_data alpha input_calc_0 input_calc_1.
      unfold DispatchSoftmaxForwardAddKernelFunctor, add_thread_writes.
      rewrite (flat_map_writes_fst
                 (add_positions vec_size outer_loop dim_size local_size)
                 (fun p => add_update _ _ _ _ _ _ _ _ _ _ _ _ _)).
      exact Hfwd.
  - intros vec_size start local_size Hvec Hstart Hls.
    assert (Hperm : Permutation
                      (flat_map (stream_positions vec_size start local_size dim_size)
                                (seq 0 local_size))
                      (seq 0 dim_size))
      by now apply stream_positions_partition.
    assert (Hupd : forall local_id,
               stream_update_positions vec_size start local_size dim_size local_id
               = stream_positions vec_size start local_size dim_size local_id)
      by (intros; now apply stream_update_positions_eq).
    split.
    + unfold SoftmaxForwardKernelFunctor, stream_thread_writes.
      rewrite (flat_map_writes_fst
                 (stream_update_positions vec_size start local_size dim_size)
                 (fun p => stream_update _ _ _ _ _ _ _)).
      rewrite (flat_map_ext_in _ _ _ (fun id _ => Hupd id)). exact Hperm.
    + unfold SoftmaxBackwardKernelFunctor, stream_bwd_thread_writes.
      rewrite (flat_map_writes_fst
                 (stream_update_positions vec_size start local_size dim_size)
                 (fun p => stream_bwd_update _ _ _ _ _ _ _ _ _)).
      rewrite (flat_map_ext_in _ _ _ (fun id _ => Hupd id)). exact Hperm.
  - intros vec_size inner_size block_row global_cols Hvec Hdiv Hcols Hrow.
    assert (Hperm := spatial_stores_partition
                       vec_size dim_size inner_size block_row global_cols
                       Hvec Hdiv Hcols Hrow).
    split.
    + unfold SpatialSoftmaxForwardKernelFunctor.
      rewrite map_fst_flat_map.
      erewrite flat_map_ext_in; [exact Hperm|].
      intros gc _. cbv beta. rewrite map_fst_flat_map.
      apply flat_map_ext_in. intros r _.
      unfold spatial_thread_writes, spatial_update_offsets.
      destruct (gc * vec_size <? inner_size); [|reflexivity].
      apply (spatial_writes_fst
               vec_size inner_size _ gc
               (fun i j => spatial_update _ _ _ _ _ _ gc j _)).
    + unfold SpatialSoftmaxBackwardKernelFunctor.
      rewrite map_fst_flat_map.
      erewrite flat_map_ext_in; [exact Hperm|].
      intros gc _. cbv beta. rewrite map_fst_flat_map.
      apply flat_map_ext_in. intros r _.
      unfold spatial_bwd_thread_writes, spatial_update_offsets.
      destruct (gc * vec_size <? inner_size); [|reflexivity].
      apply (spatial_writes_fst
               vec_size inner_size _ gc
               (fun i j => spatial_bwd_update _ _ _ _ _ _ _ gc j _ _)).
Qed.

Lemma kernels_store_each_element_once_witness :
  1 <= 6 /\
  Permutation
    (map fst (@SoftmaxForwardKernelFunctor
                Z Z IntegerArithmetic 4 3 2 6 false (fun p => Z.of_nat p)))
    (seq 0 6).
Proof.
  split; [lia|].
  apply (proj1 (proj2 (kernels_store_each_element_once
                         Z Z IntegerArithmetic false 6
                         (fun p => Z.of_nat p) (fun p => Z.of_nat p)
                         (fun p => Z.of_nat p) ltac:(lia)))
               4 3 2); lia.
Defined.

(** The order in which the streaming kernel of that example stores. *)
Example streaming_store_order :
  map fst (@SoftmaxForwardKernelFunctor
             Z Z IntegerArithmetic 4 3 2 6 false (fun p => Z.of_nat p))
  = [0; 5; 1; 2; 3; 4].
Proof. reflexivity. Qed.

Local Open Scope nat_scope.

(** ** [impl::group_reduce]: the shuffle loops *)

Section ShuffleLoops.
Context {A : Type}.
Variable bin_op : A -> A -> A.
Variable init : A.
Variable out_of_range : list A -> nat -> nat -> A.
Hypothesis op_assoc : forall a b c, bin_op a (bin_op b c) = bin_op (bin_op a b) c.

Lemma shuffle_step_length (sg : list A) (i : nat) :
  List.length (impl.shuffle_step bin_op init out_of_range sg i) = List.length sg.
Proof. unfold impl.shuffle_step. now rewrite length_map, length_seq. Qed.

Lemma shuffle_step_nth (sg : list A) (i lane : nat) :
  lane + i < List.length sg ->
  nth lane (impl.shuffle_step bin_op init out_of_range sg i) init
  = bin_op (nth lane sg init) (nth (lane + i) sg init).
Proof.
  intros Hl. unfold impl.shuffle_step.
  rewrite nth_map_seq by lia. unfold impl.shift_group_left.
  destruct (Nat.ltb_spec (lane + i) (List.length sg)); [reflexivity | lia].
Qed.

Lemma range_reduce_single (orig : list A) (l : nat) :
  l < List.length orig ->
  range_reduce bin_op orig l 1 = Some (nth l orig init).
Proof.
  intros Hl. unfold range_reduce.
  assert (Hsk : exists x rest, skipn l orig = x :: rest).
  { destruct (skipn l orig) as [| x rest] eqn:Es; [|eauto].
    assert (Hlen : List.length (skipn l orig) = 0) by now rewrite Es.
    rewrite length_skipn in Hlen. lia. }
  destruct Hsk as (x & rest & Hsk). rewrite Hsk. simpl.
  rewrite <- (firstn_skipn l orig) at 1.
  rewrite app_nth2, length_firstn, Hsk by (rewrite length_firstn; lia).
  replace (l - Nat.min l (List.length orig)) with 0 by lia. reflexivity.
Qed.

Lemma range_reduce_all (orig : list A) (n : nat) :
  List.length orig <= n ->
  range_reduce bin_op orig 0 n = option_reduce bin_op orig.
Proof.
  intros Hn. unfold range_reduce. cbn [skipn]. now rewrite firstn_all2.
Qed.

Variable SIMD : nat.
Variable sg0 : list A.
Hypothesis Hlen0 : List.length sg0 = SIMD.

(** After the passes with strides 1, 2, .., i/2 lane [l] holds the values
    of the lanes l .. l + i - 1, as long as these exist. *)
Lemma shuffle_step_inv (sg : list A) (i : nat) :
  List.length sg = SIMD ->
  (forall l, l + i <= SIMD ->
             Some (nth l sg init) = range_reduce bin_op sg0 l i) ->
  forall l, l + 2 * i <= SIMD ->
            Some (nth l (impl.shuffle_step bin_op init out_of_range sg i) init)
            = range_reduce bin_op sg0 l (2 * i).
Proof.
  intros Hlen Hinv l Hl.
  destruct (Nat.eq_dec i 0) as [-> | Hi].
  - cbn [Nat.mul]. rewrite <- Hinv by lia. unfold range_reduce in *.
    cbn [firstn option_reduce fold_right] in *.
    specialize (Hinv l ltac:(lia)). discriminate.
  - rewrite shuffle_step_nth by lia.
    rewrite (range_reduce_double bin_op op_assoc), <- !Hinv by lia.
    reflexivity.
Qed.

Lemma shuffle_loop_reduces (fuel : nat) :
  forall m i sg,
    SIMD = i * 2 ^ m -> m < fuel -> 1 <= i ->
    List.length sg = SIMD ->
    (forall l, l + i <= SIMD ->
               Some (nth l sg init) = range_reduce bin_op sg0 l i) ->
    Some (nth 0 (impl.shuffle_loop bin_op init out_of_range fuel SIMD i sg) init)
    = option_reduce bin_op sg0.
Proof.
  induction fuel as [| fuel IH]; intros m i sg Hm Hfuel Hi Hlen Hinv; [lia|].
  cbn [impl.shuffle_loop].
  destruct (Nat.ltb_spec i SIMD) as [Hlt | Hge].
  - destruct m as [| m]; [rewrite Nat.pow_0_r in Hm; lia|].
    apply (IH m); try lia.
    + rewrite Hm, Nat.pow_succ_r'. lia.
    + now rewrite shuffle_step_length.
    + now apply shuffle_step_inv.
  - assert (Hpos : 1 <= 2 ^ m).
    { pose proof (Nat.pow_nonzero 2 m ltac:(lia)). lia. }
    assert (Heq : i = SIMD) by nia.
    rewrite Hinv by lia. rewrite Heq. apply range_reduce_all. lia.
Qed.

Lemma shuffle_loop_break_reduces (sub_group_num fuel : nat) :
  forall m i sg,
    SIMD = i * 2 ^ m -> m < fuel -> 1 <= i ->
    List.length sg = SIMD ->
    (forall l, l + i <= SIMD ->
               Some (nth l sg init) = range_reduce bin_op sg0 l i) ->
    exists L,
      1 <= L <= SIMD /\ (sub_group_num <= L \/ L = SIMD) /\
      Some (nth 0 (impl.shuffle_loop_break bin_op init out_of_range fuel SIMD
                                           sub_group_num i sg) init)
      = range_reduce bin_op sg0 0 L.
Proof.
  induction fuel as [| fuel IH]; intros m i sg Hm Hfuel Hi Hlen Hinv; [lia|].
  cbn [impl.shuffle_loop_break].
  assert (Hpos : 1 <= 2 ^ m).
  { pose proof (Nat.pow_nonzero 2 m ltac:(lia)). lia. }
  destruct (Nat.ltb_spec i SIMD) as [Hlt | Hge].
  - destruct m as [| m]; [rewrite Nat.pow_0_r in Hm; lia|].
    assert (Hm' : SIMD = 2 * i * 2 ^ m) by (rewrite Hm, Nat.pow_succ_r'; lia).
    assert (Hpos' : 1 <= 2 ^ m).
    { pose proof (Nat.pow_nonzero 2 m ltac:(lia)). lia. }
    destruct (Nat.leb_spec ((sub_group_num + 1) / 2) i) as [Hstop | Hgo].
    + exists (2 * i). split; [nia|]. split.
      * left. pose proof (Nat.div_mod_eq (sub_group_num + 1) 2).
        pose proof (Nat.mod_upper_bound (sub_group_num + 1) 2 ltac:(lia)). lia.
      * apply shuffle_step_inv; try assumption. nia.
    + apply (IH m); try lia.
      * now rewrite shuffle_step_length.
      * now apply shuffle_step_inv.
  - assert (Heq : i = SIMD) by nia.
    exists SIMD. split; [lia|]. split; [now right|].
    rewrite Hinv by lia. now rewrite Heq.
Qed.
End ShuffleLoops.

(** ** [impl::group_reduce]: the pass over the shared memory *)

Section GroupReduceSecondPhase.
Context {A : Type}.
Variable bin_op : A -> A -> A.
Variable init : A.
Hypothesis op_assoc : forall a b c, bin_op a (bin_op b c) = bin_op (bin_op a b) c.
Hypothesis op_comm : forall a b, bin_op a b = bin_op b a.

Lemma fold_left_absorb (l : list A) (x : A) :
  (forall v, In v l -> v = init) -> bin_op x init = x ->
  fold_left bin_op l x = x.
Proof.
  intros Hl Hx. induction l as [| v l IH]; [reflexivity|].
  cbn [fold_left]. rewrite (Hl v) by now left. rewrite Hx.
  apply IH. intros w Hw. apply Hl. now right.
Qed.

Lemma map_nth_seq_all (l : list A) :
  map (fun i => nth i l init) (seq 0 (List.length l)) = l.
Proof.
  induction l as [| x l IH]; [reflexivity|].
  cbn [List.length seq map nth]. f_equal.
  rewrite <- seq_shift, map_map. exact IH.
Qed.

Lemma map_nth_seq_tl (l : list A) :
  map (fun i => nth i l init) (seq 1 (List.length l - 1)) = tl l.
Proof.
  destruct l as [| x l]; [reflexivity|].
  cbn [List.length tl]. replace (S (List.length l) - 1) with (List.length l) by lia.
  rewrite <- seq_shift, map_map. cbn [nth]. apply map_nth_seq_all.
Qed.

Lemma flat_map_ext_on {X Y : Type} (f g : X -> list Y) (l : list X) :
  (forall x, In x l -> f x = g x) -> flat_map f l = flat_map g l.
Proof.
  induction l as [| x l IH]; intros Hf; [reflexivity|].
  cbn [flat_map]. rewrite (Hf x) by now left. f_equal.
  apply IH. intros y Hy. apply Hf. now right.
Qed.

Lemma firstn_seq_0 (L n : nat) : L <= n -> firstn L (seq 0 n) = seq 0 L.
Proof.
  intros HL. replace n with (L + (n - L)) by lia.
  rewrite seq_app, firstn_app, length_seq, Nat.sub_diag.
  cbn [firstn]. rewrite app_nil_r. apply firstn_all2. rewrite length_seq. lia.
Qed.

Lemma fold_left_hd_absorbs (l : list A) :
  l <> [] -> (forall v, In v l -> bin_op init v = v) ->
  fold_left bin_op l init = fold_left bin_op (tl l) (hd init l).
Proof.
  intros Hne Habs. destruct l as [| x l]; [congruence|].
  cbn [fold_left tl hd]. now rewrite Habs by now left.
Qed.

Lemma fold_left_absorbs_init (l : list A) :
  l <> [] -> (forall v, In v l -> bin_op init v = v) ->
  bin_op init (fold_left bin_op (tl l) (hd init l))
  = fold_left bin_op (tl l) (hd init l).
Proof.
  intros Hne Habs. destruct l as [| x l]; [congruence|].
  cbn [tl hd]. rewrite <- (fold_left_op_acc bin_op op_assoc).
  now rewrite Habs by now left.
Qed.

Variable SIMD : nat.
Variable local_data : list A.
Hypothesis HSIMD : 1 <= SIMD.
Hypothesis Hlocal : 1 <= List.length local_data.
Hypothesis Habsorb : forall v, In v local_data -> bin_op init v = v.

(** The positions of the shared array that the lanes below [lanes] of the
    first sub-group load are all of them once, if the lanes from [lanes] on
    have none. *)
Lemma second_phase_positions (lanes : nat) :
  1 <= lanes <= SIMD ->
  List.length local_data <= lanes \/ lanes = SIMD ->
  Permutation
    (strided (0 + SIMD) SIMD (List.length local_data)
     ++ flat_map (fun l => l :: strided (l + SIMD) SIMD (List.length local_data))
                 (seq 1 (Nat.min (List.length local_data) lanes - 1)))
    (seq 1 (List.length local_data - 1)).
Proof.
  intros Hl Hcase.
  set (sgn := List.length local_data) in *.
  set (S' := Nat.min sgn lanes).
  apply Permutation_cons_inv with (a := 0).
  rewrite <- (seq_0_unfold sgn) by lia.
  rewrite <- (strided_partition SIMD sgn HSIMD).
  assert (Hsplit : seq 0 SIMD = seq 0 S' ++ seq S' (SIMD - S')).
  { replace SIMD with (S' + (SIMD - S')) at 1 by lia. apply seq_app. }
  rewrite Hsplit, flat_map_app.
  rewrite (flat_map_all_nil _ (seq S' (SIMD - S'))).
  - rewrite app_nil_r, (seq_0_unfold S') by lia.
    cbn [flat_map]. rewrite (strided_unfold 0 SIMD sgn) by lia.
    cbn [app Nat.add]. apply perm_skip. apply Permutation_app_head.
    rewrite (flat_map_ext_on
               (fun id => strided id SIMD sgn)
               (fun l => l :: strided (l + SIMD) SIMD sgn)); [reflexivity|].
    intros x Hx. apply in_seq in Hx. apply strided_unfold; lia.
  - intros x Hx. apply in_seq in Hx. apply strided_nil; lia.
Qed.

Lemma second_phase_reduce (lanes : nat) :
  1 <= lanes <= SIMD ->
  List.length local_data <= lanes \/ lanes = SIMD ->
  range_reduce bin_op
    (map (fun sg_local_id =>
            let val := if sg_local_id <? List.length local_data
                       then nth sg_local_id local_data init else init in
            fold_left (fun val i => bin_op val (nth i local_data init))
                      (strided (sg_local_id + SIMD) SIMD (List.length local_data))
                      val)
         (seq 0 SIMD))
    0 lanes
  = Some (fold_left bin_op (tl local_data) (hd init local_data)).
Proof.
  intros Hl Hcase.
  set (sgn := List.length local_data) in *.
  set (term := fun i => nth i local_data init).
  set (P := fun sg_local_id => _).
  assert (Hlow : forall l, l < sgn ->
            P l = fold_left bin_op (map term (strided (l + SIMD) SIMD sgn)) (term l)).
  { intros l Hlt. unfold P. cbv zeta.
    destruct (Nat.ltb_spec l sgn); [|lia].
    apply (fold_left_term bin_op term). }
  assert (Hhigh : forall l, sgn <= l -> P l = init).
  { intros l Hge. unfold P. cbv zeta.
    destruct (Nat.ltb_spec l sgn); [lia|].
    rewrite strided_nil by lia. reflexivity. }
  assert (Hne : local_data <> []).
  { intros ->. cbn in Hlocal. lia. }
  unfold range_reduce. cbn [skipn].
  rewrite firstn_map, firstn_seq_0 by lia.
  rewrite (seq_0_unfold lanes) by lia. cbn [map].
  rewrite (option_reduce_fold_left bin_op op_assoc). f_equal.
  set (S' := Nat.min sgn lanes).
  assert (HY : fold_left bin_op (map P (seq 1 (S' - 1))) (P 0)
               = fold_left bin_op (tl local_data) (hd init local_data)).
  { rewrite (fold_left_unseeded_partials bin_op op_assoc term
               (fun l => l) (fun l => strided (l + SIMD) SIMD sgn) P).
    2:{ intros l Hin. apply in_seq in Hin. apply Hlow. lia. }
    rewrite (Hlow 0) by lia. rewrite <- fold_left_app, <- map_app.
    rewrite (fold_left_op_perm bin_op op_assoc op_comm _
               (map term (seq 1 (sgn - 1)))).
    2:{ apply Permutation_map. now apply second_phase_positions. }
    unfold term at 1. rewrite map_nth_seq_tl.
    unfold term. now destruct local_data. }
  replace (lanes - 1) with ((S' - 1) + (lanes - S')) by lia.
  rewrite seq_app, map_app, fold_left_app, HY.
  apply fold_left_absorb.
  - intros v Hv. apply in_map_iff in Hv. destruct Hv as (l & <- & Hin).
    apply in_seq in Hin. apply Hhigh. lia.
  - rewrite op_comm. now apply fold_left_absorbs_init.
Qed.
End GroupReduceSecondPhase.

Lemma flat_map_hd_tl {A : Type} (d : A) (ls : list (list A)) :
  (forall l, In l ls -> l <> []) ->
  flat_map (fun l => hd d l :: tl l) ls = List.concat ls.
Proof.
  induction ls as [| l ls IH]; intros Hne; [reflexivity|].
  cbn [flat_map List.concat]. rewrite IH by (intros l' Hl'; apply Hne; now right).
  f_equal. specialize (Hne l ltac:(now left)). now destruct l.
Qed.

(** X17: the shuffle implementation of [group_reduce] computes the fold
    that the kernels rely on.  For a sub-group size [SIMD] that is a power
    of two, [sub_group_num] >= 1 sub-groups of [SIMD] lanes each, an
    associative and commutative operator and values that absorb [init]
    ([bin_op init v = v]), the value every work item of the row ends with is
    the left fold of [bin_op] from [init] over the values of all work items,
    whatever [sycl::shift_group_left] returns for lanes beyond the
    sub-group. *)
Theorem group_reduce_shuffles_fold_all :
  forall (A : Type) (bin_op : A -> A -> A) (init : A)
         (out_of_range : list A -> nat -> nat -> A)
         (n sub_group_num : nat) (vals : list (list A)),
    (forall a b c, bin_op a (bin_op b c) = bin_op (bin_op a b) c) ->
    (forall a b, bin_op a b = bin_op b a) ->
    (forall sg v, In sg vals -> In v sg -> bin_op init v = v) ->
    List.length vals = sub_group_num ->
    1 <= sub_group_num ->
    (forall sg, In sg vals -> List.length sg = 2 ^ n) ->
    impl.group_reduce bin_op init out_of_range (2 ^ n) sub_group_num vals
    = group_reduce bin_op init (List.concat vals).
Proof.
  intros A bin_op init out_of_range n sub_group_num vals
         op_assoc op_comm Habsorb Hnum Hpos Hlanes.
  set (SIMD := 2 ^ n) in *.
  assert (HSIMD : 1 <= SIMD).
  { pose proof (Nat.pow_nonzero 2 n ltac:(lia)). unfold SIMD. lia. }
  set (lane0 := fun sg => nth 0 (impl.shuffle_loop bin_op init out_of_range
                                                   SIMD SIMD 1 sg) init).
  assert (Hsg : forall sg, In sg vals ->
            sg <> [] /\ lane0 sg = fold_left bin_op (tl sg) (hd init sg)).
  { intros sg Hin. pose proof (Hlanes sg Hin) as Hlen.
    assert (Hne : sg <> []) by (intros ->; cbn in Hlen; lia).
    split; [exact Hne|].
    assert (Hred : Some (lane0 sg) = option_reduce bin_op sg).
    { unfold lane0.
      apply (shuffle_loop_reduces bin_op init out_of_range op_assoc SIMD sg Hlen
               SIMD n 1 sg); try lia.
      - apply Nat.pow_gt_lin_r. lia.
      - intros l Hl. symmetry. apply range_reduce_single. lia. }
    destruct sg as [| x sg]; [congruence|].
    rewrite (option_reduce_fold_left bin_op op_assoc) in Hred.
    now injection Hred. }
  assert (Hfold : fold_left bin_op (tl (map lane0 vals)) (hd init (map lane0 vals))
                  = group_reduce bin_op init (List.concat vals)).
  { unfold group_reduce.
    destruct vals as [| v0 vs]; [cbn in Hnum; lia|].
    cbn [map tl hd List.concat].
    rewrite (fold_left_unseeded_partials bin_op op_assoc (fun v => v)
               (hd init) (@tl A) lane0).
    2:{ intros sg Hin. rewrite map_id. apply Hsg. now right. }
    rewrite map_id, flat_map_hd_tl
      by (intros l Hl; apply Hsg; now right).
    destruct (Hsg v0 ltac:(now left)) as [Hne0 Hv0]. rewrite Hv0.
    rewrite fold_left_app.
    rewrite (fold_left_hd_absorbs bin_op init v0 Hne0); [reflexivity|].
    intros v Hv. apply (Habsorb v0); [now left | exact Hv]. }
  rewrite <- Hfold. unfold impl.group_reduce. cbv zeta.
  destruct (Nat.eqb_spec sub_group_num 1) as [Hone | Hmany].
  - destruct vals as [| v0 [| v1 vs]]; cbn in Hnum; try lia.
    reflexivity.
  - fold lane0. rewrite (map_map _ (fun sg => nth 0 sg init)).
    change (map (fun x => nth 0 (impl.shuffle_loop bin_op init out_of_range
                                                   SIMD SIMD 1 x) init) vals)
      with (map lane0 vals).
    set (local_data := map lane0 vals).
    assert (Hloc : List.length local_data = sub_group_num)
      by (unfold local_data; now rewrite length_map).
    set (first_sub_group := map _ (seq 0 SIMD)).
    assert (Hfirst : List.length first_sub_group = SIMD)
      by (unfold first_sub_group; now rewrite length_map, length_seq).
    destruct (shuffle_loop_break_reduces bin_op init out_of_range op_assoc
                SIMD first_sub_group Hfirst sub_group_num SIMD n 1
                first_sub_group)
      as (L & HL & Hcase & Hres); try lia.
    { apply Nat.pow_gt_lin_r. lia. }
    { intros l Hl. symmetry. apply range_reduce_single. lia. }
    assert (Hsecond : range_reduce bin_op first_sub_group 0 L
              = Some (fold_left bin_op (tl local_data) (hd init local_data))).
    { unfold first_sub_group. rewrite <- Hloc.
      apply (second_phase_reduce bin_op init op_assoc op_comm SIMD local_data);
        try lia.
      intros v Hv. unfold local_data in Hv. apply in_map_iff in Hv.
      destruct Hv as (sg & <- & Hin).
      destruct (Hsg sg Hin) as [Hne ->].
      apply (fold_left_absorbs_init bin_op init op_assoc); [exact Hne|].
      intros w Hw. now apply (Habsorb sg). }
    rewrite Hsecond in Hres. now injection Hres.
Qed.

Lemma group_reduce_shuffles_fold_all_witness :
  impl.group_reduce Z.add 0%Z (fun _ _ _ => 99%Z) (2 ^ 2) 3
                    [[1; 2; 3; 4]; [5; 6; 7; 8]; [9; 10; 11; 12]]%Z
  = group_reduce Z.add 0%Z
                 (List.concat [[1; 2; 3; 4]; [5; 6; 7; 8]; [9; 10; 11; 12]]%Z).
Proof.
  apply (group_reduce_shuffles_fold_all Z Z.add 0%Z (fun _ _ _ => 99%Z) 2 3
           [[1; 2; 3; 4]; [5; 6; 7; 8]; [9; 10; 11; 12]]%Z).
  - intros; lia.
  - intros; lia.
  - intros; lia.
  - reflexivity.
  - lia.
  - intros sg [<- | [<- | [<- | []]]]; reflexivity.
Defined.

(** With six sub-groups of four lanes the shared-memory pass loads two
    values in the lanes 0 and 1; lanes beyond the sub-group read 99. *)
Example group_reduce_six_sub_groups :
  impl.group_reduce Z.add 0%Z (fun _ _ _ => 99%Z) 4 6
    [[1; 1; 1; 1]; [2; 2; 2; 2]; [3; 3; 3; 3];
     [4; 4; 4; 4]; [5; 5; 5; 5]; [6; 6; 6; 6]]%Z
  = 84%Z.
Proof. reflexivity. Qed.

Local Close Scope nat_scope.
